(** * PokeSearcher: grid generation, endpoint placement and A* search

    A shallow embedding of the pathfinding core of [app.py] (and of its
    near-copy [terminal_poke_astar.py]) together with the properties the
    natural-language specification states about it.  Later parts cover
    the callers of the core ([api_new]), the terminal picture ([render])
    and the run finder of the sprite cropper ([find_segments_1d] of
    [cropImage/crop.py]).

    Conventions of the embedding:
    - Python [int]s are [Z]; a cell [(r, c)] is a pair of [Z].
    - A grid is a list of rows, each a list of one-character tiles.
    - [dict]s are [gmap]s and [set]s are [gset]s.
    - A call either returns, raises, or runs past the loop budget of the
      model: this is the [outcome] monad.
    - [heapq] is modelled by what it guarantees: [heappop] removes the
      least entry under Python's tuple ordering.  That ordering is total
      on [(int, int, (int, int))], so the popped values depend only on
      the multiset of entries pushed, which is what the model keeps.
    - The process-wide [random] stream is an explicit state threaded
      through the generator and the placer. *)

From Stdlib Require Import ZArith QArith Lia Ascii.
From stdpp Require Import base tactics option list gmap strings sorting.

Local Open Scope Z_scope.

(** ** Outcomes of a call *)

Inductive exn : Set := IndexError | KeyError | ValueError.

Inductive outcome (A : Type) : Type :=
| Ret (a : A)
| Exc (e : exn)
| OutOfFuel.
Arguments Ret {A} a.
Arguments Exc {A} e.
Arguments OutOfFuel {A}.

Definition obind {A B} (m : outcome A) (k : A → outcome B) : outcome B :=
  match m with
  | Ret a => k a
  | Exc e => Exc e
  | OutOfFuel => OutOfFuel
  end.

Notation "'let!' x ':=' m 'in' k" := (obind m (λ x, k))
  (at level 10, x pattern, m at level 100, k at level 200).

(** A [for] loop over a list whose body may raise. *)
Fixpoint for_each {A S} (body : S → A → outcome S) (l : list A) (s : S)
  : outcome S :=
  match l with
  | [] => Ret s
  | x :: l' => let! s' := body s x in for_each body l' s'
  end.

(** ** Python sequences *)

(** [l[i]], with Python's negative indices and [IndexError]. *)
Definition py_getitem {A} (l : list A) (i : Z) : outcome A :=
  let j := if i <? 0 then i + Z.of_nat (length l) else i in
  if j <? 0 then Exc IndexError
  else match l !! Z.to_nat j with
       | Some x => Ret x
       | None => Exc IndexError
       end.

(** [l[i] = x], likewise. *)
Definition py_setitem {A} (l : list A) (i : Z) (x : A) : outcome (list A) :=
  let j := if i <? 0 then i + Z.of_nat (length l) else i in
  if j <? 0 then Exc IndexError
  else if (Z.to_nat j <? length l)%nat then Ret (<[Z.to_nat j := x]> l)
       else Exc IndexError.

Definition py_len {A} (l : list A) : Z := Z.of_nat (length l).

(** [range(n)] *)
Definition py_range (n : Z) : list Z := seqZ 0 n.

(** ** Tiles, grids and cells *)

Abbreviation tile := ascii.
Definition TILE_NORMAL : tile := "."%char.
Definition TILE_WALL : tile := "#"%char.
Definition TILE_MUD : tile := "~"%char.

Definition COSTS : gmap ascii Z := <[TILE_NORMAL := 1]> (<[TILE_MUD := 3]> ∅).

(** [d.get(k, default)] *)
Definition dict_get {K V} `{Countable K} (d : gmap K V) (k : K) (dflt : V) : V :=
  default dflt (d !! k).

(** [d[k]] *)
Definition dict_getitem {K V} `{Countable K} (d : gmap K V) (k : K) : outcome V :=
  match d !! k with
  | Some v => Ret v
  | None => Exc KeyError
  end.

Abbreviation grid := (list (list tile)).
Abbreviation cell := (Z * Z)%type.

(** [grid[r][c]] *)
Definition grid_at (gr : grid) (r c : Z) : outcome tile :=
  let! row := py_getitem gr r in py_getitem row c.

Definition manhattan (a b : cell) : Z :=
  Z.abs (a.1 - b.1) + Z.abs (a.2 - b.2).

Definition DIRS : list (Z * Z) := [(1, 0); (-1, 0); (0, 1); (0, -1)].

(** ** The open heap *)

(** A heap entry is the tuple [(f, g, (r, c))]. *)
Abbreviation entry := (Z * Z * cell)%type.

Definition ent_f (e : entry) : Z := e.1.1.
Definition ent_g (e : entry) : Z := e.1.2.
Definition ent_cell (e : entry) : cell := e.2.

(** Python's [<] on cells and on entries: lexicographic. *)
Definition cell_ltb (a b : cell) : bool :=
  (a.1 <? b.1) || ((a.1 =? b.1) && (a.2 <? b.2)).

Definition entry_ltb (a b : entry) : bool :=
  (ent_f a <? ent_f b)
  || ((ent_f a =? ent_f b)
      && ((ent_g a <? ent_g b)
          || ((ent_g a =? ent_g b) && cell_ltb (ent_cell a) (ent_cell b)))).

(** The least entry of [e :: h]. *)
Fixpoint heap_least (e : entry) (h : list entry) : entry :=
  match h with
  | [] => e
  | x :: h' => heap_least (if entry_ltb x e then x else e) h'
  end.

Fixpoint remove_first (e : entry) (h : list entry) : list entry :=
  match h with
  | [] => []
  | x :: h' => if decide (x = e) then h' else x :: remove_first e h'
  end.

Definition heappush (h : list entry) (e : entry) : list entry := e :: h.

(** [heappop] on a non-empty heap; [None] stands for the empty heap, which
    the callers test before popping. *)
Definition heappop (h : list entry) : option (entry * list entry) :=
  match h with
  | [] => None
  | x :: h' => let m := heap_least x h' in Some (m, remove_first m h)
  end.

(** ** A* search ([astar]) *)

(** One recorded expansion step.  [app.py] stores the open and closed sets
    as lists in set-iteration order and [terminal_poke_astar.py] as sets;
    the snapshot keeps them as sets. *)
Record snapshot : Type := {
  snap_current : cell;
  snap_open : gset cell;
  snap_closed : gset cell;
  snap_g : gmap cell Z
}.

(** The dictionary [astar] returns. *)
Record solve_result : Type := {
  path : list cell;
  expanded : nat;
  steps : list snapshot
}.

(** The local variables of [astar] that live across loop iterations. *)
Record search : Type := {
  st_g : gmap cell Z;
  st_parent : gmap cell cell;
  st_open_heap : list entry;
  st_open_set : gset cell;
  st_closed_set : gset cell;
  st_steps : list snapshot
}.

(** [tentative_g < g.get(neighbor, float('inf'))] *)
Definition improves (tentative_g : Z) (old : option Z) : bool :=
  match old with
  | Some x => tentative_g <? x
  | None => true
  end.

(** The body of [for dr, dc in ((1,0),(-1,0),(0,1),(0,-1))]. *)
Definition relax (gr : grid) (rows cols : Z) (goal current : cell)
    (st : search) (d : Z * Z) : outcome search :=
  let nr := current.1 + d.1 in
  let nc := current.2 + d.2 in
  if negb ((0 <=? nr) && (nr <? rows) && (0 <=? nc) && (nc <? cols))
  then Ret st
  else
    let! t := grid_at gr nr nc in
    if decide (t = TILE_WALL) then Ret st
    else
      let neighbor := (nr, nc) in
      let! gc := dict_getitem (st_g st) current in
      let! t' := grid_at gr nr nc in
      let tentative_g := gc + dict_get COSTS t' 1 in
      if improves tentative_g (st_g st !! neighbor) then
        let fscore := tentative_g + manhattan neighbor goal in
        Ret {| st_g := <[neighbor := tentative_g]> (st_g st);
               st_parent := <[neighbor := current]> (st_parent st);
               st_open_heap :=
                 heappush (st_open_heap st) (fscore, tentative_g, neighbor);
               st_open_set := st_open_set st ∪ {[neighbor]};
               st_closed_set := st_closed_set st;
               st_steps := st_steps st |}
      else Ret st.

(** [while cur != start: path.append(cur); cur = parent[cur]] *)
Fixpoint reconstruct (fuel : nat) (parent : gmap cell cell) (start cur : cell)
    (acc : list cell) : outcome (list cell) :=
  match fuel with
  | O => OutOfFuel
  | S n =>
      if decide (cur = start) then Ret acc
      else
        let! p := dict_getitem parent cur in
        reconstruct n parent start p (acc ++ [cur])
  end.

(** What one iteration of a [while] loop does next. *)
Inductive flow (S R : Type) : Type :=
| Next (s : S)
| Done (r : R).
Arguments Next {S R} s.
Arguments Done {S R} r.

(** One iteration of [while open_heap:], from the loop test to the end of
    the body; [Done] is a [return] (the loop test failing leads to the
    final [return None]). *)
Definition astar_iter (budget : nat) (gr : grid) (rows cols : Z)
    (start goal : cell) (record_steps : bool) (st : search)
  : outcome (flow search (option solve_result)) :=
  match heappop (st_open_heap st) with
  | None => Ret (Done None)
  | Some (e, heap') =>
      let current := ent_cell e in
      if decide (current ∈ st_closed_set st) then
        Ret (Next {| st_g := st_g st; st_parent := st_parent st;
                     st_open_heap := heap';
                     st_open_set := st_open_set st;
                     st_closed_set := st_closed_set st;
                     st_steps := st_steps st |})
      else
        let open' := st_open_set st ∖ {[current]} in
        let closed' := st_closed_set st ∪ {[current]} in
        let steps' :=
          if record_steps then
            st_steps st ++ [ {| snap_current := current;
                                snap_open := open';
                                snap_closed := closed';
                                snap_g := st_g st |} ]
          else st_steps st in
        if decide (current = goal) then
          let! p := reconstruct budget (st_parent st) start current [] in
          Ret (Done (Some {| path := reverse (p ++ [start]);
                             expanded := size closed';
                             steps := steps' |}))
        else
          let! st' :=
            for_each (relax gr rows cols goal current) DIRS
              {| st_g := st_g st; st_parent := st_parent st;
                 st_open_heap := heap';
                 st_open_set := open';
                 st_closed_set := closed';
                 st_steps := steps' |} in
          Ret (Next st')
  end.

(** The [while open_heap:] loop. *)
Fixpoint astar_loop (fuel : nat) (budget : nat) (gr : grid) (rows cols : Z)
    (start goal : cell) (record_steps : bool) (st : search)
  : outcome (option solve_result) :=
  match fuel with
  | O => OutOfFuel
  | S n =>
      let! fl := astar_iter budget gr rows cols start goal record_steps st in
      match fl with
      | Next st' =>
          astar_loop n budget gr rows cols start goal record_steps st'
      | Done r => Ret r
      end
  end.

(** Loop budget of the model, for the main loop and for the walk back
    along [parent]: every iteration that is not a discarded pop closes a
    new cell and pushes at most four entries, only [start] and in-bounds
    cells are ever closed, and the walk back from a cell of cost g takes at
    most g steps, with g at most three times the number of closed cells.
    [astar_terminates] shows that the budget is never used up. *)
Definition astar_budget (rows cols : Z) : nat :=
  Z.to_nat (4 * (rows * cols + 1) + 2).

Definition astar_init (start goal : cell) : search :=
  {| st_g := {[start := 0]};
     st_parent := ∅;
     st_open_heap := heappush [] (manhattan start goal, 0, start);
     st_open_set := {[start]};
     st_closed_set := ∅;
     st_steps := [] |}.

Definition astar (gr : grid) (start goal : cell) (record_steps : bool)
  : outcome (option solve_result) :=
  let rows := py_len gr in
  let! row0 := py_getitem gr 0 in
  let cols := py_len row0 in
  astar_loop (astar_budget rows cols) (astar_budget rows cols)
    gr rows cols start goal record_steps (astar_init start goal).

(** ** Reachability check ([ensure_reachable]) *)

(** The body of [for dr, dc in [(1,0),(-1,0),(0,1),(0,-1)]] of the
    breadth-first search; the state is the queue and the seen set. *)
Definition bfs_visit (gr : grid) (rows cols : Z) (cur : cell)
    (st : list cell * gset cell) (d : Z * Z)
  : outcome (list cell * gset cell) :=
  let nr := cur.1 + d.1 in
  let nc := cur.2 + d.2 in
  if (0 <=? nr) && (nr <? rows) && (0 <=? nc) && (nc <? cols) then
    let! t := grid_at gr nr nc in
    if decide (t ≠ TILE_WALL ∧ (nr, nc) ∉ st.2)
    then Ret (st.1 ++ [(nr, nc)], st.2 ∪ {[(nr, nc)]})
    else Ret st
  else Ret st.

(** One iteration of [while q:]. *)
Definition bfs_iter (gr : grid) (rows cols : Z) (goal : cell)
    (st : list cell * gset cell)
  : outcome (flow (list cell * gset cell) bool) :=
  match st.1 with
  | [] => Ret (Done false)
  | cur :: q' =>
      if decide (cur = goal) then Ret (Done true)
      else
        let! st' := for_each (bfs_visit gr rows cols cur) DIRS (q', st.2) in
        Ret (Next st')
  end.

Fixpoint bfs_loop (fuel : nat) (gr : grid) (rows cols : Z) (goal : cell)
    (st : list cell * gset cell) : outcome bool :=
  match fuel with
  | O => OutOfFuel
  | S n =>
      let! fl := bfs_iter gr rows cols goal st in
      match fl with
      | Next st' => bfs_loop n gr rows cols goal st'
      | Done b => Ret b
      end
  end.

(** Loop budget of the model: a cell enters the queue when it enters
    [seen], and [seen] holds [start] and in-bounds cells only.
    [ensure_reachable_terminates] shows that the budget is never used
    up. *)
Definition bfs_budget (rows cols : Z) : nat := Z.to_nat (rows * cols + 2).

Definition ensure_reachable (gr : grid) (start goal : cell) : outcome bool :=
  let rows := py_len gr in
  let! row0 := py_getitem gr 0 in
  let cols := py_len row0 in
  bfs_loop (bfs_budget rows cols) gr rows cols goal ([start], {[start]}).

(** ** The random stream *)

(** [x < y] on probabilities and draws.  Finite floats are rationals and
    are compared as such. *)
Definition Qltb (x y : Q) : bool := negb (Qle_bool y x).

(** The part of Python's [random] module the program uses, over an
    explicit generator state. *)
Class RandomGen (rng : Type) : Type := {
  random_seed : Z → rng → rng;
  random_random : rng → Q * rng;
  random_randrange : Z → rng → Z * rng;
  random_randrange_spec : ∀ n s,
    0 < n → 0 ≤ (random_randrange n s).1 < n
}.

Section Generation.
Context {rng : Type} `{RandomGen rng}.

(** [random.randrange(n)] raises [ValueError] on an empty range. *)
Definition py_randrange (n : Z) (s : rng) : outcome (Z * rng) :=
  if n <=? 0 then Exc ValueError else Ret (random_randrange n s).

(** ** Grid generation ([generate_grid]) *)

(** [grid[r][c] = x] *)
Definition grid_set (gr : grid) (r c : Z) (x : tile) : outcome grid :=
  let! row := py_getitem gr r in
  let! row' := py_setitem row c x in
  py_setitem gr r row'.

(** The body of [for c in range(cols)]. *)
Definition generate_cell (wall_prob mud_prob : Q) (r : Z)
    (st : grid * rng) (c : Z) : outcome (grid * rng) :=
  let (rnum, s1) := random_random st.2 in
  if Qltb rnum wall_prob then
    let! gr' := grid_set st.1 r c TILE_WALL in Ret (gr', s1)
  else
    let (rnum2, s2) := random_random s1 in
    if Qltb rnum2 mud_prob then
      let! gr' := grid_set st.1 r c TILE_MUD in Ret (gr', s2)
    else Ret (st.1, s2).

(** The body of [for r in range(rows)]. *)
Definition generate_row (cols : Z) (wall_prob mud_prob : Q)
    (st : grid * rng) (r : Z) : outcome (grid * rng) :=
  for_each (generate_cell wall_prob mud_prob r) (py_range cols) st.

(** [if seed is not None: random.seed(seed)] *)
Definition seeded (seed : option Z) (s : rng) : rng :=
  match seed with
  | Some n => random_seed n s
  | None => s
  end.

Definition generate_grid (rows cols : Z) (wall_prob mud_prob : Q)
    (seed : option Z) (s : rng) : outcome (grid * rng) :=
  let s0 := seeded seed s in
  let grid0 : grid :=
    (λ _, (λ _, TILE_NORMAL) <$> py_range cols) <$> py_range rows in
  for_each (generate_row cols wall_prob mud_prob) (py_range rows) (grid0, s0).

(** ** Grid generation as the specification words it *)

(** One cell as the specification words it: draw once; below the wall
    probability the cell is a wall; otherwise draw again; below the mud
    probability the cell is mud, else normal. *)
Definition spec_cell (wall_prob mud_prob : Q) (s : rng) : tile * rng :=
  let (u, s1) := random_random s in
  if Qltb u wall_prob then (TILE_WALL, s1)
  else
    let (v, s2) := random_random s1 in
    (if Qltb v mud_prob then TILE_MUD else TILE_NORMAL, s2).

(** [n] consecutive cells drawn one after the other. *)
Fixpoint spec_cells (n : nat) (wall_prob mud_prob : Q) (s : rng)
  : list tile * rng :=
  match n with
  | O => ([], s)
  | S n' =>
      let (t, s1) := spec_cell wall_prob mud_prob s in
      let (l, s2) := spec_cells n' wall_prob mud_prob s1 in
      (t :: l, s2)
  end.

(** [n] consecutive rows of [cols] cells. *)
Fixpoint spec_rows (n cols : nat) (wall_prob mud_prob : Q) (s : rng)
  : grid * rng :=
  match n with
  | O => ([], s)
  | S n' =>
      let (row, s1) := spec_cells cols wall_prob mud_prob s in
      let (rest, s2) := spec_rows n' cols wall_prob mud_prob s1 in
      (row :: rest, s2)
  end.

(** ** Endpoint placement ([random_empty_cell], [place_entities_on_grid]) *)

Fixpoint random_empty_cell_loop (fuel : nat) (gr : grid) (rows cols : Z)
    (s : rng) : outcome (cell * rng) :=
  match fuel with
  | O => OutOfFuel
  | S n =>
      let! rs := py_randrange rows s in
      let! cs := py_randrange cols rs.2 in
      let! t := grid_at gr rs.1 cs.1 in
      if decide (t ≠ TILE_WALL) then Ret ((rs.1, cs.1), cs.2)
      else random_empty_cell_loop n gr rows cols cs.2
  end.

Definition random_empty_cell (fuel : nat) (gr : grid) (s : rng)
  : outcome (cell * rng) :=
  let rows := py_len gr in
  let! row0 := py_getitem gr 0 in
  let cols := py_len row0 in
  random_empty_cell_loop fuel gr rows cols s.

(** The [while True:] loop of [place_entities_on_grid]; the state is
    [grid], [tries] and the random stream. *)
Fixpoint place_loop (fuel : nat) (rows cols : Z) (wall_prob mud_prob : Q)
    (max_place_tries : Z) (gr : grid) (tries : Z) (s : rng)
  : outcome (grid * cell * cell * rng) :=
  match fuel with
  | O => OutOfFuel
  | S n =>
      let! a := random_empty_cell fuel gr s in
      let! b := random_empty_cell fuel gr a.2 in
      let start := a.1 in
      let goal := b.1 in
      if decide (start = goal) then
        let tries := tries + 1 in
        if max_place_tries <? tries then
          let! gs := generate_grid rows cols wall_prob mud_prob None b.2 in
          place_loop n rows cols wall_prob mud_prob max_place_tries gs.1 0 gs.2
        else
          place_loop n rows cols wall_prob mud_prob max_place_tries gr tries b.2
      else
        let! ok := ensure_reachable gr start goal in
        if ok then Ret (gr, start, goal, b.2)
        else
          let tries := tries + 1 in
          if max_place_tries <? tries then
            let! gs := generate_grid rows cols wall_prob mud_prob None b.2 in
            place_loop n rows cols wall_prob mud_prob max_place_tries
              gs.1 0 gs.2
          else
            place_loop n rows cols wall_prob mud_prob max_place_tries
              gr tries b.2
  end.

(** The placer has no loop bound of its own (its loops are [while True]),
    so the model takes the number of iterations it may run as [fuel]; the
    call returns when some [fuel] gives [Ret]. *)
Definition place_entities_on_grid (fuel : nat) (rows cols : Z)
    (wall_prob mud_prob : Q) (seed : option Z) (max_place_tries : Z)
    (s : rng) : outcome (grid * cell * cell * rng) :=
  let! gs := generate_grid rows cols wall_prob mud_prob seed s in
  place_loop fuel rows cols wall_prob mud_prob max_place_tries gs.1 0 gs.2.

End Generation.

(** A concrete generator for running the model: the state is the list of
    raw draws still to come (a draw of an exhausted list is [0]);
    [random()] scales a draw into [[0, 1)] by thousandths and
    [randrange(n)] reduces it modulo [n].  Seeding leaves the list as it
    is. *)
Definition list_draw (s : list Z) : Z * list Z :=
  match s with
  | [] => (0, [])
  | x :: s' => (x, s')
  end.

#[export] Program Instance list_rng : RandomGen (list Z) := {|
  random_seed := λ _ s, s;
  random_random := λ s, (Qmake ((list_draw s).1 `mod` 1000) 1000, (list_draw s).2);
  random_randrange := λ n s, ((list_draw s).1 `mod` n, (list_draw s).2)
|}.
Next Obligation. intros n s Hn. simpl. apply Z.mod_pos_bound. exact Hn. Qed.

(** ** Paths and their cost *)

(** The dimensions [astar] and [ensure_reachable] read off a grid. *)
Definition grid_rows (gr : grid) : Z := py_len gr.
Definition grid_cols (gr : grid) : Z :=
  match gr with
  | [] => 0
  | row0 :: _ => py_len row0
  end.

(** All rows have the length of the first. *)
Definition rectangular (gr : grid) : Prop :=
  Forall (λ row, py_len row = grid_cols gr) gr.

Definition in_bounds (rows cols : Z) (c : cell) : Prop :=
  0 ≤ c.1 < rows ∧ 0 ≤ c.2 < cols.

(** The cell holds a tile and the tile is not a wall. *)
Definition open_tile (gr : grid) (c : cell) : Prop :=
  ∃ t, grid_at gr c.1 c.2 = Ret t ∧ t ≠ TILE_WALL.

(** The cell is a cell of the grid and holds a wall tile. *)
Definition wall_tile (gr : grid) (c : cell) : Prop :=
  0 ≤ c.1 < py_len gr ∧ 0 ≤ c.2 ∧ grid_at gr c.1 c.2 = Ret TILE_WALL.

(** The cost of entering a cell: [COSTS.get(grid[r][c], 1)]. *)
Definition cell_cost (gr : grid) (c : cell) : Z :=
  match grid_at gr c.1 c.2 with
  | Ret t => dict_get COSTS t 1
  | _ => 1
  end.

(** Two cells differ by one step in exactly one coordinate. *)
Definition adjacent (u v : cell) : Prop :=
  (Z.abs (v.1 - u.1) = 1 ∧ v.2 = u.2) ∨ (v.1 = u.1 ∧ Z.abs (v.2 - u.2) = 1).

(** [v] is one of the four cells the searches look at from [u]. *)
Definition neighbour (u v : cell) : Prop :=
  ∃ d, d ∈ DIRS ∧ v = (u.1 + d.1, u.2 + d.2).

(** A move the searches may make: to a neighbour that is in bounds and
    not a wall. *)
Definition edge (gr : grid) (rows cols : Z) (u v : cell) : Prop :=
  neighbour u v ∧ in_bounds rows cols v ∧ open_tile gr v.

(** Every pair of consecutive elements is related. *)
Fixpoint linked {A} (R : A → A → Prop) (l : list A) : Prop :=
  match l with
  | x :: l' =>
      match l' with
      | y :: _ => R x y ∧ linked R l'
      | [] => True
      end
  | [] => True
  end.

(** Sum of the costs of the cells of a list. *)
Definition cost_sum (gr : grid) (l : list cell) : Z :=
  foldr (λ c acc, cell_cost gr c + acc) 0 l.

(** Total traversal cost of a path: every entered cell, the first cell
    excluded. *)
Definition path_cost (gr : grid) (p : list cell) : Z := cost_sum gr (tail p).

(** A valid path of the grid from [start] to [goal]: it starts at [start],
    ends at [goal], consecutive cells are adjacent, and every cell is in
    bounds and not a wall. *)
Definition valid_path (gr : grid) (start goal : cell) (p : list cell) : Prop :=
  head p = Some start ∧ last p = Some goal ∧ linked adjacent p
  ∧ Forall (λ c, in_bounds (grid_rows gr) (grid_cols gr) c ∧ open_tile gr c) p.

(** Cells listed from [start] along moves of the search, with the cost
    of the moves. *)
Inductive walk (gr : grid) (rows cols : Z) (start : cell)
  : list cell → cell → Z → Prop :=
| walk_start : walk gr rows cols start [start] start 0
| walk_snoc l u v k :
    walk gr rows cols start l u k →
    edge gr rows cols u v →
    walk gr rows cols start (l ++ [v]) v (k + cell_cost gr v).

(** ** Invariant of the A* loop *)

Section Invariant.
Variables (gr : grid) (rows cols : Z) (start goal : cell).

(** [exempt u v] holds for the moves out of the cell being expanded that
    the [for] loop has not looked at yet. *)
Record Inv (exempt : cell → cell → Prop) (st : search) : Prop := {
  inv_start : st_g st !! start = Some 0;
  inv_real : ∀ n x, st_g st !! n = Some x →
    ∃ l k, walk gr rows cols start l n k ∧ k ≤ x;
  inv_heap : ∀ e, e ∈ st_open_heap st →
    ∃ x, st_g st !! ent_cell e = Some x ∧ x ≤ ent_g e
         ∧ ent_f e = ent_g e + manhattan (ent_cell e) goal;
  inv_open : ∀ n x, st_g st !! n = Some x → n ∉ st_closed_set st →
    (x + manhattan n goal, x, n) ∈ st_open_heap st;
  inv_closed_g : ∀ u, u ∈ st_closed_set st → is_Some (st_g st !! u);
  inv_closed_opt : ∀ u x l k, u ∈ st_closed_set st → st_g st !! u = Some x →
    walk gr rows cols start l u k → x ≤ k;
  inv_closed_nbr : ∀ u v x, u ∈ st_closed_set st → edge gr rows cols u v →
    st_g st !! u = Some x →
    exempt u v ∨ ∃ y, st_g st !! v = Some y ∧ y ≤ x + cell_cost gr v;
  inv_goal : goal ∉ st_closed_set st;
  inv_parent : ∀ n p, st_parent st !! n = Some p →
    n ≠ start ∧ edge gr rows cols p n
    ∧ ∃ x y, st_g st !! p = Some x ∧ st_g st !! n = Some y
             ∧ x + cell_cost gr n ≤ y;
  inv_parent_dom : ∀ n x, st_g st !! n = Some x → n ≠ start →
    is_Some (st_parent st !! n);
  inv_bound : ∀ n x, st_g st !! n = Some x →
    x ≤ 3 * Z.of_nat (size (st_closed_set st));
  inv_dom : ∀ n x, st_g st !! n = Some x →
    n = start ∨ in_bounds rows cols n
}.

(** No move is exempt at the head of the loop. *)
Definition no_exempt (u v : cell) : Prop := False.

(** While [current] is expanded, the moves along the directions still to
    come are exempt. *)
Definition pending (current : cell) (ds : list (Z * Z)) (u v : cell) : Prop :=
  u = current ∧ ∃ d, d ∈ ds ∧ v = (current.1 + d.1, current.2 + d.2).

(** States the loop of [astar] goes through. *)
Inductive reachable (budget : nat) (record_steps : bool) : search → Prop :=
| reachable_init : reachable budget record_steps (astar_init start goal)
| reachable_next st st' :
    reachable budget record_steps st →
    astar_iter budget gr rows cols start goal record_steps st = Ret (Next st') →
    reachable budget record_steps st'.

End Invariant.

(** * Properties *)

(** ** Outcomes and Python sequences *)

Lemma obind_Ret {A B} (m : outcome A) (k : A → outcome B) (b : B) :
  obind m k = Ret b → ∃ a, m = Ret a ∧ k a = Ret b.
Proof. destruct m; simpl; intros; eauto; discriminate. Qed.

Lemma py_getitem_nonneg {A} (l : list A) (i : Z) :
  0 ≤ i → py_getitem l i =
          match l !! Z.to_nat i with Some x => Ret x | None => Exc IndexError end.
Proof.
  intros Hi. unfold py_getitem.
  destruct (Z.ltb_spec i 0); [lia|].
  destruct (Z.ltb_spec i 0); [lia|]. reflexivity.
Qed.

Lemma py_getitem_in_range {A} (l : list A) (i : Z) :
  0 ≤ i < py_len l → ∃ x, py_getitem l i = Ret x ∧ l !! Z.to_nat i = Some x.
Proof.
  intros [Hi Hlen]. rewrite py_getitem_nonneg by done.
  destruct (l !! Z.to_nat i) as [x|] eqn:E; [eauto|].
  apply lookup_ge_None in E. unfold py_len in Hlen. lia.
Qed.

Lemma py_setitem_in_range {A} (l : list A) (i : Z) (x : A) :
  0 ≤ i < py_len l → py_setitem l i x = Ret (<[Z.to_nat i := x]> l).
Proof.
  intros [Hi Hlen]. unfold py_setitem, py_len in *.
  destruct (Z.ltb_spec i 0); [lia|].
  destruct (Z.ltb_spec i 0); [lia|].
  destruct (Nat.ltb_spec (Z.to_nat i) (length l)); [done|lia].
Qed.

(** ** Costs and the heuristic *)

Lemma COSTS_get_cases (t : tile) :
  dict_get COSTS t 1 = 1 ∨ dict_get COSTS t 1 = 3.
Proof.
  unfold dict_get, COSTS.
  destruct (decide (TILE_NORMAL = t)) as [<-|Hn].
  { rewrite lookup_insert_eq. by left. }
  rewrite lookup_insert_ne by done.
  destruct (decide (TILE_MUD = t)) as [<-|Hm].
  { rewrite lookup_insert_eq. by right. }
  rewrite lookup_insert_ne by done. rewrite lookup_empty. by left.
Qed.

Lemma COSTS_normal : dict_get COSTS TILE_NORMAL 1 = 1.
Proof. reflexivity. Qed.

Lemma COSTS_mud : dict_get COSTS TILE_MUD 1 = 3.
Proof. reflexivity. Qed.

Lemma cell_cost_range (gr : grid) (c : cell) : 1 ≤ cell_cost gr c ≤ 3.
Proof.
  unfold cell_cost. destruct (grid_at gr c.1 c.2); try lia.
  destruct (COSTS_get_cases a) as [-> | ->]; lia.
Qed.

Lemma DIRS_cases (d : Z * Z) :
  d ∈ DIRS ↔ d = (1, 0) ∨ d = (-1, 0) ∨ d = (0, 1) ∨ d = (0, -1).
Proof.
  unfold DIRS. rewrite !elem_of_cons, elem_of_nil. tauto.
Qed.

Lemma neighbour_adjacent (u v : cell) : neighbour u v ↔ adjacent u v.
Proof.
  destruct u as [ur uc], v as [vr vc]. unfold neighbour, adjacent. simpl.
  split.
  - intros (d & Hd & Hv). apply DIRS_cases in Hd.
    destruct Hd as [-> | [-> | [-> | ->]]]; simpl in Hv;
      injection Hv as -> ->; lia.
  - intros [[H1 H2] | [H1 H2]].
    + destruct (Z.abs_spec (vr - ur)) as [[_ E] | [_ E]].
      * exists (1, 0). rewrite DIRS_cases. split; [auto|]. simpl. f_equal; lia.
      * exists (-1, 0). rewrite DIRS_cases. split; [auto|]. simpl. f_equal; lia.
    + destruct (Z.abs_spec (vc - uc)) as [[_ E] | [_ E]].
      * exists (0, 1). rewrite DIRS_cases. split; [auto 6|]. simpl. f_equal; lia.
      * exists (0, -1). rewrite DIRS_cases. split; [auto 6|]. simpl. f_equal; lia.
Qed.

(** The heuristic is consistent: a move lowers it by at most the cost of
    the move. *)
Lemma manhattan_consistent (gr : grid) (u v goal : cell) :
  neighbour u v → manhattan u goal ≤ cell_cost gr v + manhattan v goal.
Proof.
  intros Hn. apply neighbour_adjacent in Hn.
  pose proof (cell_cost_range gr v).
  destruct u as [ur uc], v as [vr vc], goal as [gr_ gc].
  unfold adjacent, manhattan in *. simpl in *. lia.
Qed.

Lemma manhattan_nonneg (a b : cell) : 0 ≤ manhattan a b.
Proof. unfold manhattan. lia. Qed.

(** ** The heap *)

Lemma entry_ltb_spec (a b : entry) :
  entry_ltb a b = true ↔
  ent_f a < ent_f b
  ∨ (ent_f a = ent_f b
     ∧ (ent_g a < ent_g b
        ∨ (ent_g a = ent_g b
           ∧ ((ent_cell a).1 < (ent_cell b).1
              ∨ ((ent_cell a).1 = (ent_cell b).1
                 ∧ (ent_cell a).2 < (ent_cell b).2))))).
Proof.
  unfold entry_ltb, cell_ltb.
  repeat (rewrite orb_true_iff || rewrite andb_true_iff).
  rewrite !Z.ltb_lt, !Z.eqb_eq. tauto.
Qed.

(** [a] does not come after [b] in the heap order. *)
Definition entry_le (a b : entry) : Prop := entry_ltb b a = false.

Lemma entry_le_spec (a b : entry) :
  entry_le a b ↔
  ent_f a < ent_f b
  ∨ (ent_f a = ent_f b
     ∧ (ent_g a < ent_g b
        ∨ (ent_g a = ent_g b
           ∧ ((ent_cell a).1 < (ent_cell b).1
              ∨ ((ent_cell a).1 = (ent_cell b).1
                 ∧ (ent_cell a).2 ≤ (ent_cell b).2))))).
Proof.
  unfold entry_le. rewrite <- not_true_iff_false, entry_ltb_spec. lia.
Qed.

Lemma entry_le_refl (a : entry) : entry_le a a.
Proof. apply entry_le_spec. lia. Qed.

Lemma entry_le_trans (a b c : entry) :
  entry_le a b → entry_le b c → entry_le a c.
Proof. rewrite !entry_le_spec. lia. Qed.

Lemma entry_le_total (a b : entry) : entry_le a b ∨ entry_le b a.
Proof. rewrite !entry_le_spec. lia. Qed.

Lemma heap_least_spec (e : entry) (h : list entry) :
  heap_least e h ∈ e :: h ∧ ∀ x, x ∈ e :: h → entry_le (heap_least e h) x.
Proof.
  revert e. induction h as [|y h IH]; intros e; simpl.
  - split; [by left|]. intros x Hx. apply list_elem_of_singleton in Hx as ->.
    apply entry_le_refl.
  - destruct (IH (if entry_ltb y e then y else e)) as [Hin Hle].
    split.
    + apply elem_of_cons in Hin as [Hin|Hin].
      * rewrite Hin. destruct (entry_ltb y e); [right; left|left].
      * by do 2 right.
    + intros x Hx.
      assert (Hm : entry_le (if entry_ltb y e then y else e) e
                   ∧ entry_le (if entry_ltb y e then y else e) y).
      { destruct (entry_ltb y e) eqn:E.
        - split; [|apply entry_le_refl].
          apply entry_le_spec. apply entry_ltb_spec in E. lia.
        - split; [apply entry_le_refl|]. exact E. }
      destruct Hm as [Hme Hmy].
      assert (Hl := Hle _ (list_elem_of_here _ _)).
      apply elem_of_cons in Hx as [->|Hx].
      { eapply entry_le_trans; eauto. }
      apply elem_of_cons in Hx as [->|Hx].
      { eapply entry_le_trans; eauto. }
      apply Hle. by right.
Qed.

Lemma remove_first_subset (e x : entry) (h : list entry) :
  x ∈ remove_first e h → x ∈ h.
Proof.
  induction h as [|y h IH]; simpl; [done|].
  destruct (decide (y = e)).
  - intros. by right.
  - rewrite !elem_of_cons. tauto.
Qed.

Lemma remove_first_other (e x : entry) (h : list entry) :
  x ∈ h → x ≠ e → x ∈ remove_first e h.
Proof.
  induction h as [|y h IH]; simpl; [done|].
  intros Hx Hne. destruct (decide (y = e)) as [->|].
  - apply elem_of_cons in Hx as [->|]; done.
  - apply elem_of_cons in Hx as [->|]; [by left|right; auto].
Qed.

Lemma remove_first_length (e : entry) (h : list entry) :
  e ∈ h → S (length (remove_first e h)) = length h.
Proof.
  induction h as [|y h IH]; simpl.
  - intros H. by apply elem_of_nil in H.
  - intros H. destruct (decide (y = e)) as [->|]; [done|].
    apply elem_of_cons in H as [->|H]; [done|]. simpl. by rewrite IH.
Qed.

Lemma remove_first_perm (e : entry) (h : list entry) :
  e ∈ h → h ≡ₚ e :: remove_first e h.
Proof.
  induction h as [|y h IH]; simpl.
  - intros H. by apply elem_of_nil in H.
  - intros H. destruct (decide (y = e)) as [->|]; [done|].
    apply elem_of_cons in H as [->|H]; [done|].
    rewrite (IH H) at 1. apply Permutation_swap.
Qed.

(** What [heappop] returns: a least entry of the heap, and the heap
    without one copy of it. *)
Lemma heappop_spec (h h' : list entry) (e : entry) :
  heappop h = Some (e, h') →
  e ∈ h ∧ (∀ x, x ∈ h → entry_le e x) ∧ h' = remove_first e h.
Proof.
  destruct h as [|y h]; simpl; [done|].
  intros [= <- <-]. destruct (heap_least_spec y h) as [Hin Hle].
  split; [done|]. split; [done|]. reflexivity.
Qed.

Lemma heappop_None (h : list entry) : heappop h = None → h = [].
Proof. by destruct h. Qed.

(** ** Walks *)

Section SearchProofs.
Variables (gr : grid) (rows cols : Z) (start goal : cell).

Local Abbreviation walk := (walk gr rows cols start).
Local Abbreviation edge := (edge gr rows cols).
Local Abbreviation Inv := (Inv gr rows cols start goal).

Lemma walk_cost_nonneg l c k : walk l c k → 0 ≤ k.
Proof.
  induction 1 as [|l u v k _ IH _]; [lia|].
  pose proof (cell_cost_range gr v). lia.
Qed.

Lemma edge_neq u v : edge u v → u ≠ v.
Proof.
  intros [Hn _] ->. apply neighbour_adjacent in Hn.
  unfold adjacent in Hn. lia.
Qed.

(** ** One relaxation *)

(** The state after [g[neighbor]], [parent[neighbor]], the heap and the
    open set have been updated. *)
Definition improved (current n : cell) (tg : Z) (st : search) : search :=
  {| st_g := <[n := tg]> (st_g st);
     st_parent := <[n := current]> (st_parent st);
     st_open_heap :=
       heappush (st_open_heap st) (tg + manhattan n goal, tg, n);
     st_open_set := st_open_set st ∪ {[n]};
     st_closed_set := st_closed_set st;
     st_steps := st_steps st |}.

Lemma in_bounds_test (r c : Z) :
  (0 <=? r) && (r <? rows) && (0 <=? c) && (c <? cols) = true
  ↔ in_bounds rows cols (r, c).
Proof.
  unfold in_bounds. simpl. rewrite !andb_true_iff, !Z.leb_le, !Z.ltb_lt. lia.
Qed.

Lemma relax_Ret current st d st' :
  relax gr rows cols goal current st d = Ret st' →
  let n := (current.1 + d.1, current.2 + d.2) in
  (¬ (in_bounds rows cols n ∧ open_tile gr n) ∧ st' = st)
  ∨ (in_bounds rows cols n ∧ open_tile gr n
     ∧ ∃ gc, st_g st !! current = Some gc
       ∧ ((improves (gc + cell_cost gr n) (st_g st !! n) = false ∧ st' = st)
          ∨ (improves (gc + cell_cost gr n) (st_g st !! n) = true
             ∧ st' = improved current n (gc + cell_cost gr n) st))).
Proof.
  unfold relax, improved, open_tile, cell_cost. simpl.
  generalize (current.1 + d.1) (current.2 + d.2). intros nr nc Hr.
  destruct ((0 <=? nr) && (nr <? rows) && (0 <=? nc) && (nc <? cols))
    eqn:Hb; simpl in Hr.
  2: { left. split; [|congruence].
       intros [Hin _]. apply in_bounds_test in Hin. congruence. }
  apply in_bounds_test in Hb.
  destruct (grid_at gr nr nc) as [t| |] eqn:Ht; simpl in Hr; try done.
  destruct (decide (t = TILE_WALL)) as [->|Hw]; simpl in Hr.
  { left. split; [|congruence].
    intros [_ (t' & Ht' & Hne)]. congruence. }
  right. split; [done|]. split; [by exists t|].
  unfold dict_getitem in Hr.
  destruct (st_g st !! current) as [gc|] eqn:Hgc; simpl in Hr; [|done].
  exists gc. split; [done|].
  destruct (improves _ _) eqn:Hi.
  - right. split; [done|]. by inversion Hr.
  - left. split; [done|]. congruence.
Qed.

(** What holds while [current] is expanded, with the directions [ds] still
    to come. *)
Definition Mid (current : cell) (ds : list (Z * Z)) (st : search) : Prop :=
  Inv (pending current ds) st
  ∧ current ∈ st_closed_set st
  ∧ ∃ gc, st_g st !! current = Some gc
          ∧ gc + 3 ≤ 3 * Z.of_nat (size (st_closed_set st)).

Lemma improves_true tg o :
  improves tg o = true ↔ o = None ∨ ∃ y, o = Some y ∧ tg < y.
Proof.
  destruct o as [y|]; simpl.
  - rewrite Z.ltb_lt. split; [eauto|]. intros [|(? & [= ->] & ?)]; done.
  - split; auto.
Qed.

Lemma improves_false tg o :
  improves tg o = false ↔ ∃ y, o = Some y ∧ y ≤ tg.
Proof.
  destruct o as [y|]; simpl.
  - rewrite Z.ltb_ge. split; [eauto|]. by intros (? & [= ->] & ?).
  - split; [done|]. by intros (? & ? & ?).
Qed.

Lemma pending_cons current d ds u v :
  pending current (d :: ds) u v ↔
  (u = current ∧ v = (current.1 + d.1, current.2 + d.2))
  ∨ pending current ds u v.
Proof.
  unfold pending. split.
  - intros (-> & d' & Hd & ->). apply elem_of_cons in Hd as [->|Hd]; [by left|].
    right. eauto.
  - intros [[-> ->] | (-> & d' & Hd & ->)].
    + split; [done|]. exists d. split; [by left|done].
    + split; [done|]. exists d'. split; [by right|done].
Qed.

Lemma Inv_weaken (ex ex' : cell → cell → Prop) st :
  (∀ u v, ex u v → ex' u v) → Inv ex st → Inv ex' st.
Proof.
  intros Hex [ ]. split; try done.
  intros u v x Hu He Hg.
  destruct (inv_closed_nbr0 u v x Hu He Hg) as [Hx|Hy]; [left; auto|by right].
Qed.

Lemma Mid_cons_iff current d ds st :
  Mid current (d :: ds) st ↔
  Inv (λ u v, (u = current ∧ v = (current.1 + d.1, current.2 + d.2))
              ∨ pending current ds u v) st
  ∧ current ∈ st_closed_set st
  ∧ ∃ gc, st_g st !! current = Some gc
          ∧ gc + 3 ≤ 3 * Z.of_nat (size (st_closed_set st)).
Proof.
  unfold Mid. split; intros (HI & ?); (split; [|done]);
    (eapply Inv_weaken; [|exact HI]); intros u v; apply pending_cons.
Qed.

Lemma Inv_shrink (ex ex' : cell → cell → Prop) st :
  Inv ex st →
  (∀ u v x, ex u v → edge u v → st_g st !! u = Some x →
     ex' u v ∨ ∃ y, st_g st !! v = Some y ∧ y ≤ x + cell_cost gr v) →
  Inv ex' st.
Proof.
  intros [ ] Hex. split; try done.
  intros u v x Hu He Hg.
  destruct (inv_closed_nbr0 u v x Hu He Hg) as [Hx|Hy]; [|by right].
  eapply Hex; eauto.
Qed.

Lemma relax_Mid current d ds st st' :
  d ∈ DIRS →
  Mid current (d :: ds) st →
  relax gr rows cols goal current st d = Ret st' →
  Mid current ds st'.
Proof.
  intros Hd HM Hr. apply Mid_cons_iff in HM. revert HM.
  apply relax_Ret in Hr. cbv zeta in Hr.
  assert (Hnb : neighbour current (current.1 + d.1, current.2 + d.2))
    by (by exists d).
  remember (current.1 + d.1, current.2 + d.2) as n eqn:Hn_def.
  intros (HI & Hcl & gc & Hgc & Hb).
  destruct Hr as [[Hnv ->] | (Hin & Hop & gc' & Hgc' & Hr)].
  { (* the neighbour is out of bounds or a wall *)
    split; [|eauto]. eapply Inv_shrink; [exact HI|].
    intros u v x [[-> ->]|Hp] He Hg; [|by left].
    destruct He as (_ & ? & ?). tauto. }
  assert (gc' = gc) as -> by congruence. clear Hgc'.
  destruct Hr as [[Hi ->] | [Hi ->]].
  { (* the neighbour is not improved *)
    split; [|eauto]. eapply Inv_shrink; [exact HI|].
    intros u v x [[-> ->]|Hp] He Hg; [|by left].
    right. apply improves_false in Hi as (y & Hy & Hle).
    exists y. split; [done|]. assert (x = gc) as -> by congruence. exact Hle. }
  (* the neighbour is improved *)
  assert (Hedge : edge current n).
  { split; done. }
  assert (Hcn : current ≠ n) by (by apply edge_neq).
  destruct (inv_real _ _ _ _ _ _ _ HI _ _ Hgc) as (l & k & Hw & Hk).
  pose proof (walk_cost_nonneg _ _ _ Hw) as Hk0.
  pose proof (cell_cost_range gr n) as Hcost.
  assert (Hwn := walk_snoc _ _ _ _ _ _ _ _ Hw Hedge).
  assert (Hncl : n ∉ st_closed_set st).
  { intros Hn. destruct (inv_closed_g _ _ _ _ _ _ _ HI _ Hn) as [y Hy].
    pose proof (inv_closed_opt _ _ _ _ _ _ _ HI _ _ _ _ Hn Hy Hwn).
    rewrite Hy in Hi. simpl in Hi. apply Z.ltb_lt in Hi. lia. }
  assert (Hns : n ≠ start).
  { intros Hn. assert (Hs : st_g st !! n = Some 0) by (rewrite Hn; apply HI).
    rewrite Hs in Hi. simpl in Hi. apply Z.ltb_lt in Hi. lia. }
  apply improves_true in Hi.
  split; [|split; [done|]].
  2: { exists gc. simpl. rewrite lookup_insert_ne by done. done. }
  split; simpl.
  - rewrite lookup_insert_ne by done. apply HI.
  - intros m x. destruct (decide (n = m)) as [<-|Hne].
    + rewrite lookup_insert_eq. intros [= <-]. exists (l ++ [n]), (k + cell_cost gr n).
      split; [done|lia].
    + rewrite lookup_insert_ne by done. apply HI.
  - unfold heappush. intros e He. apply elem_of_cons in He as [->|He].
    + exists (gc + cell_cost gr n). unfold ent_cell, ent_g, ent_f. simpl.
      rewrite lookup_insert_eq. split; [done|]. split; [lia|done].
    + destruct (inv_heap _ _ _ _ _ _ _ HI e He) as (x & Hx & Hle & Hf).
      destruct (decide (n = ent_cell e)) as [E|Hne].
      * rewrite <- E in *. rewrite lookup_insert_eq.
        exists (gc + cell_cost gr n). split; [done|]. split; [|done].
        destruct Hi as [Hi|(y & Hy & Hlt)]; [congruence|].
        assert (y = x) by congruence. lia.
      * rewrite lookup_insert_ne by done. eauto.
  - unfold heappush. intros m x. destruct (decide (n = m)) as [<-|Hne].
    + rewrite lookup_insert_eq. intros [= <-] _. by left.
    + rewrite lookup_insert_ne by done. intros Hm Hmc. right.
      eapply inv_open; eauto.
  - intros u Hu. destruct (decide (n = u)) as [<-|Hne]; [done|].
    rewrite lookup_insert_ne by done. eapply inv_closed_g; eauto.
  - intros u x l' k' Hu. destruct (decide (n = u)) as [<-|Hne]; [done|].
    rewrite lookup_insert_ne by done. eapply inv_closed_opt; eauto.
  - intros u v x Hu He. destruct (decide (n = u)) as [<-|Hne]; [done|].
    rewrite lookup_insert_ne by done. intros Hg.
    destruct (inv_closed_nbr _ _ _ _ _ _ _ HI u v x Hu He Hg) as [Hp|(y & Hy & Hle)].
    + destruct Hp as [[-> ->]|Hp]; [|by left].
      right. rewrite lookup_insert_eq.
      exists (gc + cell_cost gr n). split; [done|].
      assert (x = gc) by congruence. lia.
    + right. destruct (decide (n = v)) as [<-|Hnv].
      * rewrite lookup_insert_eq. exists (gc + cell_cost gr n). split; [done|].
        destruct Hi as [Hi|(y' & Hy' & Hlt)]; [congruence|].
        assert (y' = y) by congruence. lia.
      * rewrite lookup_insert_ne by done. eauto.
  - apply HI.
  - intros m p. destruct (decide (n = m)) as [<-|Hne].
    + rewrite lookup_insert_eq. intros [= <-].
      split; [done|]. split; [done|].
      exists gc, (gc + cell_cost gr n).
      rewrite lookup_insert_ne by done. rewrite lookup_insert_eq.
      split; [done|]. split; [done|lia].
    + rewrite !(lookup_insert_ne _ n m) by done. intros Hp.
      destruct (inv_parent _ _ _ _ _ _ _ HI m p Hp)
        as (Hms & Hpe & x & y & Hx & Hy & Hle).
      split; [done|]. split; [done|].
      destruct (decide (n = p)) as [<-|Hnp].
      * rewrite lookup_insert_eq. exists (gc + cell_cost gr n), y.
        split; [done|]. split; [done|].
        destruct Hi as [Hi|(y' & Hy' & Hlt)]; [congruence|].
        assert (y' = x) by congruence. lia.
      * rewrite lookup_insert_ne by done. eauto 6.
  - intros m x. destruct (decide (n = m)) as [<-|Hne].
    + rewrite !lookup_insert_eq. eauto.
    + rewrite !lookup_insert_ne by done. apply HI.
  - intros m x. destruct (decide (n = m)) as [<-|Hne].
    + rewrite lookup_insert_eq. intros [= <-]. lia.
    + rewrite lookup_insert_ne by done. apply HI.
  - intros m x. destruct (decide (n = m)) as [<-|Hne].
    + intros _. by right.
    + rewrite lookup_insert_ne by done. apply HI.
Qed.

Lemma relax_frame current st d st' :
  relax gr rows cols goal current st d = Ret st' →
  st_closed_set st' = st_closed_set st
  ∧ st_steps st' = st_steps st
  ∧ (length (st_open_heap st') ≤ S (length (st_open_heap st)))%nat.
Proof.
  intros Hr. apply relax_Ret in Hr. cbv zeta in Hr.
  destruct Hr as [[_ ->] | (_ & _ & gc & _ & [[_ ->] | [_ ->]])];
    simpl; auto with lia.
Qed.

Lemma relax_not_OutOfFuel current st d :
  relax gr rows cols goal current st d ≠ OutOfFuel.
Proof.
  unfold relax. destruct (negb _); [done|].
  assert (Hg : ∀ r c, grid_at gr r c ≠ OutOfFuel).
  { intros r c. unfold grid_at, py_getitem.
    repeat (case_match; simpl; try done). }
  destruct (grid_at gr _ _) eqn:E; simpl; [|done|by apply Hg in E].
  destruct (decide _); [done|]. unfold dict_getitem.
  destruct (st_g st !! current); simpl; [|done].
  destruct (improves _ _); done.
Qed.

Lemma for_each_relax_Mid current ds st st' :
  (∀ d, d ∈ ds → d ∈ DIRS) →
  Mid current ds st →
  for_each (relax gr rows cols goal current) ds st = Ret st' →
  Mid current [] st'
  ∧ st_closed_set st' = st_closed_set st
  ∧ st_steps st' = st_steps st
  ∧ (length (st_open_heap st') ≤ length (st_open_heap st) + length ds)%nat.
Proof.
  revert st. induction ds as [|d ds IH]; intros st Hds HM; simpl.
  - intros [= <-]. auto with lia.
  - intros Hf. apply obind_Ret in Hf as (st1 & Hr & Hf).
    pose proof (relax_frame _ _ _ _ Hr) as (Hc & Hs & Hl).
    apply (relax_Mid _ _ ds) in Hr; [|apply Hds; by left|done].
    destruct (IH st1) as (HM' & Hc' & Hs' & Hl'); [|done|done|].
    { intros d' Hd'. apply Hds. by right. }
    split; [done|]. rewrite Hc', Hs'. auto with lia.
Qed.

Lemma for_each_relax_not_OutOfFuel current ds st :
  for_each (relax gr rows cols goal current) ds st ≠ OutOfFuel.
Proof.
  revert st. induction ds as [|d ds IH]; intros st; simpl; [done|].
  destruct (relax gr rows cols goal current st d) eqn:E; simpl; [apply IH|done|].
  by apply relax_not_OutOfFuel in E.
Qed.

(** ** The popped cell has its least cost *)

Lemma frontier st l c k :
  Inv no_exempt st → walk l c k →
  c ∈ st_closed_set st
  ∨ ∃ n x, (n ∉ st_closed_set st) ∧ st_g st !! n = Some x
           ∧ x + manhattan n goal ≤ k + manhattan c goal.
Proof.
  intros HI. induction 1 as [|l u v k Hw IH He].
  - destruct (decide (start ∈ st_closed_set st)); [by left|].
    right. exists start, 0. split; [done|]. split; [apply HI|lia].
  - destruct (decide (v ∈ st_closed_set st)); [by left|]. right.
    pose proof (manhattan_consistent gr u v goal (proj1 He)) as Hh.
    destruct IH as [Hu|(n' & x & Hn & Hx & Hle)].
    + destruct (inv_closed_g _ _ _ _ _ _ _ HI _ Hu) as [x Hx].
      pose proof (inv_closed_opt _ _ _ _ _ _ _ HI _ _ _ _ Hu Hx Hw).
      destruct (inv_closed_nbr _ _ _ _ _ _ _ HI u v x Hu He Hx)
        as [[]|(y & Hy & Hle)].
      exists v, y. split; [done|]. split; [done|lia].
    + exists n', x. split; [done|]. split; [done|lia].
Qed.

Lemma pop_optimal st e h' x l k :
  Inv no_exempt st →
  heappop (st_open_heap st) = Some (e, h') →
  ent_cell e ∉ st_closed_set st →
  st_g st !! ent_cell e = Some x →
  walk l (ent_cell e) k →
  x ≤ k.
Proof.
  intros HI Hp Hnc Hx Hw.
  apply heappop_spec in Hp as (Hin & Hmin & _).
  destruct (inv_heap _ _ _ _ _ _ _ HI e Hin) as (x' & Hx' & Hle & Hf).
  assert (x' = x) as -> by congruence.
  destruct (frontier st l _ k HI Hw) as [|(n & xn & Hn & Hxn & Hb)]; [done|].
  pose proof (inv_open _ _ _ _ _ _ _ HI n xn Hxn Hn) as Hen.
  apply Hmin in Hen. apply entry_le_spec in Hen.
  unfold ent_f at 2 4 in Hen. simpl in Hen. lia.
Qed.

(** ** Path reconstruction *)

Lemma reconstruct_walk ex st fuel cur acc r :
  Inv ex st →
  is_Some (st_g st !! cur) →
  reconstruct fuel (st_parent st) start cur acc = Ret r →
  ∃ p l k x, r = acc ++ p ∧ reverse (p ++ [start]) = l
             ∧ walk l cur k ∧ st_g st !! cur = Some x ∧ k ≤ x.
Proof.
  intros HI. revert cur acc r.
  induction fuel as [|fuel IH]; intros cur acc r [x Hx]; simpl; [done|].
  destruct (decide (cur = start)) as [->|Hne].
  - intros [= <-]. exists [], [start], 0, x.
    rewrite app_nil_r. split; [done|]. split; [done|].
    split; [constructor|]. split; [done|].
    pose proof (inv_start _ _ _ _ _ _ _ HI). assert (x = 0) by congruence. lia.
  - unfold dict_getitem.
    destruct (st_parent st !! cur) as [p0|] eqn:Hp; simpl; [|done].
    destruct (inv_parent _ _ _ _ _ _ _ HI cur p0 Hp)
      as (_ & He & x0 & y & Hx0 & Hy & Hle).
    intros Hrec. apply IH in Hrec as (q & l & k & x0' & -> & Hl & Hw & Hx0' & Hk);
      [|eauto].
    exists (cur :: q), (l ++ [cur]), (k + cell_cost gr cur), x.
    split; [by rewrite <- app_assoc|].
    split; [simpl; rewrite reverse_cons; by rewrite Hl|].
    split; [by eapply walk_snoc|]. split; [done|].
    assert (x0' = x0) by congruence. assert (y = x) by congruence. lia.
Qed.

Lemma reconstruct_total ex st fuel cur acc x :
  Inv ex st →
  st_g st !! cur = Some x →
  x < Z.of_nat fuel →
  ∃ r, reconstruct fuel (st_parent st) start cur acc = Ret r.
Proof.
  intros HI. revert cur acc x.
  induction fuel as [|fuel IH]; intros cur acc x Hx Hf; simpl.
  - destruct (inv_real _ _ _ _ _ _ _ HI _ _ Hx) as (l & k & Hw & Hk).
    apply walk_cost_nonneg in Hw. lia.
  - destruct (decide (cur = start)) as [->|Hne]; [eauto|].
    destruct (inv_parent_dom _ _ _ _ _ _ _ HI cur x Hx Hne) as [p0 Hp].
    unfold dict_getitem. rewrite Hp. simpl.
    destruct (inv_parent _ _ _ _ _ _ _ HI cur p0 Hp)
      as (_ & He & x0 & y & Hx0 & Hy & Hle).
    pose proof (cell_cost_range gr cur).
    assert (y = x) by congruence.
    eapply IH; [exact Hx0|lia].
Qed.

(** ** One iteration of the loop *)

Lemma Inv_init : Inv no_exempt (astar_init start goal).
Proof.
  split; simpl.
  - apply lookup_singleton_eq.
  - intros n x Hn. apply lookup_singleton_Some in Hn as [<- <-].
    exists [start], 0. split; [constructor|lia].
  - unfold heappush. intros e He. apply list_elem_of_singleton in He as ->.
    exists 0. unfold ent_cell, ent_g, ent_f. simpl.
    rewrite lookup_singleton_eq. split; [done|]. split; [lia|done].
  - intros n x Hn _. apply lookup_singleton_Some in Hn as [<- <-].
    unfold heappush. rewrite Z.add_0_l. by left.
  - intros u Hu. by apply not_elem_of_empty in Hu.
  - intros u x l k Hu. by apply not_elem_of_empty in Hu.
  - intros u v x Hu. by apply not_elem_of_empty in Hu.
  - apply not_elem_of_empty.
  - intros n p Hp. by rewrite lookup_empty in Hp.
  - intros n x Hn Hne. apply lookup_singleton_Some in Hn as [<- <-]. done.
  - intros n x Hn. apply lookup_singleton_Some in Hn as [<- <-]. lia.
  - intros n x Hn. apply lookup_singleton_Some in Hn as [<- <-]. by left.
Qed.

Lemma size_closed_add (closed : gset cell) (c : cell) :
  c ∉ closed → size (closed ∪ {[c]}) = S (size closed).
Proof.
  intros Hc. rewrite size_union by set_solver. rewrite size_singleton. lia.
Qed.

(** Discarding a popped entry whose cell is closed. *)
Lemma discard_Inv st e h' op steps' :
  Inv no_exempt st →
  heappop (st_open_heap st) = Some (e, h') →
  ent_cell e ∈ st_closed_set st →
  Inv no_exempt {| st_g := st_g st; st_parent := st_parent st;
                   st_open_heap := h'; st_open_set := op;
                   st_closed_set := st_closed_set st; st_steps := steps' |}.
Proof.
  intros HI Hp Hc. apply heappop_spec in Hp as (Hin & _ & ->).
  destruct HI. split; simpl; try done.
  - intros x Hx. apply inv_heap0. by eapply remove_first_subset.
  - intros n x Hn Hnc. apply remove_first_other; [by apply inv_open0|].
    intros <-. done.
Qed.

(** Closing a popped cell, before its neighbours are looked at. *)
Lemma close_Mid st e h' op steps' :
  Inv no_exempt st →
  heappop (st_open_heap st) = Some (e, h') →
  ent_cell e ∉ st_closed_set st →
  ent_cell e ≠ goal →
  Mid (ent_cell e) DIRS
      {| st_g := st_g st; st_parent := st_parent st;
         st_open_heap := h'; st_open_set := op;
         st_closed_set := st_closed_set st ∪ {[ent_cell e]};
         st_steps := steps' |}.
Proof.
  intros HI Hp Hc Hg.
  pose proof (λ x l k, pop_optimal st e h' x l k HI Hp Hc) as Hopt.
  apply heappop_spec in Hp as (Hin & _ & ->).
  destruct (inv_heap _ _ _ _ _ _ _ HI e Hin) as (gc & Hgc & _ & _).
  pose proof (size_closed_add _ _ Hc) as Hsz.
  split; [|split; [set_solver|]].
  2: { exists gc. simpl. split; [done|].
       pose proof (inv_bound _ _ _ _ _ _ _ HI _ _ Hgc). lia. }
  destruct HI. split; simpl; try done.
  - intros x Hx. apply inv_heap0. by eapply remove_first_subset.
  - intros n x Hn Hnc. apply remove_first_other.
    + apply inv_open0; [done|]. intros Hx. apply Hnc, elem_of_union. by left.
    + intros <-. apply Hnc, elem_of_union. right. by apply elem_of_singleton.
  - intros u Hu. apply elem_of_union in Hu as [Hu|Hu]; [by apply inv_closed_g0|].
    apply elem_of_singleton in Hu as ->. eauto.
  - intros u x l k Hu Hx Hw. apply elem_of_union in Hu as [Hu|Hu].
    + by eapply inv_closed_opt0.
    + apply elem_of_singleton in Hu as ->. by eapply Hopt.
  - intros u v x Hu He Hx. apply elem_of_union in Hu as [Hu|Hu].
    + right. destruct (inv_closed_nbr0 u v x Hu He Hx) as [[]|?]. done.
    + apply elem_of_singleton in Hu as ->. left.
      split; [done|]. destruct He as [(d & Hd & ->) _]. eauto.
  - intros Hx. apply elem_of_union in Hx as [Hx|Hx]; [done|].
    apply elem_of_singleton in Hx. by symmetry in Hx.
  - intros n x Hn. rewrite Hsz. specialize (inv_bound0 n x Hn). lia.
Qed.

Lemma Mid_done current st : Mid current [] st → Inv no_exempt st.
Proof.
  intros (HI & _). eapply Inv_weaken; [|exact HI].
  intros u v (_ & d & Hd & _). by apply elem_of_nil in Hd.
Qed.

(** A [Next] iteration keeps the invariant, and either drops a heap entry
    or closes a new cell and pushes at most four entries. *)
Lemma astar_iter_Next budget record_steps st st' :
  Inv no_exempt st →
  astar_iter budget gr rows cols start goal record_steps st = Ret (Next st') →
  Inv no_exempt st'
  ∧ ((st_closed_set st' = st_closed_set st
      ∧ S (length (st_open_heap st')) = length (st_open_heap st))
     ∨ (∃ current, (current ∉ st_closed_set st)
          ∧ st_closed_set st' = st_closed_set st ∪ {[current]}
          ∧ (length (st_open_heap st') ≤ length (st_open_heap st) + 3)%nat)).
Proof.
  intros HI. unfold astar_iter.
  destruct (heappop (st_open_heap st)) as [[e h']|] eqn:Hp; [|done].
  pose proof (heappop_spec _ _ _ Hp) as (Hin & _ & Hh').
  pose proof (remove_first_length _ _ Hin) as Hlen. rewrite <- Hh' in Hlen.
  destruct (decide (ent_cell e ∈ st_closed_set st)) as [Hc|Hc].
  - intros [= <-]. split; [by eapply discard_Inv|]. left. simpl. done.
  - destruct (decide (ent_cell e = goal)) as [Hg|Hg].
    { destruct (reconstruct _ _ _ _ _); done. }
    intros Hf. apply obind_Ret in Hf as (st1 & Hf & [= <-]).
    apply for_each_relax_Mid in Hf as (HM & Hcl & _ & Hl); [|done|by apply close_Mid].
    split; [by eapply Mid_done|]. right. exists (ent_cell e).
    split; [done|]. split; [done|]. simpl in Hl. lia.
Qed.

Lemma reachable_Inv budget record_steps st :
  reachable gr rows cols start goal budget record_steps st → Inv no_exempt st.
Proof.
  induction 1 as [|st st' _ IH Hstep]; [apply Inv_init|].
  by apply astar_iter_Next in Hstep as [? _].
Qed.

(** ** Results of the loop *)

(** A returned path is a walk from [start] to [goal] that costs no more
    than any other. *)
Lemma astar_iter_found budget record_steps st r :
  Inv no_exempt st →
  astar_iter budget gr rows cols start goal record_steps st
    = Ret (Done (Some r)) →
  ∃ k, walk (path r) goal k ∧ ∀ l' k', walk l' goal k' → k ≤ k'.
Proof.
  intros HI. unfold astar_iter.
  destruct (heappop (st_open_heap st)) as [[e h']|] eqn:Hp; [|done].
  pose proof (heappop_spec _ _ _ Hp) as (Hin & _ & _).
  destruct (decide (ent_cell e ∈ st_closed_set st)) as [Hc|Hc]; [done|].
  destruct (decide (ent_cell e = goal)) as [Hg|Hg].
  2: { destruct (for_each _ _ _); done. }
  destruct (inv_heap _ _ _ _ _ _ _ HI e Hin) as (x & Hx & _ & _).
  intros Hf. apply obind_Ret in Hf as (p & Hrec & [= <-]). simpl.
  eapply reconstruct_walk in Hrec as (q & l & k & x' & Hq & Hl & Hw & Hx' & Hk);
    [|exact HI|eauto].
  simpl in Hq. subst p. rewrite Hl.
  pose proof (λ l' k', pop_optimal st e h' x l' k' HI Hp Hc Hx) as Ho.
  rewrite Hg in *.
  exists k. split; [done|]. intros l' k' Hw'.
  assert (x' = x) as -> by congruence.
  specialize (Ho _ _ Hw'). lia.
Qed.

(** The not-found result means no walk reaches [goal]. *)
Lemma astar_iter_not_found budget record_steps st l k :
  Inv no_exempt st →
  astar_iter budget gr rows cols start goal record_steps st = Ret (Done None) →
  ¬ walk l goal k.
Proof.
  intros HI. unfold astar_iter.
  destruct (heappop (st_open_heap st)) as [[e h']|] eqn:Hp.
  { destruct (decide _); [done|]. destruct (decide _).
    - destruct (reconstruct _ _ _ _ _); done.
    - destruct (for_each _ _ _); done. }
  intros _ Hw. apply heappop_None in Hp.
  destruct (frontier st l goal k HI Hw) as [Hc|(n & x & Hn & Hx & _)].
  - by apply (inv_goal _ _ _ _ _ _ _ HI).
  - pose proof (inv_open _ _ _ _ _ _ _ HI n x Hx Hn) as He.
    rewrite Hp in He. by apply elem_of_nil in He.
Qed.

Lemma astar_loop_found fuel budget record_steps st r :
  Inv no_exempt st →
  astar_loop fuel budget gr rows cols start goal record_steps st
    = Ret (Some r) →
  ∃ k, walk (path r) goal k ∧ ∀ l' k', walk l' goal k' → k ≤ k'.
Proof.
  revert st. induction fuel as [|fuel IH]; intros st HI; simpl; [done|].
  intros Hl. apply obind_Ret in Hl as ([st'|r'] & Hit & Hl).
  - apply astar_iter_Next in Hit as [HI' _]; [|done]. by apply (IH st').
  - injection Hl as ->. by eapply astar_iter_found.
Qed.

Lemma astar_loop_not_found fuel budget record_steps st l k :
  Inv no_exempt st →
  astar_loop fuel budget gr rows cols start goal record_steps st = Ret None →
  ¬ walk l goal k.
Proof.
  revert st. induction fuel as [|fuel IH]; intros st HI; simpl; [done|].
  intros Hl. apply obind_Ret in Hl as ([st'|r'] & Hit & Hl).
  - apply astar_iter_Next in Hit as [HI' _]; [|done]. by apply (IH st').
  - injection Hl as ->. by eapply astar_iter_not_found.
Qed.

(** ** Termination *)

(** [start] and the cells in bounds. *)
Definition cell_universe : gset cell :=
  {[start]} ∪ list_to_set (cprod (seqZ 0 rows) (seqZ 0 cols)).

(** A bound on the number of cells that can be closed. *)
Definition cells_cap : nat := S (Z.to_nat rows * Z.to_nat cols).

Lemma size_list_to_set_le (l : list cell) :
  (size (list_to_set l : gset cell) ≤ length l)%nat.
Proof.
  induction l as [|x l IH].
  - rewrite list_to_set_nil, size_empty. done.
  - rewrite list_to_set_cons, size_union_alt, size_singleton. simpl.
    assert (Hsub : (size (list_to_set l ∖ {[x]} : gset cell)
                    ≤ size (list_to_set l : gset cell))%nat).
    { apply subseteq_size, subseteq_difference_l. done. }
    lia.
Qed.

Lemma size_cell_universe : (size cell_universe ≤ cells_cap)%nat.
Proof.
  unfold cell_universe, cells_cap.
  rewrite size_union_alt, size_singleton.
  set (L := cprod (seqZ 0 rows) (seqZ 0 cols)).
  assert (Hsub : (size (list_to_set L ∖ {[start]} : gset cell)
                  ≤ size (list_to_set L : gset cell))%nat).
  { apply subseteq_size, subseteq_difference_l. done. }
  pose proof (size_list_to_set_le L) as HL.
  assert (length L = (Z.to_nat rows * Z.to_nat cols)%nat).
  { unfold L. rewrite list_cprod_list_prod, length_prod, !length_seqZ. done. }
  lia.
Qed.

Lemma in_bounds_universe (c : cell) : in_bounds rows cols c → c ∈ cell_universe.
Proof.
  intros [Hr Hc]. unfold cell_universe. apply elem_of_union_r.
  apply elem_of_list_to_set, list_elem_of_cprod.
  rewrite !elem_of_seqZ. lia.
Qed.

Lemma closed_size ex st :
  Inv ex st → (size (st_closed_set st) ≤ cells_cap)%nat.
Proof.
  intros HI. etrans; [|apply size_cell_universe].
  apply subseteq_size. intros u Hu.
  destruct (inv_closed_g _ _ _ _ _ _ _ HI u Hu) as [x Hx].
  destruct (inv_dom _ _ _ _ _ _ _ HI u x Hx) as [->|Hb].
  - unfold cell_universe. set_solver.
  - by apply in_bounds_universe.
Qed.

(** An iteration never exceeds the budget of the path reconstruction. *)
Lemma astar_iter_not_OutOfFuel budget record_steps st :
  Inv no_exempt st →
  (3 * cells_cap < budget)%nat →
  astar_iter budget gr rows cols start goal record_steps st ≠ OutOfFuel.
Proof.
  intros HI Hb. unfold astar_iter.
  destruct (heappop (st_open_heap st)) as [[e h']|] eqn:Hp; [|done].
  pose proof (heappop_spec _ _ _ Hp) as (Hin & _ & _).
  destruct (decide (ent_cell e ∈ st_closed_set st)) as [Hc|Hc]; [done|].
  destruct (decide (ent_cell e = goal)) as [Hg|Hg].
  - destruct (inv_heap _ _ _ _ _ _ _ HI e Hin) as (x & Hx & _ & _).
    pose proof (inv_bound _ _ _ _ _ _ _ HI _ _ Hx) as Hxb.
    pose proof (closed_size _ _ HI) as Hsz.
    destruct (reconstruct_total no_exempt st budget (ent_cell e) [] x HI Hx)
      as [r Hr]; [lia|].
    by rewrite Hr.
  - destruct (for_each _ _ _) eqn:E; simpl; [done|done|].
    by apply for_each_relax_not_OutOfFuel in E.
Qed.

(** The measure that decreases with every iteration. *)
Definition loop_measure (st : search) : nat :=
  4 * (cells_cap - size (st_closed_set st)) + length (st_open_heap st).

Lemma astar_loop_total fuel budget record_steps st :
  Inv no_exempt st →
  (3 * cells_cap < budget)%nat →
  (loop_measure st < fuel)%nat →
  astar_loop fuel budget gr rows cols start goal record_steps st ≠ OutOfFuel.
Proof.
  revert st. induction fuel as [|fuel IH]; intros st HI Hb Hm; [lia|]. simpl.
  destruct (astar_iter _ _ _ _ _ _ _ _) as [[st'|r]| |] eqn:Hit; simpl;
    [|done|done|by apply astar_iter_not_OutOfFuel in Hit].
  apply astar_iter_Next in Hit as [HI' Hstep]; [|done].
  apply IH; [done|done|].
  pose proof (closed_size _ _ HI') as Hsz. unfold loop_measure in *.
  destruct Hstep as [[-> Hl] | (c & Hc & Hcl & Hl)]; [lia|].
  rewrite Hcl in *. rewrite size_closed_add in * by done. lia.
Qed.

Lemma astar_budget_enough :
  0 ≤ rows → 0 ≤ cols →
  (3 * cells_cap < astar_budget rows cols)%nat
  ∧ (loop_measure (astar_init start goal) < astar_budget rows cols)%nat.
Proof.
  intros Hr Hc.
  assert (Hs : size (st_closed_set (astar_init start goal)) = 0%nat)
    by apply size_empty.
  unfold loop_measure, astar_budget, cells_cap. rewrite Hs. simpl. nia.
Qed.

End SearchProofs.

(** ** Walks as lists of cells *)

Lemma linked_snoc {A} (R : A → A → Prop) (l : list A) (v : A) :
  linked R (l ++ [v]) ↔ linked R l ∧ ∀ u, last l = Some u → R u v.
Proof.
  induction l as [|x l IH]; simpl.
  - split; [|done]. intros _. split; [done|]. intros u Hu. done.
  - destruct l as [|y l]; simpl in *.
    + split.
      * intros [HR _]. split; [done|]. by intros u [= <-].
      * intros [_ HR]. split; [|done]. by apply HR.
    + rewrite IH. tauto.
Qed.

Lemma cost_sum_snoc gr (l : list cell) (v : cell) :
  cost_sum gr (l ++ [v]) = cost_sum gr l + cell_cost gr v.
Proof. induction l as [|x l IH]; simpl; lia. Qed.

Lemma path_cost_snoc gr (l : list cell) (v : cell) :
  l ≠ [] → path_cost gr (l ++ [v]) = path_cost gr l + cell_cost gr v.
Proof.
  destruct l as [|x l]; [done|]. intros _. unfold path_cost. simpl.
  apply cost_sum_snoc.
Qed.

Section WalkLists.
Variables (gr : grid) (rows cols : Z) (start : cell).

Local Abbreviation walk := (walk gr rows cols start).
Local Abbreviation edge := (edge gr rows cols).

Lemma walk_nonempty l c k : walk l c k → l ≠ [].
Proof. destruct 1; [done|]. by destruct l. Qed.

Lemma walk_head l c k : walk l c k → head l = Some start.
Proof.
  induction 1 as [|l u v k Hw IH He]; [done|].
  destruct l; [done|]. exact IH.
Qed.

Lemma walk_last l c k : walk l c k → last l = Some c.
Proof. destruct 1; [done|]. apply last_snoc. Qed.

Lemma walk_path_cost l c k : walk l c k → path_cost gr l = k.
Proof.
  induction 1 as [|l u v k Hw IH He]; [done|].
  rewrite path_cost_snoc by (by eapply walk_nonempty). by rewrite IH.
Qed.

Lemma walk_linked l c k : walk l c k → linked edge l.
Proof.
  induction 1 as [|l u v k Hw IH He]; [done|].
  apply linked_snoc. split; [done|]. intros u' Hu'.
  apply walk_last in Hw. by assert (u' = u) as -> by congruence.
Qed.

Lemma walk_tail l c k :
  walk l c k → Forall (λ c, in_bounds rows cols c ∧ open_tile gr c) (tail l).
Proof.
  induction 1 as [|l u v k Hw IH He]; [constructor|].
  destruct l as [|x l]; [by apply walk_nonempty in Hw|]. simpl in *.
  apply Forall_app. split; [done|]. apply Forall_singleton. apply He.
Qed.

Lemma linked_impl {A} (R R' : A → A → Prop) (l : list A) :
  (∀ x y, R x y → R' x y) → linked R l → linked R' l.
Proof.
  intros HR. induction l as [|x l IH]; [done|]. simpl.
  destruct l; [done|]. intros [? ?]. auto.
Qed.

(** A list that starts at [start], moves between adjacent cells and enters
    only open cells in bounds is a walk, and its cost is [path_cost]. *)
Lemma list_walk p c :
  head p = Some start →
  last p = Some c →
  linked adjacent p →
  Forall (λ c, in_bounds rows cols c ∧ open_tile gr c) (tail p) →
  walk p c (path_cost gr p).
Proof.
  revert c. induction p as [|v q IH] using rev_ind; intros c Hh Hl Hlk Ht.
  { done. }
  rewrite last_snoc in Hl. injection Hl as <-.
  destruct q as [|x q].
  { simpl in Hh. injection Hh as ->. constructor. }
  apply linked_snoc in Hlk as [Hlk Hv].
  simpl in Ht. apply Forall_app in Ht as [Ht Hvo].
  rewrite Forall_singleton in Hvo.
  destruct (last (x :: q)) as [u|] eqn:Hu.
  2: { by apply last_None in Hu. }
  rewrite path_cost_snoc by done.
  eapply walk_snoc.
  - apply IH; done.
  - split; [|exact Hvo]. apply neighbour_adjacent. by apply Hv.
Qed.

End WalkLists.

(** ** Rectangular grids raise no exception *)

Lemma grid_at_in_bounds gr r c :
  rectangular gr → in_bounds (grid_rows gr) (grid_cols gr) (r, c) →
  ∃ t, grid_at gr r c = Ret t.
Proof.
  intros Hrect [Hr Hc]. simpl in *. unfold grid_at, grid_rows in *.
  destruct (py_getitem_in_range gr r Hr) as (row & -> & Hrow). simpl.
  assert (Hlen : py_len row = grid_cols gr).
  { unfold rectangular in Hrect. rewrite Forall_forall in Hrect.
    apply Hrect. by eapply list_elem_of_lookup_2. }
  destruct (py_getitem_in_range row c) as (t & -> & _); [lia|]. eauto.
Qed.

Lemma py_getitem_first {A} (gr : list (list A)) :
  py_getitem gr 0 = match gr with
                    | [] => Exc IndexError
                    | row0 :: _ => Ret row0
                    end.
Proof. by destruct gr. Qed.

Section Rectangular.
Variables (gr : grid) (start goal : cell).
Hypothesis Hrect : rectangular gr.

Local Abbreviation rows := (grid_rows gr).
Local Abbreviation cols := (grid_cols gr).

Lemma relax_rect current st d :
  is_Some (st_g st !! current) →
  ∃ st', relax gr rows cols goal current st d = Ret st'
         ∧ is_Some (st_g st' !! current).
Proof.
  intros [gc Hgc]. unfold relax.
  destruct ((0 <=? _) && _ && _ && _) eqn:Hb; simpl; [|eauto].
  apply in_bounds_test in Hb.
  destruct (grid_at_in_bounds gr _ _ Hrect Hb) as [t ->]. simpl.
  destruct (decide (t = TILE_WALL)); [eauto|].
  unfold dict_getitem. rewrite Hgc. simpl.
  destruct (improves _ _); [|eauto].
  eexists. split; [done|]. simpl. apply lookup_insert_is_Some'. eauto.
Qed.

Lemma for_each_relax_rect current ds st :
  is_Some (st_g st !! current) →
  ∃ st', for_each (relax gr rows cols goal current) ds st = Ret st'.
Proof.
  revert st. induction ds as [|d ds IH]; intros st Hg; simpl; [eauto|].
  destruct (relax_rect current st d Hg) as (st1 & -> & Hg1). simpl. auto.
Qed.

Lemma astar_iter_rect budget record_steps st :
  Inv gr rows cols start goal no_exempt st →
  (3 * cells_cap rows cols < budget)%nat →
  ∃ fl, astar_iter budget gr rows cols start goal record_steps st = Ret fl.
Proof.
  intros HI Hb. unfold astar_iter.
  destruct (heappop (st_open_heap st)) as [[e h']|] eqn:Hp; [|eauto].
  pose proof (heappop_spec _ _ _ Hp) as (Hin & _ & _).
  destruct (inv_heap _ _ _ _ _ _ _ HI e Hin) as (x & Hx & _ & _).
  destruct (decide (ent_cell e ∈ st_closed_set st)) as [Hc|Hc]; [eauto|].
  destruct (decide (ent_cell e = goal)) as [Hg|Hg].
  - pose proof (inv_bound _ _ _ _ _ _ _ HI _ _ Hx) as Hxb.
    pose proof (closed_size _ _ _ _ _ _ _ HI) as Hsz.
    destruct (reconstruct_total gr rows cols start goal no_exempt st budget
                (ent_cell e) [] x HI Hx) as [r ->]; [lia|].
    simpl. eauto.
  - edestruct (for_each_relax_rect (ent_cell e) DIRS) as [st' ->];
      [|simpl; eauto].
    simpl. eauto.
Qed.

Lemma astar_loop_rect fuel budget record_steps st :
  Inv gr rows cols start goal no_exempt st →
  (3 * cells_cap rows cols < budget)%nat →
  (loop_measure rows cols st < fuel)%nat →
  ∃ r, astar_loop fuel budget gr rows cols start goal record_steps st = Ret r.
Proof.
  revert st. induction fuel as [|fuel IH]; intros st HI Hb Hm; [lia|]. simpl.
  destruct (astar_iter_rect budget record_steps st HI Hb) as [[st'|r] Hit];
    rewrite Hit; simpl; [|eauto].
  pose proof Hit as Hit'.
  apply astar_iter_Next in Hit' as [HI' Hstep]; [|done].
  apply IH; [done|done|].
  pose proof (closed_size _ _ _ _ _ _ _ HI') as Hsz. unfold loop_measure in *.
  destruct Hstep as [[-> Hl] | (c & Hc & Hcl & Hl)]; [lia|].
  rewrite Hcl in *. rewrite size_closed_add in * by done. lia.
Qed.

End Rectangular.

(** ** The call [astar(grid, start, goal, record_steps)] *)

Lemma astar_unfold gr start goal record_steps :
  gr ≠ [] →
  astar gr start goal record_steps =
  astar_loop (astar_budget (grid_rows gr) (grid_cols gr))
    (astar_budget (grid_rows gr) (grid_cols gr))
    gr (grid_rows gr) (grid_cols gr) start goal record_steps
    (astar_init start goal).
Proof. destruct gr; [done|]. reflexivity. Qed.

Lemma grid_dims_nonneg gr : 0 ≤ grid_rows gr ∧ 0 ≤ grid_cols gr.
Proof. unfold grid_rows, grid_cols, py_len. destruct gr; lia. Qed.

Lemma in_bounds_nonempty gr c :
  in_bounds (grid_rows gr) (grid_cols gr) c → gr ≠ [].
Proof. intros [Hr _] ->. unfold grid_rows, py_len in Hr. simpl in Hr. lia. Qed.

(** On a rectangular grid with at least one row the call returns. *)
Lemma astar_returns gr start goal record_steps :
  rectangular gr → gr ≠ [] →
  ∃ r, astar gr start goal record_steps = Ret r.
Proof.
  intros Hrect Hne. rewrite astar_unfold by done.
  destruct (grid_dims_nonneg gr) as [Hr Hc].
  destruct (astar_budget_enough (grid_rows gr) (grid_cols gr) start goal Hr Hc).
  apply astar_loop_rect; [done|apply Inv_init|done|done].
Qed.

Lemma valid_path_walk gr start goal p :
  valid_path gr start goal p →
  walk gr (grid_rows gr) (grid_cols gr) start p goal (path_cost gr p).
Proof.
  intros (Hh & Hl & Hlk & Hall). apply list_walk; try done.
  destruct p; [done|]. by apply Forall_cons in Hall as [_ ?].
Qed.

Lemma walk_valid_path gr start goal l k :
  in_bounds (grid_rows gr) (grid_cols gr) start → open_tile gr start →
  walk gr (grid_rows gr) (grid_cols gr) start l goal k →
  valid_path gr start goal l.
Proof.
  intros Hb Ho Hw.
  pose proof (walk_head _ _ _ _ _ _ _ Hw) as Hh.
  split; [done|]. split; [by eapply walk_last|].
  split.
  - eapply linked_impl; [|by eapply walk_linked].
    intros x y [Hn _]. by apply neighbour_adjacent.
  - pose proof (walk_tail _ _ _ _ _ _ _ Hw) as Ht.
    destruct l as [|x l]; [done|]. injection Hh as ->.
    by apply Forall_cons.
Qed.

(** The result of a call without its recorded steps. *)
Definition forget_steps (o : outcome (option solve_result))
  : outcome (option (list cell * nat)) :=
  match o with
  | Ret (Some r) => Ret (Some (path r, expanded r))
  | Ret None => Ret None
  | Exc e => Exc e
  | OutOfFuel => OutOfFuel
  end.

(** Two search states that differ at most in the recorded steps. *)
Definition same_search (a b : search) : Prop :=
  st_g a = st_g b ∧ st_parent a = st_parent b
  ∧ st_open_heap a = st_open_heap b ∧ st_open_set a = st_open_set b
  ∧ st_closed_set a = st_closed_set b.

Lemma relax_same gr rows cols goal current a b d :
  same_search a b →
  match relax gr rows cols goal current a d,
        relax gr rows cols goal current b d with
  | Ret a', Ret b' => same_search a' b'
  | Exc e, Exc e' => e = e'
  | OutOfFuel, OutOfFuel => True
  | _, _ => False
  end.
Proof.
  destruct a, b. unfold same_search. simpl.
  intros (-> & -> & -> & -> & ->). unfold relax. simpl.
  destruct (negb _); [done|].
  destruct (grid_at gr _ _); simpl; [|done|done].
  destruct (decide _); [done|].
  destruct (dict_getitem _ _); simpl; [|done|done].
  destruct (improves _ _); done.
Qed.

Lemma for_each_relax_same gr rows cols goal current ds a b :
  same_search a b →
  match for_each (relax gr rows cols goal current) ds a,
        for_each (relax gr rows cols goal current) ds b with
  | Ret a', Ret b' => same_search a' b'
  | Exc e, Exc e' => e = e'
  | OutOfFuel, OutOfFuel => True
  | _, _ => False
  end.
Proof.
  revert a b. induction ds as [|d ds IH]; intros a b Hab; simpl; [done|].
  pose proof (relax_same gr rows cols goal current a b d Hab) as Hr.
  destruct (relax gr rows cols goal current a d),
           (relax gr rows cols goal current b d); simpl; try done.
  by apply IH.
Qed.

Lemma astar_loop_same fuel budget gr rows cols start goal a b :
  same_search a b →
  forget_steps (astar_loop fuel budget gr rows cols start goal true a)
  = forget_steps (astar_loop fuel budget gr rows cols start goal false b).
Proof.
  revert a b. induction fuel as [|fuel IH]; intros a b Hab; [done|].
  simpl. unfold astar_iter.
  destruct Hab as (Hg & Hp & Hh & Ho & Hc). rewrite Hg, Hp, Hh, Ho, Hc.
  destruct (heappop (st_open_heap b)) as [[e h']|]; [|done].
  destruct (decide (ent_cell e ∈ st_closed_set b)); cbv beta iota zeta.
  { cbn [obind]. apply IH. done. }
  match goal with
  | |- context [st_steps a ++ ?x] => generalize (st_steps a ++ x)
  end.
  intros sa.
  destruct (decide (ent_cell e = goal)); cbv beta iota zeta.
  { destruct (reconstruct _ _ _ _ _); done. }
  assert (Hs := λ sb, for_each_relax_same gr rows cols goal (ent_cell e) DIRS
    {| st_g := st_g b; st_parent := st_parent b; st_open_heap := h';
       st_open_set := st_open_set b ∖ {[ent_cell e]};
       st_closed_set := st_closed_set b ∪ {[ent_cell e]};
       st_steps := sa |}
    {| st_g := st_g b; st_parent := st_parent b; st_open_heap := h';
       st_open_set := st_open_set b ∖ {[ent_cell e]};
       st_closed_set := st_closed_set b ∪ {[ent_cell e]};
       st_steps := sb |}).
  specialize (Hs (st_steps b) ltac:(done)).
  destruct (for_each _ _ _), (for_each _ _ _); simpl in *;
    try done; try (by rewrite Hs).
  apply IH. by apply Hs.
Qed.

(** ** Sample worlds *)

(** A 3×3 world: mud at (0,1), a wall at (1,1). *)
Definition world_mud : grid :=
  [ [TILE_NORMAL; TILE_MUD; TILE_NORMAL];
    [TILE_NORMAL; TILE_WALL; TILE_NORMAL];
    [TILE_NORMAL; TILE_NORMAL; TILE_NORMAL] ].

(** One row whose left cell is a wall. *)
Definition world_wall_start : grid := [ [TILE_WALL; TILE_NORMAL] ].

(** One row cut in two by a wall. *)
Definition world_split : grid := [ [TILE_NORMAL; TILE_WALL; TILE_NORMAL] ].

(** A wall row with one gap at (1,2) between the top and bottom rows. *)
Definition world_gap : grid :=
  [ [TILE_NORMAL; TILE_NORMAL; TILE_NORMAL];
    [TILE_WALL; TILE_WALL; TILE_NORMAL];
    [TILE_NORMAL; TILE_NORMAL; TILE_NORMAL] ].

(** The 3×3 world without walls or mud of the specification's scenario. *)
Definition world_plain : grid :=
  [ [TILE_NORMAL; TILE_NORMAL; TILE_NORMAL];
    [TILE_NORMAL; TILE_NORMAL; TILE_NORMAL];
    [TILE_NORMAL; TILE_NORMAL; TILE_NORMAL] ].

Example astar_world_mud :
  forget_steps (astar world_mud (0, 0) (0, 2) false)
  = Ret (Some ([(0, 0); (0, 1); (0, 2)], 4%nat)).
Proof. vm_compute. reflexivity. Qed.

(** The specification's scenario: on the 3×3 world without walls or
    mud, from (0,0) to (2,2), [astar] returns a path of 5 cells (4 steps)
    of total cost 4 and expands at most 9 nodes. *)
Example astar_world_plain :
  ∃ r, astar world_plain (0, 0) (2, 2) false = Ret (Some r)
       ∧ length (path r) = 5%nat ∧ path_cost world_plain (path r) = 4
       ∧ (expanded r ≤ 9)%nat.
Proof.
  eexists. split; [vm_compute; reflexivity|].
  split; [reflexivity|]. split; [reflexivity|]. simpl. lia.
Qed.

(** The specification's scenario: when a wall row with a single gap
    separates [start] from [goal], the returned path goes through the
    gap. *)
Example astar_world_gap :
  ∃ r, astar world_gap (0, 0) (2, 0) false = Ret (Some r)
       ∧ (1, 2) ∈ path r ∧ path_cost world_gap (path r) = 6.
Proof.
  eexists. split; [vm_compute; reflexivity|].
  split; [|reflexivity]. simpl. rewrite !elem_of_cons. auto 10.
Qed.

Example astar_world_split :
  astar world_split (0, 0) (0, 2) true = Ret None.
Proof. vm_compute. reflexivity. Qed.

Lemma world_mud_rectangular : rectangular world_mud.
Proof. unfold rectangular. repeat constructor. Qed.

Lemma world_split_rectangular : rectangular world_split.
Proof. unfold rectangular. repeat constructor. Qed.

Lemma world_wall_start_rectangular : rectangular world_wall_start.
Proof. unfold rectangular. repeat constructor. Qed.

Lemma world_mud_path :
  valid_path world_mud (0, 0) (0, 2) [(0, 0); (0, 1); (0, 2)].
Proof.
  split; [reflexivity|]. split; [reflexivity|]. split.
  - simpl. unfold adjacent. simpl. lia.
  - repeat constructor; simpl; try lia;
      (eexists; split; [reflexivity|discriminate]).
Qed.

(** ** Properties of [astar] *)

Lemma valid_path_start gr start goal p :
  valid_path gr start goal p →
  in_bounds (grid_rows gr) (grid_cols gr) start ∧ open_tile gr start.
Proof.
  intros (Hh & _ & _ & Hall). destruct p as [|x p]; [done|].
  injection Hh as ->. by apply Forall_cons in Hall as [? _].
Qed.

(** On a rectangular grid a valid path makes [astar] return a path. *)
Lemma astar_finds_path gr start goal record_steps p :
  rectangular gr → valid_path gr start goal p →
  ∃ r, astar gr start goal record_steps = Ret (Some r).
Proof.
  intros Hrect Hp. destruct (valid_path_start _ _ _ _ Hp) as [Hsb _].
  pose proof (in_bounds_nonempty _ _ Hsb) as Hne.
  destruct (astar_returns gr start goal record_steps Hrect Hne) as [[r|] Ho];
    [eauto|].
  rewrite astar_unfold in Ho by done. apply valid_path_walk in Hp.
  eapply astar_loop_not_found in Ho; [|apply Inv_init]. by destruct Ho.
Qed.

(** A returned path is a walk of least cost. *)
Lemma astar_found_least gr start goal record_steps r :
  astar gr start goal record_steps = Ret (Some r) →
  ∃ k, walk gr (grid_rows gr) (grid_cols gr) start (path r) goal k
       ∧ ∀ l' k', walk gr (grid_rows gr) (grid_cols gr) start l' goal k' →
                  k ≤ k'.
Proof.
  intros Ha. destruct gr as [|row0 gr]; [done|].
  rewrite astar_unfold in Ha by done.
  by apply astar_loop_found in Ha; [|apply Inv_init].
Qed.

(** C1: on a rectangular grid, whenever a valid 4-directional non-wall
    path from [start] to [goal] exists, [astar] returns a path, the path
    is such a valid path, and its total traversal cost (the costs of the
    entered tiles, [start] excluded, normal 1 and mud 3) is no larger than
    the cost of any valid path from [start] to [goal]. *)
Theorem astar_optimal gr start goal record_steps :
  rectangular gr →
  (∃ p, valid_path gr start goal p) →
  ∃ r, astar gr start goal record_steps = Ret (Some r)
       ∧ valid_path gr start goal (path r)
       ∧ ∀ p, valid_path gr start goal p →
              path_cost gr (path r) ≤ path_cost gr p.
Proof.
  intros Hrect [p0 Hp0].
  destruct (valid_path_start _ _ _ _ Hp0) as [Hsb Hso].
  destruct (astar_finds_path gr start goal record_steps p0 Hrect Hp0)
    as [r Hr].
  exists r. split; [done|].
  apply astar_found_least in Hr as (k & Hw & Hmin).
  split; [by eapply walk_valid_path|].
  intros p Hp. apply valid_path_walk in Hp.
  rewrite (walk_path_cost _ _ _ _ _ _ _ Hw). by eapply Hmin.
Qed.

Lemma astar_optimal_witness :
  rectangular world_mud
  ∧ (∃ p, valid_path world_mud (0, 0) (0, 2) p)
  ∧ ∃ r, astar world_mud (0, 0) (0, 2) false = Ret (Some r)
         ∧ valid_path world_mud (0, 0) (0, 2) (path r)
         ∧ ∀ p, valid_path world_mud (0, 0) (0, 2) p →
                path_cost world_mud (path r) ≤ path_cost world_mud p.
Proof.
  split; [exact world_mud_rectangular|].
  split; [exact (ex_intro _ _ world_mud_path)|].
  exact (astar_optimal world_mud (0, 0) (0, 2) false world_mud_rectangular
           (ex_intro _ _ world_mud_path)).
Defined.

Lemma open_not_wall gr c : open_tile gr c → ¬ wall_tile gr c.
Proof. intros (t & Ht & Hne) (_ & _ & Hw). congruence. Qed.

Lemma astar_empty_grid start goal record_steps :
  astar [] start goal record_steps = Exc IndexError.
Proof. reflexivity. Qed.

Lemma astar_found_walk gr start goal record_steps r :
  astar gr start goal record_steps = Ret (Some r) →
  ∃ k, walk gr (grid_rows gr) (grid_cols gr) start (path r) goal k.
Proof.
  intros Ha. destruct gr as [|row0 gr]; [done|].
  rewrite astar_unfold in Ha by done.
  apply astar_loop_found in Ha as (k & Hw & _); [eauto|apply Inv_init].
Qed.

(** C5, as the code has it: a returned path starts at [start], ends at
    [goal], moves between 4-directionally adjacent cells, and every cell
    after the first is in bounds and not a wall; the first cell is [start]
    as given, so the whole path is free of walls when [start] is not on a
    wall. *)
Theorem astar_path_shape gr start goal record_steps r :
  astar gr start goal record_steps = Ret (Some r) →
  head (path r) = Some start
  ∧ last (path r) = Some goal
  ∧ linked adjacent (path r)
  ∧ Forall (λ c, in_bounds (grid_rows gr) (grid_cols gr) c ∧ open_tile gr c)
      (tail (path r))
  ∧ (¬ wall_tile gr start → Forall (λ c, ¬ wall_tile gr c) (path r)).
Proof.
  intros Ha. apply astar_found_walk in Ha as [k Hw].
  pose proof (walk_head _ _ _ _ _ _ _ Hw) as Hh.
  pose proof (walk_tail _ _ _ _ _ _ _ Hw) as Ht.
  split; [done|]. split; [by eapply walk_last|]. split.
  { eapply linked_impl; [|by eapply walk_linked].
    intros x y [Hn _]. by apply neighbour_adjacent. }
  split; [done|]. intros Hs.
  destruct (path r) as [|x l]; [done|]. injection Hh as ->. simpl in Ht.
  apply Forall_cons. split; [done|].
  eapply Forall_impl; [exact Ht|]. intros c [_ Hc]. by apply open_not_wall.
Qed.

Lemma astar_path_shape_witness :
  astar world_mud (0, 0) (0, 2) false
  = Ret (Some {| path := [(0, 0); (0, 1); (0, 2)]; expanded := 4; steps := [] |})
  ∧ Forall (λ c, ¬ wall_tile world_mud c) [(0, 0); (0, 1); (0, 2)].
Proof.
  assert (Ha : astar world_mud (0, 0) (0, 2) false
               = Ret (Some {| path := [(0, 0); (0, 1); (0, 2)];
                              expanded := 4; steps := [] |}))
    by (vm_compute; reflexivity).
  split; [exact Ha|].
  refine (proj2 (proj2 (proj2 (proj2
            (astar_path_shape world_mud (0, 0) (0, 2) false _ Ha)))) _).
  intros (_ & _ & Hw). discriminate Hw.
Defined.

(** C5, as stated, fails when [start] lies on a wall: the returned path
    then contains a wall cell. *)
Lemma astar_path_wall_counterexample :
  ¬ (∀ gr start goal record_steps r,
       astar gr start goal record_steps = Ret (Some r) →
       head (path r) = Some start
       ∧ last (path r) = Some goal
       ∧ linked adjacent (path r)
       ∧ Forall (λ c, ¬ wall_tile gr c) (path r)).
Proof.
  intros H.
  destruct (H world_wall_start (0, 0) (0, 1) false
              {| path := [(0, 0); (0, 1)]; expanded := 2; steps := [] |})
    as (_ & _ & _ & Hall).
  { vm_compute. reflexivity. }
  apply Forall_cons in Hall as [Hw _]. apply Hw.
  unfold wall_tile, py_len. simpl. split; [lia|]. split; [lia|reflexivity].
Qed.

(** C8: on a rectangular grid and from an in-bounds non-wall [start],
    [astar] returns the not-found result, without raising, when no valid
    path to [goal] exists, and returns a path when one exists. *)
Theorem astar_not_found_iff gr start goal record_steps :
  rectangular gr →
  in_bounds (grid_rows gr) (grid_cols gr) start →
  open_tile gr start →
  ((¬ ∃ p, valid_path gr start goal p) →
   astar gr start goal record_steps = Ret None)
  ∧ ((∃ p, valid_path gr start goal p) →
     ∃ r, astar gr start goal record_steps = Ret (Some r)).
Proof.
  intros Hrect Hsb Hso. split.
  - intros Hno. pose proof (in_bounds_nonempty _ _ Hsb) as Hne.
    destruct (astar_returns gr start goal record_steps Hrect Hne) as [[r|] Ho];
      [|done].
    destruct Hno. apply astar_found_walk in Ho as [k Hw].
    exists (path r). by eapply walk_valid_path.
  - intros [p Hp]. by eapply astar_finds_path.
Qed.

Lemma astar_not_found_iff_witness :
  rectangular world_split
  ∧ in_bounds (grid_rows world_split) (grid_cols world_split) (0, 0)
  ∧ open_tile world_split (0, 0)
  ∧ ((¬ ∃ p, valid_path world_split (0, 0) (0, 2) p) →
     astar world_split (0, 0) (0, 2) true = Ret None)
  ∧ ((∃ p, valid_path world_split (0, 0) (0, 2) p) →
     ∃ r, astar world_split (0, 0) (0, 2) true = Ret (Some r)).
Proof.
  assert (Hb : in_bounds (grid_rows world_split) (grid_cols world_split) (0, 0))
    by (unfold in_bounds, grid_rows, grid_cols, py_len; simpl; lia).
  assert (Ho : open_tile world_split (0, 0))
    by (exists TILE_NORMAL; split; [reflexivity|discriminate]).
  split; [exact world_split_rectangular|].
  split; [exact Hb|]. split; [exact Ho|].
  exact (astar_not_found_iff world_split (0, 0) (0, 2) true
           world_split_rectangular Hb Ho).
Defined.

(** C3, as stated, fails: [astar] has no endpoint check, and with [start]
    on a wall it returns a path instead of failing. *)
Lemma astar_invalid_endpoint_counterexample :
  ¬ (∀ gr start goal record_steps,
       ¬ in_bounds (grid_rows gr) (grid_cols gr) start ∨ wall_tile gr start
       ∨ ¬ in_bounds (grid_rows gr) (grid_cols gr) goal ∨ wall_tile gr goal →
       ∃ e, astar gr start goal record_steps = Exc e).
Proof.
  intros H.
  destruct (H world_wall_start (0, 0) (0, 1) false) as [e He].
  { right. left. unfold wall_tile, py_len. simpl.
    split; [lia|]. split; [lia|reflexivity]. }
  vm_compute in He. discriminate.
Qed.

(** C3, as the code has it: [astar] does not validate its endpoints.  On
    a rectangular grid with at least one row it runs the search for every
    [start] and [goal], in bounds or not, on a wall or not, and returns a
    path or the not-found result without raising; when [goal] is out of
    bounds or on a wall and differs from [start], the result is
    not-found. *)
Theorem astar_no_endpoint_check gr start goal record_steps :
  rectangular gr → gr ≠ [] →
  (∃ o, astar gr start goal record_steps = Ret o)
  ∧ (start ≠ goal →
     ¬ in_bounds (grid_rows gr) (grid_cols gr) goal ∨ wall_tile gr goal →
     astar gr start goal record_steps = Ret None).
Proof.
  intros Hrect Hne.
  destruct (astar_returns gr start goal record_steps Hrect Hne) as [o Ho].
  split; [eauto|]. intros Hsg Hbad. rewrite Ho. f_equal.
  destruct o as [r|]; [|done].
  apply astar_found_walk in Ho as [k Hw].
  inversion Hw as [|l u v k' _ (_ & Hb & Hop)]; subst; [done|].
  destruct Hbad as [Hbad|Hbad]; [done|]. by apply open_not_wall in Hop.
Qed.

Lemma astar_no_endpoint_check_witness :
  (∃ o, astar world_wall_start (-1, 1) (0, 0) false = Ret o)
  ∧ astar world_wall_start (-1, 1) (0, 0) false = Ret None.
Proof.
  assert (Hne : world_wall_start ≠ []) by discriminate.
  assert (Hsg : ((-1, 1) : cell) ≠ (0, 0)) by discriminate.
  assert (Hw : ¬ in_bounds (grid_rows world_wall_start)
                   (grid_cols world_wall_start) (0, 0)
               ∨ wall_tile world_wall_start (0, 0))
    by (right; unfold wall_tile, py_len; simpl;
        split; [lia|]; split; [lia|reflexivity]).
  pose proof (astar_no_endpoint_check world_wall_start (-1, 1) (0, 0) false
                world_wall_start_rectangular Hne) as [H1 H2].
  split; [exact H1|exact (H2 Hsg Hw)].
Defined.

Lemma for_each_relax_frame gr rows cols goal current ds st st' :
  for_each (relax gr rows cols goal current) ds st = Ret st' →
  st_closed_set st' = st_closed_set st ∧ st_steps st' = st_steps st.
Proof.
  revert st. induction ds as [|d ds IH]; intros st; simpl.
  - by intros [= <-].
  - intros Hf. apply obind_Ret in Hf as (st1 & Hr & Hf).
    apply relax_frame in Hr as (Hc & Hs & _).
    apply IH in Hf as [Hc' Hs']. split; congruence.
Qed.

Lemma astar_loop_no_steps fuel budget gr rows cols start goal st r :
  astar_loop fuel budget gr rows cols start goal false st = Ret (Some r) →
  steps r = st_steps st.
Proof.
  revert st. induction fuel as [|fuel IH]; intros st; simpl; [done|].
  intros Hl. apply obind_Ret in Hl as (fl & Hit & Hl).
  unfold astar_iter in Hit.
  destruct (heappop (st_open_heap st)) as [[e h']|]; [|by injection Hit as <-].
  destruct (decide (ent_cell e ∈ st_closed_set st)).
  { injection Hit as <-. by apply IH in Hl. }
  destruct (decide (ent_cell e = goal)).
  - apply obind_Ret in Hit as (p & _ & [= <-]). by injection Hl as <-.
  - apply obind_Ret in Hit as (st1 & Hf & [= <-]).
    apply for_each_relax_frame in Hf as [_ Hs]. apply IH in Hl.
    simpl in Hs. congruence.
Qed.

(** C9: with and without step recording, [astar] returns the same path
    and the same expanded-node count (and fails the same way when it
    fails); the flag only decides whether the returned trace is filled:
    without recording it is empty. *)
Theorem astar_record_steps_irrelevant gr start goal :
  forget_steps (astar gr start goal true)
  = forget_steps (astar gr start goal false)
  ∧ ∀ r, astar gr start goal false = Ret (Some r) → steps r = [].
Proof.
  destruct gr as [|row0 gr]; [by split|].
  rewrite !astar_unfold by done. split.
  - apply astar_loop_same. by repeat split.
  - intros r Hr. by apply astar_loop_no_steps in Hr.
Qed.

(** C7: at every pop of every solve call the loop takes an entry that is
    least for the key (f, g) compared lexicographically.  Whenever the
    loop of [astar] reaches its test with a non-empty heap, the iteration
    it runs is the loop body for an entry [e] of the heap, the heap it
    carries on with being the heap without [e]; no heap entry has a
    smaller f than [e], and among the entries with the same f none has a
    smaller g.  Every entry carries f = g + h for the g it was pushed
    with. *)
Theorem astar_pop_order gr rows cols start goal budget record_steps st :
  reachable gr rows cols start goal budget record_steps st →
  st_open_heap st ≠ [] →
  ∃ e h',
    e ∈ st_open_heap st
    ∧ st_open_heap st ≡ₚ e :: h'
    ∧ (∀ e', e' ∈ st_open_heap st →
         ent_f e < ent_f e' ∨ (ent_f e = ent_f e' ∧ ent_g e ≤ ent_g e'))
    ∧ (∀ e', e' ∈ st_open_heap st →
         ent_f e' = ent_g e' + manhattan (ent_cell e') goal)
    ∧ astar_iter budget gr rows cols start goal record_steps st
      = let current := ent_cell e in
        if decide (current ∈ st_closed_set st) then
          Ret (Next {| st_g := st_g st; st_parent := st_parent st;
                       st_open_heap := h';
                       st_open_set := st_open_set st;
                       st_closed_set := st_closed_set st;
                       st_steps := st_steps st |})
        else
          let open' := st_open_set st ∖ {[current]} in
          let closed' := st_closed_set st ∪ {[current]} in
          let steps' :=
            if record_steps then
              st_steps st ++ [ {| snap_current := current;
                                  snap_open := open';
                                  snap_closed := closed';
                                  snap_g := st_g st |} ]
            else st_steps st in
          if decide (current = goal) then
            let! p := reconstruct budget (st_parent st) start current [] in
            Ret (Done (Some {| path := reverse (p ++ [start]);
                               expanded := size closed';
                               steps := steps' |}))
          else
            let! st' :=
              for_each (relax gr rows cols goal current) DIRS
                {| st_g := st_g st; st_parent := st_parent st;
                   st_open_heap := h';
                   st_open_set := open';
                   st_closed_set := closed';
                   st_steps := steps' |} in
            Ret (Next st').
Proof.
  intros Hr Hne. apply reachable_Inv in Hr.
  destruct (heappop (st_open_heap st)) as [[e h']|] eqn:Hp.
  2: { by apply heappop_None in Hp. }
  exists e, h'. unfold astar_iter. rewrite Hp.
  apply heappop_spec in Hp as (Hin & Hmin & ->).
  split; [done|]. split; [by apply remove_first_perm|]. split; [|split].
  - intros e' He'. apply Hmin, entry_le_spec in He'. lia.
  - intros e' He'.
    by destruct (inv_heap _ _ _ _ _ _ _ Hr e' He') as (x & _ & _ & Hf).
  - reflexivity.
Qed.

(** The state of the search on [world_mud] after its first iteration:
    (1,0) and (0,1) are in the heap with the same f = 4 and g = 1 and 3. *)
Definition world_mud_second : search :=
  Eval vm_compute in
    match astar_iter 42 world_mud 3 3 (0, 0) (0, 2) false
            (astar_init (0, 0) (0, 2)) with
    | Ret (Next st) => st
    | _ => astar_init (0, 0) (0, 2)
    end.

Lemma astar_pop_order_witness :
  reachable world_mud 3 3 (0, 0) (0, 2) 42 false world_mud_second
  ∧ (4, 1, (1, 0)) ∈ st_open_heap world_mud_second
  ∧ (4, 3, (0, 1)) ∈ st_open_heap world_mud_second
  ∧ ∃ st',
      astar_iter 42 world_mud 3 3 (0, 0) (0, 2) false world_mud_second
      = Ret (Next st')
      ∧ st_closed_set st' = st_closed_set world_mud_second ∪ {[(1, 0)]}
      ∧ (4, 3, (0, 1)) ∈ st_open_heap st'.
Proof.
  assert (Hr : reachable world_mud 3 3 (0, 0) (0, 2) 42 false world_mud_second).
  { eapply reachable_next; [apply reachable_init|]. vm_compute. reflexivity. }
  assert (Hheap : st_open_heap world_mud_second
                  = [(4, 3, (0, 1)); (4, 1, (1, 0))]) by reflexivity.
  split; [exact Hr|].
  split; [rewrite Hheap; apply elem_of_cons; right; apply elem_of_cons; by left|].
  split; [rewrite Hheap; apply elem_of_cons; by left|].
  destruct (astar_pop_order world_mud 3 3 (0, 0) (0, 2) 42 false
              world_mud_second Hr)
    as (e & h' & Hin & Hperm & Hleast & _ & Hiter).
  { rewrite Hheap. discriminate. }
  assert (He : e = (4, 1, (1, 0))).
  { rewrite Hheap in Hin, Hleast.
    apply elem_of_cons in Hin as [->|Hin].
    - exfalso. destruct (Hleast (4, 1, (1, 0))) as [Hlt|[_ Hle]].
      + apply elem_of_cons. right. apply elem_of_cons. by left.
      + unfold ent_f in Hlt. simpl in Hlt. lia.
      + unfold ent_g in Hle. simpl in Hle. lia.
    - apply elem_of_cons in Hin as [->|Hin]; [reflexivity|].
      by apply elem_of_nil in Hin. }
  subst e.
  assert (Hh : h' = [(4, 3, (0, 1))]).
  { rewrite Hheap in Hperm.
    assert (Hsw : [(4, 3, (0, 1)); (4, 1, (1, 0))]
                  ≡ₚ (4, 1, (1, 0)) :: [((4, 3, (0, 1)) : entry)])
      by apply perm_swap.
    rewrite Hsw in Hperm. apply Permutation_cons_inv in Hperm.
    symmetry in Hperm. exact (proj1 (Permutation_singleton_r _ _) Hperm). }
  subst h'. rewrite Hiter. clear Hiter Hleast Hperm Hin.
  vm_compute. eexists. split; [reflexivity|]. split; [reflexivity|].
  apply elem_of_cons. right. apply elem_of_cons. by left.
Defined.

(** C10: the main loop of [astar] terminates for every grid, [start] and
    [goal]: the call never runs past the loop budget
    4·(rows·cols + 1) + 2.  At every pop, an entry whose cell is already
    closed is discarded with nothing else changed, and a cell enters the
    closed set only when it is not in it yet.  A relaxation pushes onto
    the heap only when it strictly lowers the best-known g of the pushed
    cell (or the cell had none), and the g-values are never negative. *)
Theorem astar_terminates gr start goal record_steps :
  astar gr start goal record_steps ≠ OutOfFuel
  ∧ (∀ rows cols budget st e h',
       reachable gr rows cols start goal budget record_steps st →
       heappop (st_open_heap st) = Some (e, h') →
       (ent_cell e ∈ st_closed_set st →
        astar_iter budget gr rows cols start goal record_steps st
        = Ret (Next {| st_g := st_g st; st_parent := st_parent st;
                       st_open_heap := h'; st_open_set := st_open_set st;
                       st_closed_set := st_closed_set st;
                       st_steps := st_steps st |}))
       ∧ (∀ st', ent_cell e ∉ st_closed_set st →
            astar_iter budget gr rows cols start goal record_steps st
            = Ret (Next st') →
            st_closed_set st' = st_closed_set st ∪ {[ent_cell e]}))
  ∧ (∀ rows cols current st d st',
       relax gr rows cols goal current st d = Ret st' →
       st_open_heap st' = st_open_heap st
       ∨ ∃ n tg,
           st_open_heap st'
           = heappush (st_open_heap st) (tg + manhattan n goal, tg, n)
           ∧ st_g st' !! n = Some tg
           ∧ (st_g st !! n = None ∨ ∃ old, st_g st !! n = Some old ∧ tg < old))
  ∧ (∀ rows cols budget st n x,
       reachable gr rows cols start goal budget record_steps st →
       st_g st !! n = Some x → 0 ≤ x).
Proof.
  split; [|split; [|split]].
  - destruct gr as [|row0 gr0] eqn:Hgr; [done|]. rewrite <- Hgr.
    rewrite astar_unfold by (by rewrite Hgr).
    destruct (grid_dims_nonneg gr) as [Hr Hc].
    destruct (astar_budget_enough (grid_rows gr) (grid_cols gr) start goal Hr Hc).
    apply astar_loop_total; [apply Inv_init|done|done].
  - intros rows cols budget st e h' _ Hp. unfold astar_iter. rewrite Hp. split.
    + intros Hc. by destruct (decide _).
    + intros st' Hc. destruct (decide _); [done|].
      destruct (decide (ent_cell e = goal)).
      { destruct (reconstruct _ _ _ _ _); done. }
      intros Hf. apply obind_Ret in Hf as (st1 & Hf & [= <-]).
      by apply for_each_relax_frame in Hf as [-> _].
  - intros rows cols current st d st' Hr.
    apply relax_Ret in Hr. cbv zeta in Hr.
    destruct Hr as [[_ ->] | (_ & _ & gc & _ & [[_ ->] | [Hi ->]])];
      [by left|by left|].
    right. eexists _, _. split; [reflexivity|]. simpl.
    split; [apply lookup_insert_eq|].
    apply improves_true in Hi. exact Hi.
  - intros rows cols budget st n x Hr Hx. apply reachable_Inv in Hr.
    destruct (inv_real _ _ _ _ _ _ _ Hr n x Hx) as (l & k & Hw & Hk).
    apply walk_cost_nonneg in Hw. lia.
Qed.

(** ** Grid generation *)

Section GenerationProofs.
Context {rng : Type} `{RandomGen rng}.

Variables (wall_prob mud_prob : Q).

Lemma spec_cell_tile s :
  (spec_cell wall_prob mud_prob s).1 ∈ [TILE_NORMAL; TILE_WALL; TILE_MUD].
Proof.
  unfold spec_cell. destruct (random_random s) as [u s1].
  destruct (Qltb u wall_prob); simpl; [set_solver|].
  destruct (random_random s1) as [v s2].
  destruct (Qltb v mud_prob); simpl; set_solver.
Qed.

Lemma spec_cells_length n s :
  length (spec_cells n wall_prob mud_prob s).1 = n.
Proof.
  revert s. induction n as [|n IH]; intros s; simpl; [done|].
  destruct (spec_cell _ _ s) as [t s1].
  specialize (IH s1). destruct (spec_cells n _ _ s1). simpl in *. by rewrite IH.
Qed.

Lemma spec_cells_tiles n s :
  Forall (λ t, t ∈ [TILE_NORMAL; TILE_WALL; TILE_MUD])
    (spec_cells n wall_prob mud_prob s).1.
Proof.
  revert s. induction n as [|n IH]; intros s; simpl; [constructor|].
  pose proof (spec_cell_tile s) as Ht.
  destruct (spec_cell _ _ s) as [t s1].
  specialize (IH s1). destruct (spec_cells n _ _ s1). simpl in *.
  by constructor.
Qed.

Lemma spec_cells_app n m s :
  spec_cells (n + m) wall_prob mud_prob s =
  let (l1, s1) := spec_cells n wall_prob mud_prob s in
  let (l2, s2) := spec_cells m wall_prob mud_prob s1 in
  (l1 ++ l2, s2).
Proof.
  revert s. induction n as [|n IH]; intros s; simpl.
  - by destruct (spec_cells m _ _ s).
  - destruct (spec_cell _ _ s) as [t s1]. rewrite IH.
    destruct (spec_cells n _ _ s1) as [l1 s2].
    by destruct (spec_cells m _ _ s2).
Qed.

(** The rows are the row-major sequence of cells cut into rows. *)
Lemma spec_rows_concat n cols s :
  let (g, s') := spec_rows n cols wall_prob mud_prob s in
  (concat g, s') = spec_cells (n * cols) wall_prob mud_prob s.
Proof.
  revert s. induction n as [|n IH]; intros s; simpl; [done|].
  rewrite spec_cells_app.
  destruct (spec_cells cols _ _ s) as [row s1].
  specialize (IH s1). destruct (spec_rows n cols _ _ s1) as [rest s2].
  simpl. by rewrite <- IH.
Qed.

Lemma spec_rows_shape n cols s :
  length (spec_rows n cols wall_prob mud_prob s).1 = n
  ∧ Forall (λ row, length row = cols
                   ∧ Forall (λ t, t ∈ [TILE_NORMAL; TILE_WALL; TILE_MUD]) row)
      (spec_rows n cols wall_prob mud_prob s).1.
Proof.
  revert s. induction n as [|n IH]; intros s; simpl; [by split|].
  pose proof (spec_cells_length cols s) as Hl.
  pose proof (spec_cells_tiles cols s) as Ht.
  destruct (spec_cells cols _ _ s) as [row s1].
  specialize (IH s1). destruct (spec_rows n cols _ _ s1) as [rest s2].
  simpl in *. destruct IH as [IH1 IH2]. split; [by rewrite IH1|].
  by constructor.
Qed.

(** One cell of the code against one cell of the specification: on a
    cell that still holds the initial normal tile, the body of the inner
    loop writes the tile the specification draws. *)
Lemma generate_cell_spec (gr : grid) (row : list tile) (r c : nat) (s : rng) :
  gr !! r = Some row →
  row !! c = Some TILE_NORMAL →
  generate_cell wall_prob mud_prob (Z.of_nat r) (gr, s) (Z.of_nat c)
  = Ret (<[r := <[c := (spec_cell wall_prob mud_prob s).1]> row]> gr,
         (spec_cell wall_prob mud_prob s).2).
Proof.
  intros Hr Hc.
  pose proof (lookup_lt_Some _ _ _ Hr) as Hrl.
  pose proof (lookup_lt_Some _ _ _ Hc) as Hcl.
  assert (Hset : ∀ x, grid_set gr (Z.of_nat r) (Z.of_nat c) x
                      = Ret (<[r := <[c := x]> row]> gr)).
  { intros x. unfold grid_set.
    rewrite py_getitem_nonneg by lia. rewrite Nat2Z.id, Hr. simpl.
    rewrite py_setitem_in_range by (unfold py_len; lia). simpl.
    rewrite py_setitem_in_range by (unfold py_len; lia).
    by rewrite !Nat2Z.id. }
  unfold generate_cell, spec_cell. simpl.
  destruct (random_random s) as [u s1].
  destruct (Qltb u wall_prob); simpl.
  { by rewrite Hset. }
  destruct (random_random s1) as [v s2].
  destruct (Qltb v mud_prob); simpl.
  { by rewrite Hset. }
  rewrite (list_insert_id row) by done. by rewrite list_insert_id.
Qed.

Lemma seqZ_succ (m : Z) (k : nat) :
  seqZ m (Z.of_nat (S k)) = m :: seqZ (Z.succ m) (Z.of_nat k).
Proof. rewrite seqZ_cons by lia. f_equal. f_equal. lia. Qed.

(** The inner loop fills the rest of row [r]. *)
Lemma generate_row_from (k : nat) (gr : grid) (r : nat) (pre : list tile)
    (s : rng) :
  gr !! r = Some (pre ++ replicate k TILE_NORMAL) →
  for_each (generate_cell wall_prob mud_prob (Z.of_nat r))
    (seqZ (Z.of_nat (length pre)) (Z.of_nat k)) (gr, s)
  = Ret (<[r := pre ++ (spec_cells k wall_prob mud_prob s).1]> gr,
         (spec_cells k wall_prob mud_prob s).2).
Proof.
  revert gr pre s. induction k as [|k IH]; intros gr pre s Hr.
  - simpl in *. by rewrite list_insert_id.
  - rewrite seqZ_succ. simpl for_each.
    erewrite generate_cell_spec; [|exact Hr|by apply list_lookup_middle].
    simpl obind.
    pose proof (lookup_lt_Some _ _ _ Hr) as Hrl.
    replace (Z.succ (Z.of_nat (length pre)))
      with (Z.of_nat (length (pre ++ [(spec_cell wall_prob mud_prob s).1])))
      by (rewrite length_app; simpl; lia).
    rewrite IH.
    2: { rewrite list_lookup_insert_eq by done. f_equal.
         replace (length pre) with (length pre + 0)%nat at 1 by lia.
         rewrite insert_app_r. simpl. by rewrite <- app_assoc. }
    rewrite list_insert_insert_eq. simpl.
    destruct (spec_cell wall_prob mud_prob s) as [t s1]. simpl.
    destruct (spec_cells k wall_prob mud_prob s1) as [l s2]. simpl.
    by rewrite <- app_assoc.
Qed.

(** The outer loop fills the remaining rows. *)
Lemma generate_rows_from (k cols : nat) (done_rows : grid) (s : rng) :
  for_each (generate_row (Z.of_nat cols) wall_prob mud_prob)
    (seqZ (Z.of_nat (length done_rows)) (Z.of_nat k))
    (done_rows ++ replicate k (replicate cols TILE_NORMAL), s)
  = Ret (done_rows ++ (spec_rows k cols wall_prob mud_prob s).1,
         (spec_rows k cols wall_prob mud_prob s).2).
Proof.
  revert done_rows s. induction k as [|k IH]; intros done_rows s.
  - reflexivity.
  - rewrite seqZ_succ. simpl for_each. unfold generate_row at 1.
    unfold py_range.
    rewrite (generate_row_from cols _ (length done_rows) [] s).
    2: { simpl. by apply list_lookup_middle. }
    simpl obind.
    rewrite insert_app_r_alt by lia. rewrite Nat.sub_diag. simpl.
    replace (Z.succ (Z.of_nat (length done_rows)))
      with (Z.of_nat (length (done_rows
                              ++ [(spec_cells cols wall_prob mud_prob s).1])))
      by (rewrite length_app; simpl; lia).
    replace (done_rows ++ (spec_cells cols wall_prob mud_prob s).1
               :: replicate k (replicate cols TILE_NORMAL))
      with ((done_rows ++ [(spec_cells cols wall_prob mud_prob s).1])
               ++ replicate k (replicate cols TILE_NORMAL))
      by (by rewrite <- app_assoc).
    rewrite IH.
    destruct (spec_cells cols wall_prob mud_prob s) as [row s1]. simpl.
    destruct (spec_rows k cols wall_prob mud_prob s1) as [rest s2]. simpl.
    by rewrite <- app_assoc.
Qed.

Lemma fmap_const_replicate {A B} (x : B) (l : list A) :
  (λ _, x) <$> l = replicate (length l) x.
Proof. induction l as [|y l IH]; [done|]. simpl. f_equal. exact IH. Qed.

Lemma seqZ_to_nat (m n : Z) : seqZ m n = seqZ m (Z.of_nat (Z.to_nat n)).
Proof. unfold seqZ. by rewrite Nat2Z.id. Qed.

(** [generate_grid] never raises, whatever its arguments, and returns the
    rows the specification draws. *)
Lemma generate_grid_spec (rows cols : Z) (seed : option Z) (s : rng) :
  generate_grid rows cols wall_prob mud_prob seed s
  = Ret (spec_rows (Z.to_nat rows) (Z.to_nat cols) wall_prob mud_prob
           (seeded seed s)).
Proof.
  unfold generate_grid. unfold py_range.
  rewrite !fmap_const_replicate, !length_seqZ.
  rewrite (seqZ_to_nat 0 rows).
  assert (Hrow : generate_row cols wall_prob mud_prob
                 = generate_row (Z.of_nat (Z.to_nat cols)) wall_prob mud_prob).
  { unfold generate_row, py_range. by rewrite <- seqZ_to_nat. }
  rewrite Hrow.
  pose proof (generate_rows_from (Z.to_nat rows) (Z.to_nat cols) []
                (seeded seed s)) as Hg.
  etrans; [exact Hg|]. simpl. by destruct (spec_rows _ _ _ _ _).
Qed.

End GenerationProofs.

Lemma generate_grid_shape {rng : Type} `{RandomGen rng}
    (rows cols : Z) (wall_prob mud_prob : Q) (seed : option Z) (s : rng) :
  ∃ gr s',
    generate_grid rows cols wall_prob mud_prob seed s = Ret (gr, s')
    ∧ length gr = Z.to_nat rows
    ∧ Forall (λ row, length row = Z.to_nat cols
                     ∧ Forall (λ t, t ∈ [TILE_NORMAL; TILE_WALL; TILE_MUD]) row)
        gr
    ∧ (concat gr, s')
      = spec_cells (Z.to_nat rows * Z.to_nat cols) wall_prob mud_prob
          (seeded seed s).
Proof.
  rewrite generate_grid_spec.
  pose proof (spec_rows_shape wall_prob mud_prob (Z.to_nat rows)
                (Z.to_nat cols) (seeded seed s)) as [Hl Hrows].
  pose proof (spec_rows_concat wall_prob mud_prob (Z.to_nat rows)
                (Z.to_nat cols) (seeded seed s)) as Hc.
  destruct (spec_rows _ _ _ _ _) as [gr s']. simpl in *.
  exists gr, s'. done.
Qed.

(** C6: for positive [rows] and [cols], [generate_grid] returns a grid
    of [rows] rows of [cols] cells, each cell one of normal, wall and mud,
    and the cells in row-major order are the ones drawn one after the
    other from the random stream: a first draw below the wall probability
    gives a wall; otherwise a second draw is taken and below the mud
    probability gives mud, else normal. *)
Theorem generate_grid_cells {rng : Type} `{RandomGen rng}
    (rows cols : Z) (wall_prob mud_prob : Q) (seed : option Z) (s : rng) :
  0 < rows → 0 < cols →
  ∃ gr s',
    generate_grid rows cols wall_prob mud_prob seed s = Ret (gr, s')
    ∧ py_len gr = rows
    ∧ Forall (λ row, py_len row = cols) gr
    ∧ Forall (Forall (λ t, t = TILE_NORMAL ∨ t = TILE_WALL ∨ t = TILE_MUD)) gr
    ∧ (concat gr, s')
      = spec_cells (Z.to_nat rows * Z.to_nat cols) wall_prob mud_prob
          (seeded seed s).
Proof.
  intros Hr Hc.
  destruct (generate_grid_shape rows cols wall_prob mud_prob seed s)
    as (gr & s' & Hg & Hl & Hrows & Hcells).
  exists gr, s'. split; [done|]. unfold py_len.
  split; [lia|]. split; [|split; [|done]].
  - eapply Forall_impl; [exact Hrows|]. intros row [Hlen _]. simpl. lia.
  - eapply Forall_impl; [exact Hrows|]. intros row [_ Ht].
    eapply Forall_impl; [exact Ht|]. intros t Hin. simpl in Hin.
    rewrite !elem_of_cons, elem_of_nil in Hin. tauto.
Qed.

Lemma generate_grid_cells_witness :
  0 < 2 ∧ 0 < 3
  ∧ ∃ gr s',
      generate_grid 2 3 (1 # 5) (3 # 10) None
        [100; 500; 300; 100; 250; 50; 900; 900; 200; 1; 7]
      = Ret (gr, s')
      ∧ py_len gr = 2
      ∧ Forall (λ row, py_len row = 3) gr
      ∧ Forall (Forall (λ t, t = TILE_NORMAL ∨ t = TILE_WALL ∨ t = TILE_MUD)) gr
      ∧ (concat gr, s')
        = spec_cells (Z.to_nat 2 * Z.to_nat 3) (1 # 5) (3 # 10)
            (seeded None [100; 500; 300; 100; 250; 50; 900; 900; 200; 1; 7]).
Proof.
  assert (H2 : 0 < 2) by lia. assert (H3 : 0 < 3) by lia.
  split; [exact H2|]. split; [exact H3|].
  exact (generate_grid_cells 2 3 (1 # 5) (3 # 10) None
           [100; 500; 300; 100; 250; 50; 900; 900; 200; 1; 7] H2 H3).
Defined.

Example generate_grid_sample :
  generate_grid 2 3 (1 # 5) (3 # 10) None
    [100; 500; 300; 100; 250; 50; 900; 900; 200; 1; 7]
  = Ret ([ [TILE_WALL; TILE_NORMAL; TILE_WALL];
           [TILE_MUD; TILE_NORMAL; TILE_MUD] ], [7]).
Proof. vm_compute. reflexivity. Qed.

(** C4, as stated, fails: [generate_grid] checks nothing, and with a wall
    probability of 3/2 it builds a grid instead of failing. *)
Lemma generate_grid_invalid_counterexample :
  ¬ (∀ (rows cols : Z) (wall_prob mud_prob : Q) (seed : option Z)
       (s : list Z),
       rows ≤ 0 ∨ cols ≤ 0
       ∨ ¬ (0 <= wall_prob ∧ wall_prob <= 1)%Q
       ∨ ¬ (0 <= mud_prob ∧ mud_prob <= 1)%Q →
       ∃ e, generate_grid rows cols wall_prob mud_prob seed s = Exc e).
Proof.
  intros Hall.
  destruct (Hall 1 1 (3 # 2)%Q 0%Q None [500]) as [e He].
  { right. right. left. intros [_ Hle]. by vm_compute in Hle. }
  vm_compute in He. discriminate.
Qed.

(** C4, as the code has it: grid generation validates nothing and never
    fails.  For every [rows] and [cols], positive or not, and every wall
    and mud probability, in [0,1] or not, it returns a grid of
    max(rows, 0) rows of max(cols, 0) cells. *)
Theorem generate_grid_no_validation {rng : Type} `{RandomGen rng}
    (rows cols : Z) (wall_prob mud_prob : Q) (seed : option Z) (s : rng) :
  ∃ gr s',
    generate_grid rows cols wall_prob mud_prob seed s = Ret (gr, s')
    ∧ py_len gr = Z.max rows 0
    ∧ Forall (λ row, py_len row = Z.max cols 0) gr.
Proof.
  destruct (generate_grid_shape rows cols wall_prob mud_prob seed s)
    as (gr & s' & Hg & Hl & Hrows & _).
  exists gr, s'. split; [done|]. unfold py_len. split; [lia|].
  eapply Forall_impl; [exact Hrows|]. intros row [Hlen _]. simpl. lia.
Qed.

Example generate_grid_no_rows :
  generate_grid 0 5 (1 # 5) (3 # 10) None [1; 2; 3] = Ret ([], [1; 2; 3]).
Proof. vm_compute. reflexivity. Qed.

(** ** The reachability check *)

Section BfsProofs.
Variables (gr : grid) (rows cols : Z) (start goal : cell).

Local Abbreviation walk := (walk gr rows cols start).

(** Invariant of the breadth-first search: queued cells are seen, and
    seen cells are [start] or in bounds and are reached by a walk. *)
Definition BInv (st : list cell * gset cell) : Prop :=
  (∀ c, c ∈ st.1 → c ∈ st.2)
  ∧ (∀ c, c ∈ st.2 → ∃ l k, walk l c k)
  ∧ st.2 ⊆ cell_universe rows cols start.

(** The measure that decreases with every iteration of the search. *)
Definition bfs_measure (st : list cell * gset cell) : nat :=
  (cells_cap rows cols - size st.2) + length st.1.

Lemma bfs_visit_Ret cur st d st' :
  bfs_visit gr rows cols cur st d = Ret st' →
  let n := (cur.1 + d.1, cur.2 + d.2) in
  st' = st
  ∨ (st' = (st.1 ++ [n], st.2 ∪ {[n]})
     ∧ (n ∉ st.2) ∧ in_bounds rows cols n ∧ open_tile gr n).
Proof.
  unfold bfs_visit, open_tile. simpl.
  generalize (cur.1 + d.1) (cur.2 + d.2). intros nr nc.
  destruct ((0 <=? nr) && (nr <? rows) && (0 <=? nc) && (nc <? cols)) eqn:Hb;
    [|intros [= <-]; by left].
  apply in_bounds_test in Hb.
  destruct (grid_at gr nr nc) as [t| |] eqn:Ht; simpl; [|done|done].
  destruct (decide _) as [[Hw Hs]|]; intros [= <-]; [|by left].
  right. split; [done|]. split; [done|]. split; [done|]. eauto.
Qed.

Lemma bfs_visit_not_OutOfFuel cur st d :
  bfs_visit gr rows cols cur st d ≠ OutOfFuel.
Proof.
  unfold bfs_visit. destruct (_ && _); [|done].
  unfold grid_at, py_getitem.
  repeat (case_match; simpl; try done).
Qed.

Lemma bfs_visit_BInv cur st d st' :
  d ∈ DIRS →
  (∃ l k, walk l cur k) →
  BInv st →
  bfs_visit gr rows cols cur st d = Ret st' →
  BInv st' ∧ (bfs_measure st' ≤ bfs_measure st)%nat.
Proof.
  intros Hd (l & k & Hw) (Hq & Hs & Hu) Hv.
  apply bfs_visit_Ret in Hv. cbv zeta in Hv.
  destruct Hv as [->|(-> & Hn & Hb & Ho)]; [done|].
  assert (HI : BInv (st.1 ++ [(cur.1 + d.1, cur.2 + d.2)],
                     st.2 ∪ {[(cur.1 + d.1, cur.2 + d.2)]})).
  { split; [|split]; simpl.
    - intros c Hc. apply elem_of_union.
      apply elem_of_app in Hc as [Hc|Hc]; [left; by apply Hq|].
      apply list_elem_of_singleton in Hc as ->. right. by apply elem_of_singleton.
    - intros c Hc. apply elem_of_union in Hc as [Hc|Hc]; [auto|].
      apply elem_of_singleton in Hc as ->.
      eexists _, _. eapply walk_snoc; [exact Hw|].
      split; [by exists d|done].
    - apply union_subseteq. split; [done|].
      apply singleton_subseteq_l. by apply in_bounds_universe. }
  split; [done|].
  destruct HI as (_ & _ & Hu').
  apply subseteq_size in Hu'. simpl in Hu'.
  pose proof (size_cell_universe rows cols start) as Hcap.
  unfold bfs_measure. simpl. rewrite length_app. simpl.
  rewrite size_closed_add in * by done. lia.
Qed.

Lemma for_each_bfs_visit_BInv cur ds st st' :
  (∀ d, d ∈ ds → d ∈ DIRS) →
  (∃ l k, walk l cur k) →
  BInv st →
  for_each (bfs_visit gr rows cols cur) ds st = Ret st' →
  BInv st' ∧ (bfs_measure st' ≤ bfs_measure st)%nat.
Proof.
  intros Hds Hcur. revert st.
  induction ds as [|d ds IH]; intros st HI; simpl.
  - intros [= <-]. auto.
  - intros Hf. apply obind_Ret in Hf as (st1 & Hv & Hf).
    apply bfs_visit_BInv in Hv as [HI1 Hm1]; [|apply Hds; by left|done|done].
    apply IH in Hf as [HI2 Hm2]; [|intros; apply Hds; by right|done].
    split; [done|lia].
Qed.

Lemma for_each_bfs_visit_not_OutOfFuel cur ds st :
  for_each (bfs_visit gr rows cols cur) ds st ≠ OutOfFuel.
Proof.
  revert st. induction ds as [|d ds IH]; intros st; simpl; [done|].
  destruct (bfs_visit gr rows cols cur st d) eqn:E; simpl; [apply IH|done|].
  by apply bfs_visit_not_OutOfFuel in E.
Qed.

Lemma bfs_iter_Next st st' :
  BInv st →
  bfs_iter gr rows cols goal st = Ret (Next st') →
  BInv st' ∧ (bfs_measure st' < bfs_measure st)%nat.
Proof.
  intros HI. pose proof HI as (Hq & Hs & Hu). unfold bfs_iter.
  destruct st as [[|cur q] seen]; cbn [fst snd] in *; [done|].
  destruct (decide (cur = goal)); [done|].
  intros Hf. apply obind_Ret in Hf as (st1 & Hf & [= <-]).
  apply for_each_bfs_visit_BInv in Hf as [HI1 Hm]; [| done | |].
  - split; [done|]. unfold bfs_measure in *. simpl in *. lia.
  - apply Hs, Hq. by left.
  - split; [|split]; simpl; [|done|done].
    intros c Hc. apply Hq. by right.
Qed.

Lemma bfs_iter_Done_true st :
  BInv st →
  bfs_iter gr rows cols goal st = Ret (Done true) →
  ∃ l k, walk l goal k.
Proof.
  intros (Hq & Hs & _). unfold bfs_iter.
  destruct st as [[|cur q] seen]; cbn [fst snd] in *; [done|].
  destruct (decide (cur = goal)) as [<-|].
  - intros _. apply Hs, Hq. by left.
  - destruct (for_each _ _ _); done.
Qed.

(** A positive answer of the search comes with a walk to [goal]. *)
Lemma bfs_loop_sound fuel st :
  BInv st →
  bfs_loop fuel gr rows cols goal st = Ret true →
  ∃ l k, walk l goal k.
Proof.
  revert st. induction fuel as [|fuel IH]; intros st HI; simpl; [done|].
  intros Hl. apply obind_Ret in Hl as ([st'|b] & Hit & Hl).
  - apply bfs_iter_Next in Hit as [HI' _]; [|done]. by apply (IH st').
  - injection Hl as ->. by apply bfs_iter_Done_true in Hit.
Qed.

(** The search ends within its budget. *)
Lemma bfs_loop_total fuel st :
  BInv st →
  (bfs_measure st < fuel)%nat →
  bfs_loop fuel gr rows cols goal st ≠ OutOfFuel.
Proof.
  revert st. induction fuel as [|fuel IH]; intros st HI Hm; [lia|]. simpl.
  destruct (bfs_iter gr rows cols goal st) as [[st'|b]| |] eqn:Hit; simpl;
    [|done|done|].
  - apply bfs_iter_Next in Hit as [HI' Hm']; [|done]. apply IH; [done|lia].
  - unfold bfs_iter in Hit. destruct st.1; [done|].
    destruct (decide _); [done|].
    destruct (for_each _ _ _) eqn:E; simpl in Hit; [done|done|].
    by apply for_each_bfs_visit_not_OutOfFuel in E.
Qed.

(** *** Completeness of the search *)

(** What the search has covered: [start] is seen, [goal] is still queued
    if it is seen, and every move out of a seen cell that has left the
    queue leads to a seen cell, the moves [pend] excepted. *)
Definition BDone (pend : cell → cell → Prop) (st : list cell * gset cell)
  : Prop :=
  start ∈ st.2
  ∧ (goal ∈ st.2 → goal ∈ st.1)
  ∧ (∀ u v, u ∈ st.2 → u ∉ st.1 → edge gr rows cols u v →
            pend u v ∨ v ∈ st.2).

Lemma bfs_visit_cases cur st d st' :
  bfs_visit gr rows cols cur st d = Ret st' →
  let n := (cur.1 + d.1, cur.2 + d.2) in
  (st' = st ∧ (¬ (in_bounds rows cols n ∧ open_tile gr n) ∨ n ∈ st.2))
  ∨ (st' = (st.1 ++ [n], st.2 ∪ {[n]})
     ∧ (n ∉ st.2) ∧ in_bounds rows cols n ∧ open_tile gr n).
Proof.
  unfold bfs_visit, open_tile. simpl.
  generalize (cur.1 + d.1) (cur.2 + d.2). intros nr nc.
  destruct ((0 <=? nr) && (nr <? rows) && (0 <=? nc) && (nc <? cols)) eqn:Hb.
  2: { intros [= <-]. left. split; [done|]. left. intros [Hin _].
       apply in_bounds_test in Hin. congruence. }
  apply in_bounds_test in Hb.
  destruct (grid_at gr nr nc) as [t| |] eqn:Ht; simpl; [|done|done].
  destruct (decide _) as [[Hw Hs]|Hno]; intros [= <-].
  - right. split; [done|]. split; [done|]. split; [done|]. eauto.
  - left. split; [done|].
    destruct (decide ((nr, nc) ∈ st.2)) as [|Hns]; [by right|]. left.
    intros [_ (t' & Ht' & Hne)]. apply Hno. split; [congruence|done].
Qed.

Lemma bfs_visit_BDone cur ds st d st' :
  BDone (pending cur (d :: ds)) st →
  bfs_visit gr rows cols cur st d = Ret st' →
  BDone (pending cur ds) st'.
Proof.
  intros (Hs & Hg & Hcov) Hv. apply bfs_visit_cases in Hv. cbv zeta in Hv.
  destruct Hv as [[-> Hno]|(-> & Hn & Hb & Ho)].
  - split; [done|]. split; [done|]. intros u v Hu Huq He.
    destruct (Hcov u v Hu Huq He) as [Hp|Hv]; [|by right].
    apply pending_cons in Hp as [[-> ->]|Hp]; [|by left].
    right. destruct Hno as [Hno|Hin]; [|done].
    destruct Hno. split; apply He.
  - split; [|split]; simpl.
    + apply elem_of_union. by left.
    + intros Hgs. apply elem_of_app.
      apply elem_of_union in Hgs as [Hgs|Hgs]; [left; auto|].
      apply elem_of_singleton in Hgs as ->. right. by apply list_elem_of_singleton.
    + intros u v Hu Huq He.
      assert (Huq' : u ∉ st.1).
      { intros Hx. apply Huq, elem_of_app. by left. }
      apply elem_of_union in Hu as [Hu|Hu].
      2: { apply elem_of_singleton in Hu as ->. destruct Huq.
           apply elem_of_app. right. by apply list_elem_of_singleton. }
      destruct (Hcov u v Hu Huq' He) as [Hp|Hv].
      * apply pending_cons in Hp as [[-> ->]|Hp]; [|by left].
        right. apply elem_of_union. right. by apply elem_of_singleton.
      * right. apply elem_of_union. by left.
Qed.

Lemma for_each_bfs_visit_BDone cur ds st st' :
  BDone (pending cur ds) st →
  for_each (bfs_visit gr rows cols cur) ds st = Ret st' →
  BDone (pending cur []) st'.
Proof.
  revert st. induction ds as [|d ds IH]; intros st HD; simpl.
  - by intros [= <-].
  - intros Hf. apply obind_Ret in Hf as (st1 & Hv & Hf).
    apply (bfs_visit_BDone _ ds) in Hv; [|done]. by apply (IH st1).
Qed.

Lemma bfs_iter_Next_BDone st st' :
  BDone no_exempt st →
  bfs_iter gr rows cols goal st = Ret (Next st') →
  BDone no_exempt st'.
Proof.
  intros (Hs & Hg & Hcov). unfold bfs_iter.
  destruct st as [[|cur q] seen]; cbn [fst snd] in *; [done|].
  destruct (decide (cur = goal)) as [|Hcg]; [done|].
  intros Hf. apply obind_Ret in Hf as (st1 & Hf & [= <-]).
  apply for_each_bfs_visit_BDone in Hf.
  - destruct Hf as (Hs1 & Hg1 & Hcov1). split; [done|]. split; [done|].
    intros u v Hu Huq He. destruct (Hcov1 u v Hu Huq He) as [Hp|]; [|by right].
    destruct Hp as (_ & d & Hd & _). by apply elem_of_nil in Hd.
  - split; [done|]. split; cbn [fst snd].
    + intros Hgs. apply Hg in Hgs. apply elem_of_cons in Hgs as [Hgs|Hgs]; done.
    + intros u v Hu Huq He.
      destruct (decide (u = cur)) as [->|Hne].
      * left. split; [done|]. destruct He as [(d & Hd & ->) _]. eauto.
      * destruct (Hcov u v Hu) as [[]|Hv]; [|done|by right].
        intros Hx. apply elem_of_cons in Hx as [Hx|Hx]; done.
Qed.

Lemma bfs_iter_Done_false st l k :
  BDone no_exempt st →
  bfs_iter gr rows cols goal st = Ret (Done false) →
  ¬ walk l goal k.
Proof.
  intros (Hs & Hg & Hcov). unfold bfs_iter.
  destruct st as [[|cur q] seen]; cbn [fst snd] in *.
  2: { destruct (decide _); [done|]. destruct (for_each _ _ _); done. }
  intros _ Hw.
  assert (Hall : ∀ l c k, walk l c k → c ∈ seen).
  { clear Hw. induction 1 as [|l' u v k' _ IH He]; [done|].
    destruct (Hcov u v IH) as [[]|Hv]; [|done|done].
    intros Hx. by apply elem_of_nil in Hx. }
  apply Hall, Hg in Hw. by apply elem_of_nil in Hw.
Qed.

(** A negative answer of the search means no walk reaches [goal]. *)
Lemma bfs_loop_complete fuel st l k :
  BDone no_exempt st →
  bfs_loop fuel gr rows cols goal st = Ret false →
  ¬ walk l goal k.
Proof.
  revert st. induction fuel as [|fuel IH]; intros st HD; simpl; [done|].
  intros Hl. apply obind_Ret in Hl as ([st'|b] & Hit & Hl).
  - apply bfs_iter_Next_BDone in Hit; [|done]. by apply (IH st').
  - injection Hl as ->. by eapply bfs_iter_Done_false.
Qed.

Lemma BDone_init : BDone no_exempt ([start], {[start]}).
Proof.
  split; [|split]; cbn [fst snd].
  - by apply elem_of_singleton.
  - intros Hg. apply elem_of_singleton in Hg as ->. by left.
  - intros u v Hu Huq. apply elem_of_singleton in Hu as ->.
    destruct Huq. by left.
Qed.

Lemma BInv_init : BInv ([start], {[start]}).
Proof.
  split; [|split]; simpl.
  - intros c Hc. apply list_elem_of_singleton in Hc as ->. set_solver.
  - intros c Hc. apply elem_of_singleton in Hc as ->.
    exists [start], 0. constructor.
  - unfold cell_universe. set_solver.
Qed.

End BfsProofs.

Lemma ensure_reachable_sound gr start goal :
  ensure_reachable gr start goal = Ret true →
  ∃ l k, walk gr (grid_rows gr) (grid_cols gr) start l goal k.
Proof.
  unfold ensure_reachable. destruct gr as [|row0 gr]; [done|].
  simpl obind. intros Hb.
  exact (bfs_loop_sound _ _ _ _ _ _ _ (BInv_init _ _ _ _) Hb).
Qed.

(** [ensure_reachable] ends within the budget of the model. *)
Lemma ensure_reachable_terminates gr start goal :
  ensure_reachable gr start goal ≠ OutOfFuel.
Proof.
  unfold ensure_reachable. destruct gr as [|row0 gr]; [done|].
  simpl obind. apply (bfs_loop_total _ _ _ start); [apply BInv_init|].
  assert (Hs : size ({[start]} : gset cell) = 1%nat) by apply size_singleton.
  unfold bfs_measure, bfs_budget, cells_cap. cbn [fst snd length].
  rewrite Hs. unfold py_len. nia.
Qed.

(** ** Endpoint placement *)

Section PlacementProofs.
Context {rng : Type} `{RandomGen rng}.

Lemma py_randrange_Ret (n : Z) (s : rng) (rs : Z * rng) :
  py_randrange n s = Ret rs → 0 ≤ rs.1 < n.
Proof.
  unfold py_randrange. destruct (Z.leb_spec n 0); [done|].
  intros [= <-]. by apply random_randrange_spec.
Qed.

Lemma random_empty_cell_loop_spec fuel gr rows cols s c s' :
  random_empty_cell_loop fuel gr rows cols s = Ret (c, s') →
  in_bounds rows cols c ∧ open_tile gr c.
Proof.
  revert s. induction fuel as [|fuel IH]; intros s; simpl; [done|].
  intros Hl. apply obind_Ret in Hl as (rs & Hr & Hl).
  apply obind_Ret in Hl as (cs & Hc & Hl).
  apply obind_Ret in Hl as (t & Ht & Hl).
  destruct (decide (t ≠ TILE_WALL)); [|by eapply IH].
  injection Hl as <- <-.
  apply py_randrange_Ret in Hr, Hc.
  split; [done|]. by exists t.
Qed.

(** A cell [random_empty_cell] returns is in bounds and not a wall. *)
Lemma random_empty_cell_spec fuel gr s c s' :
  random_empty_cell fuel gr s = Ret (c, s') →
  in_bounds (grid_rows gr) (grid_cols gr) c ∧ open_tile gr c.
Proof.
  unfold random_empty_cell. destruct gr as [|row0 gr]; [done|].
  simpl obind. apply random_empty_cell_loop_spec.
Qed.

Lemma place_loop_spec fuel rows cols wall_prob mud_prob max_place_tries
    gr tries s gr' start goal s' :
  place_loop fuel rows cols wall_prob mud_prob max_place_tries gr tries s
  = Ret (gr', start, goal, s') →
  start ≠ goal
  ∧ in_bounds (grid_rows gr') (grid_cols gr') start ∧ open_tile gr' start
  ∧ in_bounds (grid_rows gr') (grid_cols gr') goal ∧ open_tile gr' goal
  ∧ ensure_reachable gr' start goal = Ret true.
Proof.
  revert gr tries s. induction fuel as [|fuel IH]; intros gr tries s; [done|].
  cbn [place_loop].
  intros Hl. apply obind_Ret in Hl as ([a sa] & Ha & Hl).
  apply obind_Ret in Hl as ([b sb] & Hb & Hl). cbn [fst snd] in Hl.
  apply random_empty_cell_spec in Ha, Hb.
  destruct (decide (a = b)) as [Hab|Hab].
  { destruct (_ <? _).
    - apply obind_Ret in Hl as (gs & _ & Hl). by eapply IH.
    - by eapply IH. }
  apply obind_Ret in Hl as (ok & Hok & Hl).
  destruct ok.
  { injection Hl as <- <- <- <-. tauto. }
  destruct (_ <? _).
  - apply obind_Ret in Hl as (gs & _ & Hl). by eapply IH.
  - by eapply IH.
Qed.

End PlacementProofs.

(** C2: whenever [place_entities_on_grid] returns, the returned [start]
    and [goal] differ, both are in bounds and hold a tile of the returned
    grid that is not a wall, and the breadth-first check [ensure_reachable] from
    [start] over the non-wall cells of that grid with 4-directional moves
    reaches [goal]; a valid path between them exists. *)
Theorem place_entities_on_grid_safe {rng : Type} `{RandomGen rng}
    (fuel : nat) (rows cols : Z) (wall_prob mud_prob : Q) (seed : option Z)
    (max_place_tries : Z) (s : rng) gr' start goal s' :
  place_entities_on_grid fuel rows cols wall_prob mud_prob seed
    max_place_tries s = Ret (gr', start, goal, s') →
  start ≠ goal
  ∧ open_tile gr' start ∧ open_tile gr' goal
  ∧ in_bounds (grid_rows gr') (grid_cols gr') start
  ∧ in_bounds (grid_rows gr') (grid_cols gr') goal
  ∧ ensure_reachable gr' start goal = Ret true
  ∧ ∃ p, valid_path gr' start goal p.
Proof.
  unfold place_entities_on_grid. intros Hp.
  apply obind_Ret in Hp as (gs & _ & Hp).
  apply place_loop_spec in Hp as (Hne & Hsb & Hso & Hgb & Hgo & Hreach).
  split; [done|]. split; [done|]. split; [done|]. split; [done|].
  split; [done|]. split; [done|].
  apply ensure_reachable_sound in Hreach as (l & k & Hw).
  exists l. by eapply walk_valid_path.
Qed.

Lemma place_entities_on_grid_safe_witness :
  place_entities_on_grid 3 2 2 (1 # 5) (3 # 10) (Some 7) 300
    [100; 500; 200; 900; 900; 900; 900; 1; 1; 1; 1; 0; 0; 0; 1; 1; 1]
  = Ret ([ [TILE_WALL; TILE_MUD]; [TILE_NORMAL; TILE_NORMAL] ],
         (0, 1), (1, 1), [])
  ∧ (0, 1) ≠ ((1, 1) : cell)
  ∧ ensure_reachable [ [TILE_WALL; TILE_MUD]; [TILE_NORMAL; TILE_NORMAL] ]
      (0, 1) (1, 1) = Ret true.
Proof.
  assert (Hp : place_entities_on_grid 3 2 2 (1 # 5) (3 # 10) (Some 7) 300
                 [100; 500; 200; 900; 900; 900; 900; 1; 1; 1; 1; 0; 0; 0; 1; 1; 1]
               = Ret ([ [TILE_WALL; TILE_MUD]; [TILE_NORMAL; TILE_NORMAL] ],
                      (0, 1), (1, 1), []))
    by (vm_compute; reflexivity).
  pose proof (place_entities_on_grid_safe _ _ _ _ _ _ _ _ _ _ _ _ Hp)
    as (Hne & _ & _ & _ & _ & Hreach & _).
  split; [exact Hp|]. split; [exact Hne|exact Hreach].
Defined.

(** ** The reachability check decides connectivity *)

Lemma bfs_visit_rect gr cur st d :
  rectangular gr →
  ∃ st', bfs_visit gr (grid_rows gr) (grid_cols gr) cur st d = Ret st'.
Proof.
  intros Hrect. unfold bfs_visit.
  destruct ((0 <=? _) && _ && _ && _) eqn:Hb; [|eauto].
  apply in_bounds_test in Hb.
  destruct (grid_at_in_bounds gr _ _ Hrect Hb) as [t ->]. simpl.
  destruct (decide _); eauto.
Qed.

Lemma for_each_bfs_visit_rect gr cur ds st :
  rectangular gr →
  ∃ st', for_each (bfs_visit gr (grid_rows gr) (grid_cols gr) cur) ds st
         = Ret st'.
Proof.
  intros Hrect. revert st. induction ds as [|d ds IH]; intros st; simpl; [eauto|].
  destruct (bfs_visit_rect gr cur st d Hrect) as [st1 ->]. simpl. apply IH.
Qed.

Lemma bfs_loop_rect fuel gr goal st e :
  rectangular gr →
  bfs_loop fuel gr (grid_rows gr) (grid_cols gr) goal st ≠ Exc e.
Proof.
  intros Hrect. revert st. induction fuel as [|fuel IH]; intros st; [done|].
  cbn [bfs_loop]. unfold bfs_iter.
  destruct st as [[|cur q] seen]; cbn [fst snd obind]; [done|].
  destruct (decide _); cbn [obind]; [done|].
  destruct (for_each_bfs_visit_rect gr cur DIRS (q, seen) Hrect) as [st1 ->].
  cbn [obind]. apply IH.
Qed.

(** On a rectangular grid with at least one row [ensure_reachable]
    returns, and it answers [True] exactly when a walk of the search
    leads from [start] to [goal]. *)
Lemma ensure_reachable_walk gr start goal :
  rectangular gr → gr ≠ [] →
  ∃ b, ensure_reachable gr start goal = Ret b
       ∧ (b = true ↔
          ∃ l k, walk gr (grid_rows gr) (grid_cols gr) start l goal k).
Proof.
  intros Hrect Hne.
  pose proof (ensure_reachable_terminates gr start goal) as Hfuel.
  pose proof (ensure_reachable_sound gr start goal) as Hsound.
  unfold ensure_reachable in *. destruct gr as [|row0 gr0] eqn:Hgr; [done|].
  rewrite <- Hgr in *. rewrite py_getitem_first, Hgr in *.
  rewrite <- Hgr in *. cbn [obind] in *.
  replace (py_len row0) with (grid_cols gr) in * by (by rewrite Hgr).
  change (py_len gr) with (grid_rows gr) in *.
  destruct (bfs_loop _ _ _ _ _ _) as [b|e|] eqn:Hb; [|by apply bfs_loop_rect in Hb|done].
  exists b. split; [done|]. split.
  - intros ->. by apply Hsound.
  - intros (l & k & Hw). destruct b; [done|].
    eapply bfs_loop_complete in Hb; [by destruct Hb|apply BDone_init].
Qed.

(** X1: the breadth-first check is exact: on a rectangular grid and from an
    in-bounds non-wall [start], [ensure_reachable] returns [True] when a
    valid path to [goal] exists and [False] when none does; it never
    raises and never runs past its loop budget. *)
Theorem ensure_reachable_decides gr start goal :
  rectangular gr →
  in_bounds (grid_rows gr) (grid_cols gr) start →
  open_tile gr start →
  ∃ b, ensure_reachable gr start goal = Ret b
       ∧ (b = true ↔ ∃ p, valid_path gr start goal p).
Proof.
  intros Hrect Hsb Hso.
  destruct (ensure_reachable_walk gr start goal Hrect
              (in_bounds_nonempty _ _ Hsb)) as (b & Hb & Hiff).
  exists b. split; [done|]. rewrite Hiff. split.
  - intros (l & k & Hw). exists l. by eapply walk_valid_path.
  - intros [p Hp]. apply valid_path_walk in Hp. eauto.
Qed.

Lemma ensure_reachable_decides_witness :
  rectangular world_split
  ∧ in_bounds (grid_rows world_split) (grid_cols world_split) (0, 0)
  ∧ open_tile world_split (0, 0)
  ∧ ∃ b, ensure_reachable world_split (0, 0) (0, 2) = Ret b
         ∧ (b = true ↔ ∃ p, valid_path world_split (0, 0) (0, 2) p).
Proof.
  assert (Hb : in_bounds (grid_rows world_split) (grid_cols world_split) (0, 0))
    by (unfold in_bounds, grid_rows, grid_cols, py_len; simpl; lia).
  assert (Ho : open_tile world_split (0, 0))
    by (exists TILE_NORMAL; split; [reflexivity|discriminate]).
  split; [exact world_split_rectangular|].
  split; [exact Hb|]. split; [exact Ho|].
  exact (ensure_reachable_decides world_split (0, 0) (0, 2)
           world_split_rectangular Hb Ho).
Defined.

(** * Further properties of the search *)

(** ** The heuristic never overestimates *)

Lemma walk_manhattan gr rows cols start goal l c k :
  walk gr rows cols start l c k →
  manhattan start goal ≤ k + manhattan c goal.
Proof.
  induction 1 as [|l u v k _ IH [Hn _]]; [lia|].
  pose proof (manhattan_consistent gr u v goal Hn). lia.
Qed.

Lemma walk_length gr rows cols start l c k :
  walk gr rows cols start l c k →
  Z.of_nat (length l) - 1 ≤ k ≤ 3 * (Z.of_nat (length l) - 1).
Proof.
  induction 1 as [|l u v k _ IH _]; [simpl; lia|].
  pose proof (cell_cost_range gr v). rewrite length_app. simpl. lia.
Qed.

Lemma walk_steps_manhattan gr rows cols start l c k :
  walk gr rows cols start l c k →
  manhattan start c ≤ Z.of_nat (length l) - 1.
Proof.
  induction 1 as [|l u v k _ IH [Hn _]].
  - unfold manhattan. simpl. lia.
  - apply neighbour_adjacent in Hn. rewrite length_app. simpl.
    destruct start as [sr sc], u as [ur uc], v as [vr vc].
    unfold adjacent, manhattan in *. simpl in *. lia.
Qed.

(** X2: [manhattan] is an admissible heuristic: along every valid path
    from [start] to [goal] it is at most the number of steps, which is at
    most the total traversal cost, which is at most three times the
    number of steps. *)
Theorem manhattan_admissible gr start goal p :
  valid_path gr start goal p →
  manhattan start goal ≤ Z.of_nat (length p) - 1
  ∧ Z.of_nat (length p) - 1 ≤ path_cost gr p
  ∧ path_cost gr p ≤ 3 * (Z.of_nat (length p) - 1).
Proof.
  intros Hp. apply valid_path_walk in Hp.
  pose proof (walk_steps_manhattan _ _ _ _ _ _ _ Hp).
  pose proof (walk_length _ _ _ _ _ _ _ Hp). lia.
Qed.

Lemma manhattan_admissible_witness :
  valid_path world_mud (0, 0) (0, 2) [(0, 0); (0, 1); (0, 2)]
  ∧ manhattan (0, 0) (0, 2) ≤ Z.of_nat (length [(0, 0); (0, 1); (0, 2)]) - 1
  ∧ Z.of_nat (length [(0, 0); (0, 1); (0, 2)]) - 1
    ≤ path_cost world_mud [(0, 0); (0, 1); (0, 2)]
  ∧ path_cost world_mud [(0, 0); (0, 1); (0, 2)]
    ≤ 3 * (Z.of_nat (length [(0, 0); (0, 1); (0, 2)]) - 1).
Proof.
  split; [exact world_mud_path|].
  exact (manhattan_admissible world_mud (0, 0) (0, 2) _ world_mud_path).
Defined.

(** ** Grids without walls or mud *)

(** Every tile of the grid is normal. *)
Definition all_normal (gr : grid) : Prop :=
  Forall (Forall (λ t, t = TILE_NORMAL)) gr.

Lemma all_normal_at gr r c :
  rectangular gr → all_normal gr →
  in_bounds (grid_rows gr) (grid_cols gr) (r, c) →
  grid_at gr r c = Ret TILE_NORMAL.
Proof.
  intros Hrect Hall [Hr Hc]. simpl in *. unfold grid_at, grid_rows in *.
  destruct (py_getitem_in_range gr r Hr) as (row & -> & Hrow). simpl.
  assert (Hin : row ∈ gr) by (by eapply list_elem_of_lookup_2).
  assert (Hlen : py_len row = grid_cols gr).
  { unfold rectangular in Hrect. rewrite Forall_forall in Hrect. by apply Hrect. }
  destruct (py_getitem_in_range row c) as (t & -> & Ht); [lia|].
  unfold all_normal in Hall. rewrite Forall_forall in Hall.
  specialize (Hall row Hin). rewrite Forall_forall in Hall.
  f_equal. apply Hall. by eapply list_elem_of_lookup_2.
Qed.

Lemma all_normal_walk gr start :
  rectangular gr → all_normal gr →
  in_bounds (grid_rows gr) (grid_cols gr) start →
  ∀ (n : nat) (goal : cell),
    in_bounds (grid_rows gr) (grid_cols gr) goal →
    manhattan start goal = Z.of_nat n →
    ∃ l, walk gr (grid_rows gr) (grid_cols gr) start l goal (Z.of_nat n).
Proof.
  intros Hrect Hall Hs. induction n as [|n IH]; intros goal Hg Hd.
  - assert (goal = start) as ->.
    { destruct start, goal. unfold manhattan in Hd. simpl in Hd.
      f_equal; lia. }
    exists [start]. constructor.
  - destruct start as [sr sc] eqn:Hstart, goal as [gr_ gc].
    assert (Hprev : ∃ prev, in_bounds (grid_rows gr) (grid_cols gr) prev
                            ∧ manhattan (sr, sc) prev = Z.of_nat n
                            ∧ adjacent prev (gr_, gc)).
    { unfold in_bounds, manhattan, adjacent in *. simpl in *.
      destruct (Z.eq_dec gr_ sr) as [->|Hne].
      - destruct (Z.lt_ge_cases sc gc).
        + exists (sr, gc - 1). simpl. lia.
        + exists (sr, gc + 1). simpl. lia.
      - destruct (Z.lt_ge_cases sr gr_).
        + exists (gr_ - 1, gc). simpl. lia.
        + exists (gr_ + 1, gc). simpl. lia. }
    destruct Hprev as (prev & Hpb & Hpd & Hadj).
    destruct (IH prev Hpb Hpd) as [l Hw].
    exists (l ++ [(gr_, gc)]).
    assert (Hat := all_normal_at gr gr_ gc Hrect Hall Hg).
    replace (Z.of_nat (S n)) with (Z.of_nat n + cell_cost gr (gr_, gc)).
    2: { unfold cell_cost. simpl. rewrite Hat, COSTS_normal. lia. }
    eapply walk_snoc; [exact Hw|].
    split; [by apply neighbour_adjacent|]. split; [done|].
    exists TILE_NORMAL. split; [exact Hat|discriminate].
Qed.

(** X3: on a rectangular grid without walls or mud, between any two cells in
    bounds, [astar] returns a shortest Manhattan route: a path of total
    cost |Δrow| + |Δcol| with one more cell than that. *)
Theorem astar_open_grid gr start goal record_steps :
  rectangular gr → all_normal gr →
  in_bounds (grid_rows gr) (grid_cols gr) start →
  in_bounds (grid_rows gr) (grid_cols gr) goal →
  ∃ r, astar gr start goal record_steps = Ret (Some r)
       ∧ path_cost gr (path r) = manhattan start goal
       ∧ Z.of_nat (length (path r)) = manhattan start goal + 1.
Proof.
  intros Hrect Hall Hs Hg.
  destruct (all_normal_walk gr start Hrect Hall Hs
              (Z.to_nat (manhattan start goal)) goal Hg) as [l Hw].
  { pose proof (manhattan_nonneg start goal). lia. }
  rewrite Z2Nat.id in Hw by apply manhattan_nonneg.
  assert (Hso : open_tile gr start).
  { exists TILE_NORMAL. split; [|discriminate].
    destruct start. by apply all_normal_at. }
  pose proof (walk_valid_path _ _ _ _ _ Hs Hso Hw) as Hp.
  destruct (astar_finds_path gr start goal record_steps l Hrect Hp) as [r Hr].
  exists r. split; [done|].
  apply astar_found_least in Hr as (k & Hwr & Hmin).
  specialize (Hmin _ _ Hw).
  pose proof (walk_manhattan _ _ _ _ goal _ _ _ Hwr) as Hlow.
  assert (manhattan goal goal = 0) as Hz by (unfold manhattan; lia).
  rewrite (walk_path_cost _ _ _ _ _ _ _ Hwr).
  pose proof (walk_length _ _ _ _ _ _ _ Hwr).
  pose proof (walk_steps_manhattan _ _ _ _ _ _ _ Hwr). lia.
Qed.

Lemma world_plain_normal : rectangular world_plain ∧ all_normal world_plain.
Proof. split; unfold rectangular, all_normal; repeat constructor. Qed.

Lemma astar_open_grid_witness :
  rectangular world_plain ∧ all_normal world_plain
  ∧ in_bounds (grid_rows world_plain) (grid_cols world_plain) (0, 0)
  ∧ in_bounds (grid_rows world_plain) (grid_cols world_plain) (2, 2)
  ∧ ∃ r, astar world_plain (0, 0) (2, 2) true = Ret (Some r)
         ∧ path_cost world_plain (path r) = manhattan (0, 0) (2, 2)
         ∧ Z.of_nat (length (path r)) = manhattan (0, 0) (2, 2) + 1.
Proof.
  assert (Hs : in_bounds (grid_rows world_plain) (grid_cols world_plain) (0, 0))
    by (unfold in_bounds, grid_rows, grid_cols, py_len; simpl; lia).
  assert (Hg : in_bounds (grid_rows world_plain) (grid_cols world_plain) (2, 2))
    by (unfold in_bounds, grid_rows, grid_cols, py_len; simpl; lia).
  split; [exact (proj1 world_plain_normal)|].
  split; [exact (proj2 world_plain_normal)|].
  split; [exact Hs|]. split; [exact Hg|].
  exact (astar_open_grid world_plain (0, 0) (2, 2) true
           (proj1 world_plain_normal) (proj2 world_plain_normal) Hs Hg).
Defined.

(** ** The returned path and the recorded trace *)

Section ResultProofs.
Variables (gr : grid) (rows cols : Z) (start goal : cell).
Variables (budget : nat) (record_steps : bool).

Local Abbreviation Inv := (Inv gr rows cols start goal no_exempt).
Local Abbreviation iter :=
  (astar_iter budget gr rows cols start goal record_steps).

(** A property kept by every iteration holds at the iteration that
    returns. *)
Lemma astar_loop_last (P : search → Prop) fuel st r :
  (∀ st st', Inv st → P st → iter st = Ret (Next st') → P st') →
  Inv st → P st →
  astar_loop fuel budget gr rows cols start goal record_steps st = Ret r →
  ∃ st', Inv st' ∧ P st' ∧ iter st' = Ret (Done r).
Proof.
  intros Hstep. revert st. induction fuel as [|fuel IH]; intros st HI HP; [done|].
  simpl. intros Hl. apply obind_Ret in Hl as ([st'|r'] & Hit & Hl).
  - apply (IH st'); [|by eapply Hstep|done].
    by apply astar_iter_Next in Hit as [? _].
  - injection Hl as ->. eauto.
Qed.

(** Back-pointers lead to closed cells, and the trace lists the closed
    cells, each once, in the order they were closed, beginning with
    [start]. *)
Definition Book (st : search) : Prop :=
  (∀ n p, st_parent st !! n = Some p → p ∈ st_closed_set st)
  ∧ (record_steps = false → st_steps st = [])
  ∧ (record_steps = true →
     NoDup (snap_current <$> st_steps st)
     ∧ (∀ c, c ∈ snap_current <$> st_steps st ↔ c ∈ st_closed_set st)
     ∧ Forall (λ sn, snap_current sn ∈ snap_closed sn
                     ∧ snap_current sn ∉ snap_open sn) (st_steps st))
  ∧ ((st_closed_set st = ∅
      ∧ st_open_heap st = [(manhattan start goal, 0, start)])
     ∨ start ∈ st_closed_set st
       ∧ (record_steps = true →
          head (snap_current <$> st_steps st) = Some start)).

Lemma Book_init : Book (astar_init start goal).
Proof.
  split; [|split; [|split]]; simpl.
  - intros n p Hp. by rewrite lookup_empty in Hp.
  - done.
  - intros _. split; [constructor|]. split; [|constructor].
    intros c. split; intros Hc.
    + by apply elem_of_nil in Hc.
    + by apply not_elem_of_empty in Hc.
  - by left.
Qed.

Lemma relax_parent_closed current st d st' :
  (∀ n p, st_parent st !! n = Some p → p ∈ st_closed_set st) →
  current ∈ st_closed_set st →
  relax gr rows cols goal current st d = Ret st' →
  ∀ n p, st_parent st' !! n = Some p → p ∈ st_closed_set st'.
Proof.
  intros Hpar Hcur Hr. apply relax_Ret in Hr. cbv zeta in Hr.
  destruct Hr as [[_ ->] | (_ & _ & gc & _ & [[_ ->] | [_ ->]])]; [done|done|].
  simpl. intros n p Hp. apply lookup_insert_Some in Hp as [[_ <-]|[_ Hp]]; eauto.
Qed.

Lemma for_each_relax_parent_closed current ds st st' :
  (∀ n p, st_parent st !! n = Some p → p ∈ st_closed_set st) →
  current ∈ st_closed_set st →
  for_each (relax gr rows cols goal current) ds st = Ret st' →
  ∀ n p, st_parent st' !! n = Some p → p ∈ st_closed_set st'.
Proof.
  revert st. induction ds as [|d ds IH]; intros st Hpar Hcur; simpl.
  - by intros [= <-].
  - intros Hf. apply obind_Ret in Hf as (st1 & Hr & Hf).
    pose proof (relax_frame _ _ _ _ _ _ _ _ Hr) as (Hc & _ & _).
    eapply (IH st1); [|by rewrite Hc|done].
    by eapply relax_parent_closed.
Qed.

Lemma Book_closing (st : search) (cur : cell) (op : gset cell) :
  cur ∉ st_closed_set st →
  Book st →
  let steps' :=
    if record_steps then
      st_steps st ++ [ {| snap_current := cur;
                          snap_open := op ∖ {[cur]};
                          snap_closed := st_closed_set st ∪ {[cur]};
                          snap_g := st_g st |} ]
    else st_steps st in
  (record_steps = false → steps' = [])
  ∧ (record_steps = true →
     NoDup (snap_current <$> steps')
     ∧ (∀ c, c ∈ snap_current <$> steps' ↔ c ∈ st_closed_set st ∪ {[cur]})
     ∧ Forall (λ sn, snap_current sn ∈ snap_closed sn
                     ∧ snap_current sn ∉ snap_open sn) steps'
     ∧ last (snap_current <$> steps') = Some cur).
Proof.
  intros Hcur (_ & Hoff & Hon & _). cbv zeta. split.
  - intros ->. by apply Hoff.
  - intros ->. destruct (Hon eq_refl) as (Hnd & Hel & Hall).
    rewrite fmap_app. simpl. split; [|split; [|split]].
    + apply NoDup_app. split; [done|]. split; [|apply NoDup_singleton].
      intros c Hc Hc'. apply list_elem_of_singleton in Hc' as ->.
      by apply Hel in Hc.
    + intros c. rewrite elem_of_app, list_elem_of_singleton, Hel.
      rewrite elem_of_union, elem_of_singleton. done.
    + apply Forall_app. split; [done|]. apply Forall_singleton. simpl.
      split; [apply elem_of_union; right; by apply elem_of_singleton|].
      intros Hx. apply elem_of_difference in Hx as [_ Hx].
      apply Hx. by apply elem_of_singleton.
    + apply last_snoc.
Qed.

Lemma Book_Next st st' :
  Inv st → Book st → iter st = Ret (Next st') → Book st'.
Proof.
  intros HI HB. pose proof HB as (Hpar & Hoff & Hon & Hfirst).
  unfold astar_iter.
  destruct (heappop (st_open_heap st)) as [[e h']|] eqn:Hp; [|done].
  destruct (decide (ent_cell e ∈ st_closed_set st)) as [Hc|Hc].
  { intros [= <-]. split; [done|]. split; [done|]. split; [done|]. simpl.
    destruct Hfirst as [[He _]|Hs]; [|by right].
    rewrite He in Hc. by apply not_elem_of_empty in Hc. }
  destruct (decide (ent_cell e = goal)) as [Hg|Hg].
  { destruct (reconstruct _ _ _ _ _); done. }
  intros Hf. apply obind_Ret in Hf as (st1 & Hf & [= <-]).
  pose proof (for_each_relax_frame _ _ _ _ _ _ _ _ Hf) as [Hcl Hst].
  simpl in Hcl, Hst.
  destruct (Book_closing st (ent_cell e) (st_open_set st) Hc HB) as [Hoff' Hon'].
  cbv zeta in Hoff', Hon'.
  split; [|split; [|split]].
  - eapply for_each_relax_parent_closed; [| |exact Hf]; simpl.
    + intros n p Hnp. apply elem_of_union. left. eauto.
    + apply elem_of_union. right. by apply elem_of_singleton.
  - intros Hrec. rewrite Hst. by apply Hoff'.
  - intros Hrec. rewrite Hst, Hcl.
    destruct (Hon' Hrec) as (? & ? & ? & _). done.
  - right. rewrite Hcl, Hst.
    destruct Hfirst as [[He Hh]|[Hs Hhd]].
    + rewrite Hh in Hp. injection Hp as <- <-. simpl.
      split; [apply elem_of_union; right; by apply elem_of_singleton|].
      intros Hrec. rewrite Hrec. rewrite Hrec in Hon.
      destruct (Hon eq_refl) as (_ & Hel & _).
      destruct (st_steps st) as [|sn l]; [done|].
      assert (Hin : snap_current sn ∈ snap_current <$> sn :: l) by (by left).
      apply Hel in Hin. rewrite He in Hin. by apply not_elem_of_empty in Hin.
    + split; [apply elem_of_union; by left|].
      intros Hrec. specialize (Hhd Hrec). rewrite Hrec.
      destruct (st_steps st); [done|]. exact Hhd.
Qed.

(** The cells the walk back along [parent] collects. *)
Lemma reconstruct_chain st fuel cur acc r x :
  Inv st →
  (∀ n p, st_parent st !! n = Some p → p ∈ st_closed_set st) →
  st_g st !! cur = Some x →
  reconstruct fuel (st_parent st) start cur acc = Ret r →
  ∃ p, r = acc ++ p ∧ NoDup p ∧ (start ∉ p)
       ∧ (∀ c, c ∈ p →
            (c = cur ∨ c ∈ st_closed_set st)
            ∧ ∃ y, st_g st !! c = Some y ∧ y ≤ x)
       ∧ (cur = start ∨ start ∈ st_closed_set st).
Proof.
  intros HI Hpar. revert cur acc r x.
  induction fuel as [|fuel IH]; intros cur acc r x Hx; simpl; [done|].
  destruct (decide (cur = start)) as [->|Hne].
  - intros [= <-]. exists []. rewrite app_nil_r.
    split; [done|]. split; [constructor|]. split; [apply not_elem_of_nil|].
    split; [|by left]. intros c Hc. by apply elem_of_nil in Hc.
  - unfold dict_getitem.
    destruct (st_parent st !! cur) as [p0|] eqn:Hp; simpl; [|done].
    destruct (inv_parent _ _ _ _ _ _ _ HI cur p0 Hp)
      as (_ & He & x0 & y & Hx0 & Hy & Hle).
    assert (y = x) as -> by congruence.
    pose proof (cell_cost_range gr cur) as Hcost.
    pose proof (Hpar _ _ Hp) as Hp0.
    intros Hrec.
    apply (IH _ _ _ x0 Hx0) in Hrec as (q & -> & Hnd & Hsq & Hq & Hs).
    exists (cur :: q). split; [by rewrite <- app_assoc|].
    split; [|split; [|split]].
    + apply NoDup_cons. split; [|done]. intros Hin.
      destruct (Hq _ Hin) as (_ & y & Hy' & Hle').
      assert (y = x) by congruence. lia.
    + intros Hin. apply elem_of_cons in Hin as [Hin|Hin]; [by symmetry in Hin|done].
    + intros c Hc. apply elem_of_cons in Hc as [->|Hc].
      * split; [by left|]. exists x. split; [done|lia].
      * destruct (Hq _ Hc) as ([->|Hcl] & y & Hy' & Hle').
        -- split; [by right|]. exists y. split; [done|lia].
        -- split; [by right|]. exists y. split; [done|lia].
    + right. destruct Hs as [<-|Hs]; done.
Qed.

Lemma NoDup_length_size (l : list cell) (X : gset cell) :
  NoDup l → (∀ c, c ∈ l → c ∈ X) → (length l ≤ size X)%nat.
Proof.
  intros Hnd Hsub. rewrite <- (size_list_to_set (C := gset cell) l Hnd).
  apply subseteq_size. intros c Hc. apply elem_of_list_to_set in Hc. auto.
Qed.

(** What the returning iteration hands back. *)
Lemma astar_iter_result st r :
  Inv st → Book st → iter st = Ret (Done (Some r)) →
  NoDup (path r)
  ∧ (length (path r) ≤ expanded r)%nat
  ∧ (1 ≤ expanded r ≤ cells_cap rows cols)%nat
  ∧ head (path r) = Some start
  ∧ (record_steps = false → steps r = [])
  ∧ (record_steps = true →
     length (steps r) = expanded r
     ∧ NoDup (snap_current <$> steps r)
     ∧ head (snap_current <$> steps r) = Some start
     ∧ last (snap_current <$> steps r) = Some goal
     ∧ Forall (λ sn, snap_current sn ∈ snap_closed sn
                     ∧ snap_current sn ∉ snap_open sn) (steps r)
     ∧ ∀ c, c ∈ path r → c ∈ snap_current <$> steps r).
Proof.
  intros HI HB. pose proof HB as (Hpar & _ & _ & Hfirst). unfold astar_iter.
  destruct (heappop (st_open_heap st)) as [[e h']|] eqn:Hp; [|done].
  pose proof (heappop_spec _ _ _ Hp) as (Hin & _ & _).
  destruct (decide (ent_cell e ∈ st_closed_set st)) as [Hc|Hc]; [done|].
  destruct (decide (ent_cell e = goal)) as [Hg|Hg].
  2: { destruct (for_each _ _ _); done. }
  destruct (inv_heap _ _ _ _ _ _ _ HI e Hin) as (x & Hx & _ & _).
  intros Hf. apply obind_Ret in Hf as (p & Hrec & [= <-]). simpl.
  apply (reconstruct_chain st _ _ _ _ x HI Hpar Hx) in Hrec
    as (q & Hq & Hnd & Hsq & Hqc & Hs).
  simpl in Hq. subst p. rewrite Hg in *.
  destruct (Book_closing st goal (st_open_set st) Hc HB) as [Hoff' Hon'].
  cbv zeta in Hoff', Hon'.
  assert (Hsub : ∀ c, c ∈ reverse (q ++ [start]) →
                      c ∈ st_closed_set st ∪ {[goal]}).
  { intros c Hc'. apply elem_of_reverse, elem_of_app in Hc' as [Hc'|Hc'].
    - apply elem_of_union. destruct (Hqc _ Hc') as ([->|?] & _).
      + right. by apply elem_of_singleton.
      + by left.
    - apply list_elem_of_singleton in Hc' as ->. apply elem_of_union.
      destruct Hs as [->|Hs]; [right; by apply elem_of_singleton|by left]. }
  assert (Hndp : NoDup (reverse (q ++ [start]))).
  { rewrite reverse_Permutation. apply NoDup_app. split; [done|].
    split; [|apply NoDup_singleton].
    intros c Hc1 Hc2. apply list_elem_of_singleton in Hc2 as ->. done. }
  assert (Hcap : (size (st_closed_set st ∪ {[goal]}) ≤ cells_cap rows cols)%nat).
  { etrans; [|apply size_cell_universe]. apply subseteq_size. intros u Hu.
    apply elem_of_union in Hu as [Hu|Hu].
    - destruct (inv_closed_g _ _ _ _ _ _ _ HI u Hu) as [y Hy].
      destruct (inv_dom _ _ _ _ _ _ _ HI u y Hy) as [->|Hb].
      + unfold cell_universe. apply elem_of_union. left.
        by apply elem_of_singleton.
      + by apply in_bounds_universe.
    - apply elem_of_singleton in Hu as ->.
      destruct (inv_dom _ _ _ _ _ _ _ HI goal x Hx) as [->|Hb].
      + unfold cell_universe. apply elem_of_union. left.
        by apply elem_of_singleton.
      + by apply in_bounds_universe. }
  split; [done|]. split; [by apply NoDup_length_size|].
  split; [rewrite size_closed_add by done; rewrite size_closed_add in Hcap by done; lia|].
  split; [by rewrite reverse_app|].
  split; [done|]. intros Hrec.
  destruct (Hon' Hrec) as (Hnd' & Hel' & Hall' & Hlast').
  split.
  { rewrite <- (length_fmap snap_current).
    rewrite <- (size_list_to_set (C := gset cell) _ Hnd'). f_equal.
    apply set_eq. intros c. rewrite elem_of_list_to_set. apply Hel'. }
  split; [done|]. split.
  { rewrite Hrec. rewrite fmap_app.
    destruct Hfirst as [[He Hh]|[_ Hhd]].
    - rewrite Hh in Hp. injection Hp as <- <-. unfold ent_cell in Hg.
      simpl in Hg. rewrite <- Hg.
      destruct (st_steps st) as [|sn l] eqn:Hst; [done|].
      destruct HB as (_ & _ & Hon & _). rewrite Hrec in Hon.
      destruct (Hon eq_refl) as (_ & Hel & _). rewrite Hst in Hel.
      assert (Hi : snap_current sn ∈ snap_current <$> sn :: l) by (by left).
      apply Hel in Hi. rewrite He in Hi. by apply not_elem_of_empty in Hi.
    - specialize (Hhd Hrec). destruct (st_steps st); [done|]. exact Hhd. }
  split; [done|]. split; [done|].
  intros c Hc'. apply Hel'. by apply Hsub.
Qed.

End ResultProofs.

Lemma astar_result gr start goal record_steps r :
  astar gr start goal record_steps = Ret (Some r) →
  NoDup (path r)
  ∧ (length (path r) ≤ expanded r)%nat
  ∧ (1 ≤ expanded r ≤ cells_cap (grid_rows gr) (grid_cols gr))%nat
  ∧ head (path r) = Some start
  ∧ (record_steps = false → steps r = [])
  ∧ (record_steps = true →
     length (steps r) = expanded r
     ∧ NoDup (snap_current <$> steps r)
     ∧ head (snap_current <$> steps r) = Some start
     ∧ last (snap_current <$> steps r) = Some goal
     ∧ Forall (λ sn, snap_current sn ∈ snap_closed sn
                     ∧ snap_current sn ∉ snap_open sn) (steps r)
     ∧ ∀ c, c ∈ path r → c ∈ snap_current <$> steps r).
Proof.
  intros Ha. destruct gr as [|row0 gr0] eqn:Hgr; [done|]. rewrite <- Hgr in *.
  rewrite astar_unfold in Ha by (by rewrite Hgr).
  eapply (astar_loop_last _ _ _ _ _ _ _ (Book start goal record_steps))
    in Ha as (st & HI & HB & Hit).
  - by eapply astar_iter_result.
  - intros st st' HI HB Hn. by eapply Book_Next.
  - apply Inv_init.
  - apply Book_init.
Qed.

(** X4: the path [astar] returns is simple and made of expanded cells: no
    cell occurs twice on it, it is no longer than the number of expanded
    nodes, and at least one and at most rows·cols + 1 nodes are
    expanded. *)
Theorem astar_path_simple gr start goal record_steps r :
  astar gr start goal record_steps = Ret (Some r) →
  NoDup (path r)
  ∧ (length (path r) ≤ expanded r)%nat
  ∧ 1 ≤ Z.of_nat (expanded r) ≤ grid_rows gr * grid_cols gr + 1.
Proof.
  intros Ha. apply astar_result in Ha as (Hnd & Hlen & Hexp & _).
  split; [done|]. split; [done|].
  destruct (grid_dims_nonneg gr). unfold cells_cap in Hexp. nia.
Qed.

Lemma astar_path_simple_witness :
  ∃ r, astar world_mud (0, 0) (0, 2) false = Ret (Some r)
       ∧ NoDup (path r)
       ∧ (length (path r) ≤ expanded r)%nat
       ∧ 1 ≤ Z.of_nat (expanded r) ≤ grid_rows world_mud * grid_cols world_mud + 1.
Proof.
  destruct (astar world_mud (0, 0) (0, 2) false) as [[r|]| |] eqn:Ha;
    try (vm_compute in Ha; discriminate Ha).
  exists r. split; [reflexivity|].
  exact (astar_path_simple world_mud (0, 0) (0, 2) false r Ha).
Defined.

(** X5: with step recording on, the returned trace has exactly one snapshot
    per expanded node: the expanded cells are pairwise distinct, the first
    is [start] and the last is [goal], each snapshot's cell is in its own
    closed set and not in its open set, and every cell of the returned
    path has a snapshot.  With recording off the trace is empty. *)
Theorem astar_trace gr start goal record_steps r :
  astar gr start goal record_steps = Ret (Some r) →
  (record_steps = false → steps r = [])
  ∧ (record_steps = true →
     length (steps r) = expanded r
     ∧ NoDup (snap_current <$> steps r)
     ∧ head (snap_current <$> steps r) = Some start
     ∧ last (snap_current <$> steps r) = Some goal
     ∧ Forall (λ sn, snap_current sn ∈ snap_closed sn
                     ∧ snap_current sn ∉ snap_open sn) (steps r)
     ∧ ∀ c, c ∈ path r → c ∈ snap_current <$> steps r).
Proof.
  intros Ha. apply astar_result in Ha as (_ & _ & _ & _ & Hoff & Hon).
  split; [exact Hoff|exact Hon].
Qed.

Lemma astar_trace_witness :
  ∃ r, astar world_mud (0, 0) (0, 2) true = Ret (Some r)
       ∧ length (steps r) = expanded r
       ∧ snap_current <$> steps r = [(0, 0); (1, 0); (0, 1); (0, 2)].
Proof.
  destruct (astar world_mud (0, 0) (0, 2) true) as [[r|]| |] eqn:Ha;
    try (vm_compute in Ha; discriminate Ha).
  exists r. split; [reflexivity|].
  split; [exact (proj1 (proj2 (astar_trace world_mud (0, 0) (0, 2) true r Ha)
                                eq_refl))|].
  vm_compute in Ha. injection Ha as <-. reflexivity.
Defined.

(** ** Degenerate calls of [astar] *)

Lemma astar_budget_S rows cols :
  0 ≤ rows → 0 ≤ cols → ∃ b, astar_budget rows cols = S b.
Proof.
  intros Hr Hc. unfold astar_budget.
  exists (Z.to_nat (4 * (rows * cols + 1) + 1)). nia.
Qed.

(** X6: [astar] on the empty grid raises [IndexError] (it reads [grid[0]]);
    on any grid with at least one row, a call with [goal] equal to [start]
    returns the one-cell path [[start]] with one expanded node, without
    looking at the grid, wherever [start] lies. *)
Theorem astar_degenerate :
  (∀ start goal record_steps,
     astar [] start goal record_steps = Exc IndexError)
  ∧ (∀ gr start record_steps,
       gr ≠ [] →
       ∃ r, astar gr start start record_steps = Ret (Some r)
            ∧ path r = [start] ∧ expanded r = 1%nat
            ∧ length (steps r) = if record_steps then 1%nat else 0%nat).
Proof.
  split; [done|]. intros gr start record_steps Hne.
  rewrite astar_unfold by done.
  destruct (grid_dims_nonneg gr) as [Hr Hc].
  destruct (astar_budget_S _ _ Hr Hc) as [b ->].
  cbn [astar_loop]. unfold astar_iter, astar_init, heappush.
  cbn [st_open_heap heappop heap_least remove_first].
  destruct (decide (_ = _)) as [_|Hx]; [|done].
  cbn [ent_cell snd st_closed_set].
  destruct (decide (start ∈ (∅ : gset cell))) as [Hin|_].
  { by apply not_elem_of_empty in Hin. }
  destruct (decide (start = start)) as [_|Hx]; [|done].
  cbn [reconstruct]. destruct (decide (start = start)) as [_|Hx]; [|done].
  cbn [obind]. eexists. split; [reflexivity|]. cbn [path expanded steps].
  split; [done|]. split.
  - rewrite size_union by set_solver. by rewrite size_empty, size_singleton.
  - by destruct record_steps.
Qed.

(** * The callers of the core *)

(** ** The web endpoint ([grid_to_json], [api_new]) *)

(** The configuration of [app.py]; the probabilities are the floats
    [0.16] and [0.3] as the rationals they are. *)
Definition ROWS : Z := 10.
Definition COLS : Z := 10.
Definition WALL_PROB : Q := 5764607523034235 # 36028797018963968.
Definition MUD_PROB : Q := 5404319552844595 # 18014398509481984.
Definition SEED : option Z := None.
Definition INCLUDE_STEPS : bool := false.

(** The dictionary [grid_to_json] builds. *)
Record grid_json : Type := {
  json_rows : Z;
  json_cols : Z;
  json_cells : grid
}.

Definition grid_to_json (gr : grid) : outcome grid_json :=
  let rows := py_len gr in
  let! row0 := py_getitem gr 0 in
  Ret {| json_rows := rows; json_cols := py_len row0; json_cells := gr |}.

(** The dictionary [api_new] hands to [jsonify] on success; ["steps"] is
    present only when [INCLUDE_STEPS] is set. *)
Record api_payload : Type := {
  out_grid : grid_json;
  out_start : cell;
  out_goal : cell;
  out_path : list cell;
  out_expanded : nat;
  out_steps : option (list snapshot)
}.

(** What [api_new] returns: the error dictionary with its status code, or
    the payload. *)
Inductive api_response : Type :=
| ApiError (message : string) (status : Z)
| ApiOk (out : api_payload).

Section Callers.
Context {rng : Type} `{RandomGen rng}.

(** [api_new], up to the call of [jsonify]; [fuel] bounds the loops of the
    placer as in [place_entities_on_grid], whose [max_place_tries] has its
    default 300. *)
Definition api_new (fuel : nat) (s : rng) : outcome (api_response * rng) :=
  let s0 := seeded SEED s in
  let! placed :=
    place_entities_on_grid fuel ROWS COLS WALL_PROB MUD_PROB SEED 300 s0 in
  let '(gr, start, goal, s1) := placed in
  let! res := astar gr start goal INCLUDE_STEPS in
  match res with
  | None => Ret (ApiError "no path found (unexpected)" 500, s1)
  | Some r =>
      let! gj := grid_to_json gr in
      Ret (ApiOk {| out_grid := gj;
                    out_start := start;
                    out_goal := goal;
                    out_path := path r;
                    out_expanded := expanded r;
                    out_steps :=
                      if INCLUDE_STEPS then Some (steps r) else None |},
           s1)
  end.

(** *** Grids the placer works on *)

(** A grid of [rows] rows of [cols] cells, [rows] and [cols] cut off at
    zero, as [generate_grid] builds them. *)
Definition shaped (rows cols : Z) (gr : grid) : Prop :=
  length gr = Z.to_nat rows ∧ Forall (λ row, length row = Z.to_nat cols) gr.

Lemma generate_grid_shaped rows cols wall_prob mud_prob seed (s : rng) gs :
  generate_grid rows cols wall_prob mud_prob seed s = Ret gs →
  shaped rows cols gs.1.
Proof.
  destruct (generate_grid_shape rows cols wall_prob mud_prob seed s)
    as (gr & s' & -> & Hl & Hrows & _).
  intros [= <-]. split; [done|].
  eapply Forall_impl; [exact Hrows|]. by intros row [? _].
Qed.

Lemma shaped_rectangular rows cols gr : shaped rows cols gr → rectangular gr.
Proof.
  intros [_ Hrows]. unfold rectangular. destruct gr as [|row0 gr]; [constructor|].
  pose proof Hrows as Hrows'. apply Forall_cons in Hrows' as [H0 _].
  eapply Forall_impl; [exact Hrows|]. intros row Hrow. simpl.
  unfold py_len. congruence.
Qed.

Lemma shaped_dims rows cols gr :
  shaped rows cols gr → gr ≠ [] →
  grid_rows gr = rows ∧ 0 < rows ∧ grid_cols gr = Z.max cols 0.
Proof.
  intros [Hl Hrows] Hne. destruct gr as [|row0 gr]; [done|].
  apply Forall_cons in Hrows as [H0 _].
  unfold grid_rows, grid_cols, py_len. simpl in *. lia.
Qed.

Lemma place_loop_shaped fuel rows cols wall_prob mud_prob max_place_tries
    gr tries (s : rng) gr' start goal s' :
  shaped rows cols gr →
  place_loop fuel rows cols wall_prob mud_prob max_place_tries gr tries s
  = Ret (gr', start, goal, s') →
  shaped rows cols gr'.
Proof.
  revert gr tries s. induction fuel as [|fuel IH]; intros gr tries s Hsh; [done|].
  cbn [place_loop].
  intros Hl. apply obind_Ret in Hl as ([a sa] & Ha & Hl).
  apply obind_Ret in Hl as ([b sb] & Hb & Hl). cbn [fst snd] in Hl.
  destruct (decide (a = b)) as [Hab|Hab].
  { destruct (_ <? _).
    - apply obind_Ret in Hl as (gs & Hg & Hl).
      eapply IH; [|exact Hl]. by eapply generate_grid_shaped.
    - by eapply IH. }
  apply obind_Ret in Hl as (ok & Hok & Hl).
  destruct ok.
  { by injection Hl as <- <- <- <-. }
  destruct (_ <? _).
  - apply obind_Ret in Hl as (gs & Hg & Hl).
    eapply IH; [|exact Hl]. by eapply generate_grid_shaped.
  - by eapply IH.
Qed.

(** The world the placer returns is one [astar] solves. *)
Lemma placed_world fuel rows cols wall_prob mud_prob seed max_place_tries
    (s : rng) gr start goal s' :
  place_entities_on_grid fuel rows cols wall_prob mud_prob seed
    max_place_tries s = Ret (gr, start, goal, s') →
  0 < rows ∧ 0 < cols
  ∧ py_len gr = rows ∧ Forall (λ row, py_len row = cols) gr
  ∧ rectangular gr
  ∧ start ≠ goal
  ∧ ∃ p, valid_path gr start goal p.
Proof.
  unfold place_entities_on_grid. intros Hp.
  apply obind_Ret in Hp as (gs & Hg & Hp).
  pose proof (place_loop_shaped _ _ _ _ _ _ _ _ _ _ _ _ _
                (generate_grid_shaped _ _ _ _ _ _ _ Hg) Hp) as Hsh.
  apply place_loop_spec in Hp as (Hne & Hsb & Hso & _ & _ & Hreach).
  pose proof (in_bounds_nonempty _ _ Hsb) as Hnil.
  destruct (shaped_dims _ _ _ Hsh Hnil) as (Hr & Hr0 & Hc).
  assert (Hc0 : 0 < cols).
  { destruct Hsb as [_ Hcb]. lia. }
  split; [done|]. split; [done|]. split; [done|].
  split.
  { destruct Hsh as [_ Hrows]. eapply Forall_impl; [exact Hrows|].
    intros row Hrow. simpl in *. unfold py_len. lia. }
  split; [by eapply shaped_rectangular|]. split; [done|].
  apply ensure_reachable_sound in Hreach as (l & k & Hw).
  exists l. by eapply walk_valid_path.
Qed.

End Callers.

(** On a rectangular grid with a valid path [astar] returns a valid path
    of least cost. *)
Lemma astar_on_valid gr start goal record_steps p0 :
  rectangular gr → valid_path gr start goal p0 →
  ∃ r, astar gr start goal record_steps = Ret (Some r)
       ∧ valid_path gr start goal (path r)
       ∧ ∀ p, valid_path gr start goal p →
              path_cost gr (path r) ≤ path_cost gr p.
Proof.
  intros Hrect Hp0.
  destruct (valid_path_start _ _ _ _ Hp0) as [Hsb Hso].
  destruct (astar_finds_path gr start goal record_steps p0 Hrect Hp0)
    as [r Hr].
  exists r. split; [done|].
  apply astar_found_least in Hr as (k & Hw & Hmin).
  split; [by eapply walk_valid_path|].
  intros p Hp. apply valid_path_walk in Hp.
  rewrite (walk_path_cost _ _ _ _ _ _ _ Hw). by eapply Hmin.
Qed.

(** X7: the placer and the solver compose: whenever
    [place_entities_on_grid] returns a world, the grid has the requested
    [rows] × [cols] shape, and [astar] on that world returns a path (never
    the not-found result, never an exception) from [start] to [goal] of
    at least two cells and of least cost.  The "no path found
    (unexpected)" branches of [api_new] and of the terminal [main] are
    dead. *)
Theorem placed_world_solved {rng : Type} `{RandomGen rng}
    (fuel : nat) (rows cols : Z) (wall_prob mud_prob : Q) (seed : option Z)
    (max_place_tries : Z) (s : rng) gr start goal s' record_steps :
  place_entities_on_grid fuel rows cols wall_prob mud_prob seed
    max_place_tries s = Ret (gr, start, goal, s') →
  py_len gr = rows ∧ Forall (λ row, py_len row = cols) gr
  ∧ ∃ r, astar gr start goal record_steps = Ret (Some r)
         ∧ valid_path gr start goal (path r)
         ∧ (2 ≤ length (path r))%nat
         ∧ ∀ p, valid_path gr start goal p →
                path_cost gr (path r) ≤ path_cost gr p.
Proof.
  intros Hp.
  apply placed_world in Hp as (_ & _ & Hr & Hc & Hrect & Hne & p0 & Hp0).
  split; [done|]. split; [done|].
  destruct (astar_on_valid gr start goal record_steps p0 Hrect Hp0)
    as (r & Hr' & Hv & Hmin).
  exists r. split; [done|]. split; [done|]. split; [|done].
  destruct Hv as (Hh & Hl & _). destruct (path r) as [|a [|b l]]; simpl in *.
  - done.
  - congruence.
  - lia.
Qed.

Lemma placed_world_solved_witness :
  ∃ gr start goal s',
    place_entities_on_grid 3 2 2 (1 # 5) (3 # 10) (Some 7) 300
      [100; 500; 200; 900; 900; 900; 900; 1; 1; 1; 1; 0; 0; 0; 1; 1; 1]
    = Ret (gr, start, goal, s')
    ∧ ∃ r, astar gr start goal false = Ret (Some r)
           ∧ valid_path gr start goal (path r).
Proof.
  destruct (place_entities_on_grid 3 2 2 (1 # 5) (3 # 10) (Some 7) 300
      [100; 500; 200; 900; 900; 900; 900; 1; 1; 1; 1; 0; 0; 0; 1; 1; 1])
    as [[[[gr start] goal] s']| |] eqn:Hp;
    try (vm_compute in Hp; discriminate Hp).
  exists gr, start, goal, s'. split; [reflexivity|].
  destruct (placed_world_solved _ _ _ _ _ _ _ _ _ _ _ _ false Hp)
    as (_ & _ & r & Hr & Hv & _).
  exists r. split; [exact Hr|exact Hv].
Defined.

(** Whenever [api_new] returns, it returns the payload. *)
Lemma api_new_payload {rng : Type} `{RandomGen rng}
    (fuel : nat) (s : rng) resp s' :
  api_new fuel s = Ret (resp, s') →
  ∃ out, resp = ApiOk out
    ∧ json_rows (out_grid out) = 10 ∧ json_cols (out_grid out) = 10
    ∧ Forall (λ row, py_len row = 10) (json_cells (out_grid out))
    ∧ out_start out ≠ out_goal out
    ∧ valid_path (json_cells (out_grid out)) (out_start out) (out_goal out)
        (out_path out)
    ∧ (∀ p, valid_path (json_cells (out_grid out)) (out_start out)
              (out_goal out) p →
            path_cost (json_cells (out_grid out)) (out_path out)
            ≤ path_cost (json_cells (out_grid out)) p)
    ∧ (length (out_path out) ≤ out_expanded out)%nat
    ∧ out_steps out = None.
Proof.
  unfold api_new. intros Ha.
  apply obind_Ret in Ha as ([[[gr start] goal] s1] & Hp & Ha).
  apply placed_world in Hp as (_ & _ & Hr & Hc & Hrect & Hne & p0 & Hp0).
  destruct (astar_on_valid gr start goal INCLUDE_STEPS p0 Hrect Hp0)
    as (r & Hr' & Hv & Hmin).
  rewrite Hr' in Ha. cbn [obind] in Ha.
  unfold grid_to_json in Ha.
  destruct gr as [|row0 gr0] eqn:Hgr; [done|]. rewrite <- Hgr in *.
  rewrite py_getitem_first, Hgr in Ha. rewrite <- Hgr in Ha.
  cbn [obind] in Ha. injection Ha as <- <-.
  eexists. split; [reflexivity|]. cbn.
  split; [done|]. split.
  { rewrite Hgr in Hc. by apply Forall_cons in Hc as [? _]. }
  split; [done|]. split; [done|]. split; [done|]. split; [done|].
  split; [|done].
  by apply astar_result in Hr' as (_ & Hlen & _).
Qed.

(** Draws that give a 10 × 10 grid of normal tiles and then the cells
    (0,0) and (1,1). *)
Definition plain_draws : list Z := replicate 200 500 ++ [0; 0; 1; 1].


(** ** Where the placer fails and where it never returns *)

(** Every tile of the grid is a wall. *)
Definition all_walls (gr : grid) : Prop :=
  Forall (Forall (λ t, t = TILE_WALL)) gr.

Lemma all_walls_at gr r c :
  all_walls gr → 0 ≤ r → 0 ≤ c →
  grid_at gr r c = Ret TILE_WALL ∨ grid_at gr r c = Exc IndexError.
Proof.
  intros Hall Hr Hc. unfold grid_at. rewrite py_getitem_nonneg by done.
  destruct (gr !! Z.to_nat r) as [row|] eqn:Hrow; simpl; [|by right].
  rewrite py_getitem_nonneg by done.
  destruct (row !! Z.to_nat c) as [t|] eqn:Ht; [|by right]. left. f_equal.
  unfold all_walls in Hall. rewrite Forall_forall in Hall.
  assert (Hin : row ∈ gr) by (by eapply list_elem_of_lookup_2).
  specialize (Hall row Hin). rewrite Forall_forall in Hall.
  apply Hall. by eapply list_elem_of_lookup_2.
Qed.

Section PlacerEdges.
Context {rng : Type} `{RandomGen rng}.

Lemma random_empty_cell_loop_walls fuel gr (s : rng) :
  rectangular gr → all_walls gr → 0 < grid_rows gr → 0 < grid_cols gr →
  random_empty_cell_loop fuel gr (grid_rows gr) (grid_cols gr) s = OutOfFuel.
Proof.
  intros Hrect Hall Hrows Hcols. revert s.
  induction fuel as [|fuel IH]; intros s; [done|].
  cbn [random_empty_cell_loop].
  destruct (py_randrange (grid_rows gr) s) as [rs| |] eqn:Hr.
  2,3: unfold py_randrange in Hr;
       destruct (Z.leb_spec (grid_rows gr) 0); [lia|done].
  cbn [obind].
  destruct (py_randrange (grid_cols gr) rs.2) as [cs| |] eqn:Hc.
  2,3: unfold py_randrange in Hc;
       destruct (Z.leb_spec (grid_cols gr) 0); [lia|done].
  cbn [obind].
  apply py_randrange_Ret in Hr, Hc.
  destruct (grid_at_in_bounds gr rs.1 cs.1 Hrect) as [t Ht]; [done|].
  destruct (all_walls_at gr rs.1 cs.1 Hall) as [Hw|Hw]; [lia|lia| |congruence].
  rewrite Hw. cbn [obind]. destruct (decide _) as [Hne|_]; [done|]. apply IH.
Qed.

Lemma random_empty_cell_empty_row fuel gr (s : rng) :
  random_empty_cell (S fuel) ([] :: gr) s = Exc ValueError.
Proof.
  unfold random_empty_cell.
  rewrite py_getitem_first. cbn [obind random_empty_cell_loop].
  unfold py_randrange at 1. unfold py_len. cbn [length].
  destruct (Z.leb_spec (Z.of_nat (S (length gr))) 0); [lia|].
  cbn [obind]. reflexivity.
Qed.

Lemma random_empty_cell_walls fuel gr (s : rng) :
  rectangular gr → all_walls gr → 0 < grid_rows gr → 0 < grid_cols gr →
  random_empty_cell fuel gr s = OutOfFuel.
Proof.
  intros Hrect Hall Hr Hc. unfold random_empty_cell.
  destruct gr as [|row0 gr0] eqn:Hgr.
  { unfold grid_rows, py_len in Hr. simpl in Hr. lia. }
  rewrite py_getitem_first. cbn [obind]. rewrite <- Hgr in *.
  replace (py_len row0) with (grid_cols gr) by (by rewrite Hgr).
  by apply random_empty_cell_loop_walls.
Qed.

(** X8: [random_empty_cell] at its edges: the empty grid raises
    [IndexError]; a grid whose first row is empty raises [ValueError]
    (from [randrange(0)]); on a rectangular grid of walls with at least
    one cell no number of redraws makes it return; and what it returns is
    always in bounds and not a wall. *)
Theorem random_empty_cell_edges :
  (∀ fuel (s : rng), random_empty_cell fuel [] s = Exc IndexError)
  ∧ (∀ fuel gr (s : rng),
       random_empty_cell (S fuel) ([] :: gr) s = Exc ValueError)
  ∧ (∀ fuel gr (s : rng),
       rectangular gr → all_walls gr → 0 < grid_rows gr → 0 < grid_cols gr →
       random_empty_cell fuel gr s = OutOfFuel)
  ∧ (∀ fuel gr (s : rng) c s',
       random_empty_cell fuel gr s = Ret (c, s') →
       in_bounds (grid_rows gr) (grid_cols gr) c ∧ open_tile gr c).
Proof.
  split; [done|]. split; [|split].
  - apply random_empty_cell_empty_row.
  - apply random_empty_cell_walls.
  - intros fuel gr s c s'. apply random_empty_cell_spec.
Qed.

Lemma spec_cells_walls n wall_prob mud_prob (s : rng) :
  (∀ s0 : rng, Qltb (random_random s0).1 wall_prob = true) →
  Forall (λ t, t = TILE_WALL) (spec_cells n wall_prob mud_prob s).1.
Proof.
  intros Hdraw. revert s. induction n as [|n IH]; intros s; [constructor|].
  cbn [spec_cells]. unfold spec_cell. specialize (Hdraw s).
  destruct (random_random s) as [u s1]. simpl in Hdraw. rewrite Hdraw.
  specialize (IH s1). destruct (spec_cells n wall_prob mud_prob s1) as [l s2].
  simpl in *. by constructor.
Qed.

Lemma spec_rows_walls n cols wall_prob mud_prob (s : rng) :
  (∀ s0 : rng, Qltb (random_random s0).1 wall_prob = true) →
  all_walls (spec_rows n cols wall_prob mud_prob s).1.
Proof.
  intros Hdraw. revert s. induction n as [|n IH]; intros s; [constructor|].
  cbn [spec_rows].
  pose proof (spec_cells_walls cols wall_prob mud_prob s Hdraw) as Hrow.
  destruct (spec_cells cols wall_prob mud_prob s) as [row s1].
  specialize (IH s1). destruct (spec_rows n cols wall_prob mud_prob s1) as [l s2].
  simpl in *. by constructor.
Qed.

Lemma random_empty_cell_loop_no_exc fuel gr (s : rng) e :
  rectangular gr → 0 < grid_rows gr → 0 < grid_cols gr →
  random_empty_cell_loop fuel gr (grid_rows gr) (grid_cols gr) s ≠ Exc e.
Proof.
  intros Hrect Hrows Hcols. revert s.
  induction fuel as [|fuel IH]; intros s; [done|].
  cbn [random_empty_cell_loop].
  destruct (py_randrange (grid_rows gr) s) as [rs| |] eqn:Hr.
  2,3: unfold py_randrange in Hr;
       destruct (Z.leb_spec (grid_rows gr) 0); [lia|done].
  cbn [obind].
  destruct (py_randrange (grid_cols gr) rs.2) as [cs| |] eqn:Hc.
  2,3: unfold py_randrange in Hc;
       destruct (Z.leb_spec (grid_cols gr) 0); [lia|done].
  cbn [obind].
  apply py_randrange_Ret in Hr, Hc.
  destruct (grid_at_in_bounds gr rs.1 cs.1 Hrect) as [t ->]; [done|].
  cbn [obind]. destruct (decide _); [done|]. apply IH.
Qed.

Lemma shaped_cells rows cols gr :
  0 < rows → 0 < cols → shaped rows cols gr →
  gr ≠ [] ∧ rectangular gr ∧ grid_rows gr = rows ∧ grid_cols gr = cols.
Proof.
  intros Hrows Hcols Hsh.
  assert (Hne : gr ≠ []).
  { intros ->. destruct Hsh as [Hl _]. simpl in Hl. lia. }
  destruct (shaped_dims _ _ _ Hsh Hne) as (Hr & _ & Hc).
  split; [done|]. split; [by eapply shaped_rectangular|]. split; [done|lia].
Qed.

Lemma random_empty_cell_no_exc fuel rows cols gr (s : rng) e :
  0 < rows → 0 < cols → shaped rows cols gr →
  random_empty_cell fuel gr s ≠ Exc e.
Proof.
  intros Hrows Hcols Hsh.
  destruct (shaped_cells _ _ _ Hrows Hcols Hsh) as (Hne & Hrect & Hr & Hc).
  unfold random_empty_cell. destruct gr as [|row0 gr0] eqn:Hgr; [done|].
  rewrite py_getitem_first. cbn [obind]. rewrite <- Hgr in *.
  replace (py_len row0) with (grid_cols gr) by (by rewrite Hgr).
  apply random_empty_cell_loop_no_exc; [done|lia|lia].
Qed.

Lemma place_loop_no_exc fuel rows cols wall_prob mud_prob max_place_tries
    gr tries (s : rng) e :
  0 < rows → 0 < cols → shaped rows cols gr →
  place_loop fuel rows cols wall_prob mud_prob max_place_tries gr tries s
  ≠ Exc e.
Proof.
  intros Hrows Hcols. revert gr tries s.
  induction fuel as [|fuel IH]; intros gr tries s Hsh; [done|].
  destruct (shaped_cells _ _ _ Hrows Hcols Hsh) as (Hne & Hrect & _ & _).
  assert (Hregen : ∀ s0 : rng,
    (let! gs := generate_grid rows cols wall_prob mud_prob None s0 in
     place_loop fuel rows cols wall_prob mud_prob max_place_tries gs.1 0 gs.2)
    ≠ Exc e).
  { intros s0.
    pose proof (generate_grid_shaped rows cols wall_prob mud_prob None s0) as Hg.
    rewrite generate_grid_spec in *. cbn [obind]. apply IH. by apply Hg. }
  cbn [place_loop].
  destruct (random_empty_cell (S fuel) gr s) as [a|e'|] eqn:Ha; cbn [obind];
    [|exfalso; exact (random_empty_cell_no_exc _ _ _ _ _ _ Hrows Hcols Hsh Ha)
     |done].
  destruct (random_empty_cell (S fuel) gr a.2) as [b|e'|] eqn:Hb; cbn [obind];
    [|exfalso; exact (random_empty_cell_no_exc _ _ _ _ _ _ Hrows Hcols Hsh Hb)
     |done].
  destruct (decide (a.1 = b.1)).
  { destruct (_ <? _); [apply Hregen|by apply IH]. }
  destruct (ensure_reachable_walk gr a.1 b.1 Hrect Hne) as (ok & -> & _).
  cbn [obind]. destruct ok; [done|].
  destruct (_ <? _); [apply Hregen|by apply IH].
Qed.

(** X9: [place_entities_on_grid] raises exactly when it is asked for a grid
    without cells: with no rows ([rows <= 0]) the first
    [random_empty_cell] raises [IndexError] at [grid[0]]; with rows but no
    columns it raises [ValueError] at [randrange(0)]; with at least one
    row and one column it raises nothing, however long it runs. *)
Theorem place_entities_no_cells
    (fuel : nat) (rows cols : Z) (wall_prob mud_prob : Q) (seed : option Z)
    (max_place_tries : Z) (s : rng) :
  (rows ≤ 0 →
   place_entities_on_grid (S fuel) rows cols wall_prob mud_prob seed
     max_place_tries s = Exc IndexError)
  ∧ (0 < rows → cols ≤ 0 →
     place_entities_on_grid (S fuel) rows cols wall_prob mud_prob seed
       max_place_tries s = Exc ValueError)
  ∧ (0 < rows → 0 < cols →
     ∀ e, place_entities_on_grid fuel rows cols wall_prob mud_prob seed
            max_place_tries s ≠ Exc e).
Proof.
  unfold place_entities_on_grid.
  pose proof (generate_grid_shaped rows cols wall_prob mud_prob seed s) as Hsh.
  rewrite generate_grid_spec in *. cbn [obind].
  split; [|split].
  - intros Hrows. replace (Z.to_nat rows) with O by lia. reflexivity.
  - intros Hrows Hcols. replace (Z.to_nat cols) with O by lia.
    destruct (Z.to_nat rows) as [|n] eqn:Hn; [lia|].
    cbn [spec_rows spec_cells].
    destruct (spec_rows n 0 wall_prob mud_prob (seeded seed s)) as [rest s2].
    cbn [fst snd place_loop].
    by rewrite random_empty_cell_empty_row.
  - intros Hrows Hcols e. apply place_loop_no_exc; [done|done|].
    by apply Hsh.
Qed.

(** X10: when every draw of [random()] falls below the wall probability (as
    with [wall_prob >= 1], since [random()] is below one), the generated
    grid has only walls and [place_entities_on_grid] never returns: it
    stays in the first [random_empty_cell], whatever number of iterations
    it is given, and raises nothing. *)
Theorem place_entities_all_walls
    (rows cols : Z) (wall_prob mud_prob : Q) (seed : option Z)
    (max_place_tries : Z) (s : rng) :
  (∀ s0 : rng, Qltb (random_random s0).1 wall_prob = true) →
  0 < rows → 0 < cols →
  ∀ fuel,
    place_entities_on_grid fuel rows cols wall_prob mud_prob seed
      max_place_tries s = OutOfFuel.
Proof.
  intros Hdraw Hrows Hcols fuel. unfold place_entities_on_grid.
  pose proof (generate_grid_shaped rows cols wall_prob mud_prob seed s) as Hsh.
  rewrite generate_grid_spec in *. specialize (Hsh _ eq_refl).
  pose proof (spec_rows_walls (Z.to_nat rows) (Z.to_nat cols) wall_prob
                mud_prob (seeded seed s) Hdraw) as Hall.
  cbn [obind].
  destruct (spec_rows _ _ _ _ _) as [gr s1]. cbn [fst snd] in *.
  destruct fuel as [|fuel]; [done|]. cbn [place_loop].
  assert (Hne : gr ≠ []).
  { intros ->. destruct Hsh as [Hl _]. simpl in Hl. lia. }
  destruct (shaped_dims _ _ _ Hsh Hne) as (Hr & _ & Hc).
  rewrite random_empty_cell_walls; [done| |done|lia|lia].
  by eapply shaped_rectangular.
Qed.

End PlacerEdges.

Lemma list_rng_below_one (s : list Z) :
  Qltb (random_random s).1 1 = true.
Proof.
  unfold Qltb, Qle_bool. simpl. apply negb_true_iff, Z.leb_gt.
  pose proof (Z.mod_pos_bound (list_draw s).1 1000). lia.
Qed.

Lemma place_entities_all_walls_witness :
  place_entities_on_grid 50 3 3 1 (1 # 2) None 300 [7; 8; 9] = OutOfFuel.
Proof.
  apply (place_entities_all_walls 3 3 1 (1 # 2) None 300 [7; 8; 9]);
    [exact list_rng_below_one | lia | lia].
Defined.

(** ** What [api_new] can answer *)

Lemma api_new_no_exc {rng : Type} `{RandomGen rng} (fuel : nat) (s : rng) e :
  api_new fuel s ≠ Exc e.
Proof.
  unfold api_new.
  destruct (place_entities_on_grid fuel ROWS COLS WALL_PROB MUD_PROB SEED 300
              (seeded SEED s)) as [[[[gr start] goal] s1]|e'|] eqn:Hp;
    cbn [obind]; [| |done].
  - apply placed_world in Hp as (_ & _ & _ & _ & Hrect & _ & p0 & Hp0).
    destruct (astar_on_valid gr start goal INCLUDE_STEPS p0 Hrect Hp0)
      as (r & -> & _). cbn [obind].
    destruct (valid_path_start _ _ _ _ Hp0) as [Hsb _].
    apply in_bounds_nonempty in Hsb.
    unfold grid_to_json. rewrite py_getitem_first.
    destruct gr; [done|]. done.
  - exfalso. revert Hp. unfold place_entities_on_grid.
    pose proof (generate_grid_shaped ROWS COLS WALL_PROB MUD_PROB SEED
                  (seeded SEED s)) as Hsh.
    rewrite generate_grid_spec in *. cbn [obind].
    apply place_loop_no_exc; [done|done|]. by apply Hsh.
Qed.

(** X11: [api_new] raises nothing and never answers with its error: as long
    as the placer has not returned it is still running, and otherwise it
    returns the payload, for a 10 × 10 grid, with distinct [start] and
    [goal], a valid path of least cost between them, the number of
    expanded nodes, and no ["steps"] entry. *)
Theorem api_new_never_errors {rng : Type} `{RandomGen rng}
    (fuel : nat) (s : rng) :
  api_new fuel s = OutOfFuel
  ∨ ∃ out s',
      api_new fuel s = Ret (ApiOk out, s')
      ∧ json_rows (out_grid out) = 10 ∧ json_cols (out_grid out) = 10
      ∧ Forall (λ row, py_len row = 10) (json_cells (out_grid out))
      ∧ out_start out ≠ out_goal out
      ∧ valid_path (json_cells (out_grid out)) (out_start out) (out_goal out)
          (out_path out)
      ∧ (∀ p, valid_path (json_cells (out_grid out)) (out_start out)
                (out_goal out) p →
              path_cost (json_cells (out_grid out)) (out_path out)
              ≤ path_cost (json_cells (out_grid out)) p)
      ∧ (length (out_path out) ≤ out_expanded out)%nat
      ∧ out_steps out = None.
Proof.
  destruct (api_new fuel s) as [[resp s']|e|] eqn:Ha; [right| |by left].
  - destruct (api_new_payload fuel s resp s' Ha) as (out & -> & Hout).
    exists out, s'. split; [done|exact Hout].
  - by apply api_new_no_exc in Ha.
Qed.

Lemma api_new_never_errors_witness :
  ∃ out s', api_new 1 plain_draws = Ret (ApiOk out, s')
            ∧ out_start out = (0, 0) ∧ out_goal out = (1, 1)
            ∧ out_steps out = None.
Proof.
  destruct (api_new_never_errors 1 plain_draws)
    as [Hf|(out & s' & Ha & _ & _ & _ & _ & _ & _ & _ & Hst)].
  { vm_compute in Hf. discriminate Hf. }
  exists out, s'. split; [exact Ha|].
  vm_compute in Ha. injection Ha as <- <-. split; [reflexivity|].
  split; reflexivity.
Defined.

(** ** The reachability check and the search agree *)

(** X12: on a rectangular grid with at least one row both functions return,
    whatever the endpoints, and [ensure_reachable] answers [True] exactly
    when [astar] finds a path: the placer's filter lets through the
    worlds the solver solves, and only those. *)
Theorem ensure_reachable_agrees_astar gr start goal record_steps :
  rectangular gr → gr ≠ [] →
  ∃ b o, ensure_reachable gr start goal = Ret b
         ∧ astar gr start goal record_steps = Ret o
         ∧ (b = true ↔ is_Some o).
Proof.
  intros Hrect Hne.
  destruct (ensure_reachable_walk gr start goal Hrect Hne) as (b & Hb & Hiff).
  destruct (astar_returns gr start goal record_steps Hrect Hne) as [o Ho].
  exists b, o. split; [done|]. split; [done|]. rewrite Hiff. split.
  - intros (l & k & Hw). destruct o as [r|]; [by eexists|].
    rewrite astar_unfold in Ho by done.
    eapply astar_loop_not_found in Ho; [|apply Inv_init]. by destruct Ho.
  - intros [r ->]. apply astar_found_walk in Ho as [k Hw]. eauto.
Qed.

Lemma ensure_reachable_agrees_astar_witness :
  ∃ b o, ensure_reachable world_split (0, 0) (0, 2) = Ret b
         ∧ astar world_split (0, 0) (0, 2) false = Ret o
         ∧ (b = true ↔ is_Some o).
Proof.
  apply (ensure_reachable_agrees_astar world_split (0, 0) (0, 2) false).
  - exact world_split_rectangular.
  - discriminate.
Defined.

(** ** What the recorded snapshots hold *)

Section TraceProofs.
Variables (gr : grid) (rows cols : Z) (start goal : cell).
Variables (budget : nat) (record_steps : bool).

Local Abbreviation walk := (walk gr rows cols start).
Local Abbreviation Inv := (Inv gr rows cols start goal no_exempt).
Local Abbreviation Mid := (Mid gr rows cols start goal).
Local Abbreviation iter :=
  (astar_iter budget gr rows cols start goal record_steps).

(** The open and the closed set share no cell, together they are the
    keys of [g], and every value of [g] is the cost of a walk from
    [start] to its key. *)
Definition split_sets (g : gmap cell Z) (op cl : gset cell) : Prop :=
  op ## cl ∧ dom g = op ∪ cl ∧ ∀ u x, g !! u = Some x → ∃ l, walk l u x.

(** The value [g] holds for [u] is at most the cost of any walk to
    [u]. *)
Definition least_cost (g : gmap cell Z) (u : cell) : Prop :=
  ∀ x l k, g !! u = Some x → walk l u k → x ≤ k.

Definition snap_exact (sn : snapshot) : Prop :=
  split_sets (snap_g sn) (snap_open sn) (snap_closed sn)
  ∧ ∀ u, u ∈ snap_closed sn → least_cost (snap_g sn) u.

Definition Ledger (st : search) : Prop :=
  split_sets (st_g st) (st_open_set st) (st_closed_set st)
  ∧ Forall snap_exact (st_steps st).

Lemma Ledger_init : Ledger (astar_init start goal).
Proof.
  split; [|constructor]. split; [|split]; simpl.
  - apply disjoint_empty_r.
  - rewrite dom_singleton_L. by rewrite union_empty_r_L.
  - intros u x Hu. apply lookup_singleton_Some in Hu as [<- <-].
    exists [start]. constructor.
Qed.

(** A closed cell is never put back into the open set. *)
Lemma relax_split current d ds st st' :
  d ∈ DIRS →
  Mid current (d :: ds) st →
  split_sets (st_g st) (st_open_set st) (st_closed_set st) →
  relax gr rows cols goal current st d = Ret st' →
  split_sets (st_g st') (st_open_set st') (st_closed_set st').
Proof.
  intros Hd (HI & Hcur & _) (Hdisj & Hdom & Hreal) Hr.
  apply relax_Ret in Hr. cbv zeta in Hr.
  destruct Hr as [[_ ->] | (Hin & Hop & gc & Hgc & [[_ ->] | [Himp ->]])];
    [done|done|].
  set (n := (current.1 + d.1, current.2 + d.2)) in *.
  assert (He : edge gr rows cols current n).
  { split; [|done]. exists d. done. }
  destruct (Hreal _ _ Hgc) as [l Hw].
  pose proof (walk_snoc _ _ _ _ _ _ _ _ Hw He) as Hw'.
  assert (Hn : n ∉ st_closed_set st).
  { intros Hn.
    destruct (inv_closed_g _ _ _ _ _ _ _ HI _ Hn) as [y Hy].
    rewrite Hy in Himp. apply improves_true in Himp as [|(y' & [= <-] & Hlt)];
      [done|].
    pose proof (inv_closed_opt _ _ _ _ _ _ _ HI _ _ _ _ Hn Hy Hw'). lia. }
  unfold improved. split; [|split]; simpl.
  - intros c Hc Hc'. apply elem_of_union in Hc as [Hc|Hc].
    + by apply (Hdisj c).
    + apply elem_of_singleton in Hc as ->. done.
  - rewrite dom_insert_L, Hdom. apply set_eq. intros c.
    rewrite !elem_of_union, elem_of_singleton. tauto.
  - intros u x Hu. apply lookup_insert_Some in Hu as [[<- <-]|[_ Hu]]; eauto.
Qed.

Lemma for_each_relax_split current ds st st' :
  (∀ d, d ∈ ds → d ∈ DIRS) →
  Mid current ds st →
  split_sets (st_g st) (st_open_set st) (st_closed_set st) →
  for_each (relax gr rows cols goal current) ds st = Ret st' →
  split_sets (st_g st') (st_open_set st') (st_closed_set st').
Proof.
  revert st. induction ds as [|d ds IH]; intros st Hds HM Hsp; simpl.
  - by intros [= <-].
  - intros Hf. apply obind_Ret in Hf as (st1 & Hr & Hf).
    assert (Hd : d ∈ DIRS) by (apply Hds; by left).
    apply (IH st1); [|by eapply relax_Mid|by eapply relax_split|done].
    intros d' Hd'. apply Hds. by right.
Qed.

(** The snapshot taken when a popped cell is closed. *)
Lemma closing_exact st e h' :
  Inv st →
  heappop (st_open_heap st) = Some (e, h') →
  ent_cell e ∉ st_closed_set st →
  split_sets (st_g st) (st_open_set st) (st_closed_set st) →
  snap_exact {| snap_current := ent_cell e;
                snap_open := st_open_set st ∖ {[ent_cell e]};
                snap_closed := st_closed_set st ∪ {[ent_cell e]};
                snap_g := st_g st |}
  ∧ split_sets (st_g st) (st_open_set st ∖ {[ent_cell e]})
      (st_closed_set st ∪ {[ent_cell e]}).
Proof.
  intros HI Hp Hc (Hdisj & Hdom & Hreal).
  pose proof (λ x l k, pop_optimal _ _ _ _ _ st e h' x l k HI Hp Hc) as Hopt.
  apply heappop_spec in Hp as (Hin & _ & _).
  destruct (inv_heap _ _ _ _ _ _ _ HI e Hin) as (gc & Hgc & _ & _).
  assert (Hsp : split_sets (st_g st) (st_open_set st ∖ {[ent_cell e]})
                  (st_closed_set st ∪ {[ent_cell e]})).
  { split; [|split; [|done]].
    - intros c Ho Hcl. apply elem_of_difference in Ho as [Ho Hne].
      apply elem_of_union in Hcl as [Hcl|Hcl]; [by apply (Hdisj c)|done].
    - rewrite Hdom. apply set_eq. intros c.
      rewrite !elem_of_union, elem_of_difference, elem_of_singleton.
      split; [|intros [[? _]|[?| ->]]; auto].
      + intros [?|?]; [|auto]. destruct (decide (c = ent_cell e)); auto.
      + apply elem_of_dom_2 in Hgc. rewrite Hdom in Hgc.
        by apply elem_of_union in Hgc. }
  split; [|done]. split; [done|]. simpl. intros u Hu x l k Hx Hw.
  apply elem_of_union in Hu as [Hu|Hu].
  - by apply (inv_closed_opt _ _ _ _ _ _ _ HI u x l k).
  - apply elem_of_singleton in Hu as ->. by eapply Hopt.
Qed.

Lemma Ledger_Next st st' :
  Inv st → Ledger st → iter st = Ret (Next st') → Ledger st'.
Proof.
  intros HI [Hsp Hsteps]. unfold astar_iter.
  destruct (heappop (st_open_heap st)) as [[e h']|] eqn:Hp; [|done].
  destruct (decide (ent_cell e ∈ st_closed_set st)) as [Hc|Hc].
  { intros [= <-]. by split. }
  destruct (decide (ent_cell e = goal)) as [Hg|Hg].
  { destruct (reconstruct _ _ _ _ _); done. }
  intros Hf. apply obind_Ret in Hf as (st1 & Hf & [= <-]).
  destruct (closing_exact st e h' HI Hp Hc Hsp) as [Hsn Hsp'].
  pose proof (for_each_relax_frame _ _ _ _ _ _ _ _ Hf) as [_ Hst].
  split.
  - eapply for_each_relax_split; [| | |exact Hf]; [done| |exact Hsp'].
    by apply close_Mid.
  - rewrite Hst. simpl. destruct record_steps; [|done].
    apply Forall_app. split; [done|]. by apply Forall_singleton.
Qed.

Lemma Ledger_Done st r :
  Inv st → Ledger st → iter st = Ret (Done (Some r)) →
  Forall snap_exact (steps r).
Proof.
  intros HI [Hsp Hsteps]. unfold astar_iter.
  destruct (heappop (st_open_heap st)) as [[e h']|] eqn:Hp; [|done].
  destruct (decide (ent_cell e ∈ st_closed_set st)) as [Hc|Hc]; [done|].
  destruct (decide (ent_cell e = goal)) as [Hg|Hg].
  2: { destruct (for_each _ _ _); done. }
  intros Hf. apply obind_Ret in Hf as (p & _ & [= <-]). simpl.
  destruct (closing_exact st e h' HI Hp Hc Hsp) as [Hsn _].
  destruct record_steps; [|done].
  apply Forall_app. split; [done|]. by apply Forall_singleton.
Qed.

End TraceProofs.

Lemma astar_snapshots gr start goal record_steps r :
  astar gr start goal record_steps = Ret (Some r) →
  Forall (snap_exact gr (grid_rows gr) (grid_cols gr) start) (steps r).
Proof.
  intros Ha. destruct gr as [|row0 gr0] eqn:Hgr; [done|]. rewrite <- Hgr in *.
  rewrite astar_unfold in Ha by (by rewrite Hgr).
  eapply (astar_loop_last _ _ _ _ _ _ _
            (Ledger gr (grid_rows gr) (grid_cols gr) start))
    in Ha as (st & HI & HL & Hit).
  - by eapply Ledger_Done.
  - intros st st' HI HL Hn. by eapply Ledger_Next.
  - apply Inv_init.
  - apply Ledger_init.
Qed.



(** ** Sprite-sheet segmentation ([cropImage/crop.py]) *)

(** The locals of [find_segments_1d] across its loop. *)
Record seg_state : Type := {
  seg_segs : list (Z * Z);
  seg_inside : bool;
  seg_start : Z
}.

(** [enumerate(l)] *)
Definition enumerate {A} (l : list A) : list (Z * A) :=
  imap (λ i x, (Z.of_nat i, x)) l.

(** The body of [for i, v in enumerate(bool_arr)]. *)
Definition seg_step (min_len : Z) (st : seg_state) (iv : Z * bool)
  : seg_state :=
  let i := iv.1 in
  let v := iv.2 in
  if v && negb (seg_inside st) then
    {| seg_segs := seg_segs st; seg_inside := true; seg_start := i |}
  else if negb v && seg_inside st then
    let end_ := i - 1 in
    {| seg_segs := if min_len <=? end_ - seg_start st + 1
                   then seg_segs st ++ [(seg_start st, end_)]
                   else seg_segs st;
       seg_inside := false;
       seg_start := seg_start st |}
  else st.

Definition seg_scan (min_len : Z) (bool_arr : list bool) : seg_state :=
  foldl (seg_step min_len)
    {| seg_segs := []; seg_inside := false; seg_start := 0 |}
    (enumerate bool_arr).

Definition find_segments_1d (bool_arr : list bool) (min_len : Z)
  : list (Z * Z) :=
  let st := seg_scan min_len bool_arr in
  if seg_inside st then
    let end_ := py_len bool_arr - 1 in
    if min_len <=? end_ - seg_start st + 1
    then seg_segs st ++ [(seg_start st, end_)]
    else seg_segs st
  else seg_segs st.

(** The flag at index [i], if [i] is an index of the list. *)
Definition flag_at (l : list bool) (i : Z) : option bool :=
  if i <? 0 then None else l !! Z.to_nat i.

(** [a..b] is a maximal run of set flags of [l]. *)
Definition run_at (l : list bool) (a b : Z) : Prop :=
  0 ≤ a ∧ a ≤ b ∧ b < py_len l
  ∧ (∀ i, a ≤ i ≤ b → flag_at l i = Some true)
  ∧ flag_at l (a - 1) ≠ Some true
  ∧ flag_at l (b + 1) ≠ Some true.

(** Two segments in order, with at least one index between them. *)
Definition seg_apart (x y : Z * Z) : Prop := x.2 + 1 < y.1.

(** *** Proofs *)

Lemma flag_at_Some l i v : flag_at l i = Some v → 0 ≤ i < py_len l.
Proof.
  unfold flag_at, py_len. destruct (Z.ltb_spec i 0); [done|].
  intros Hl. apply lookup_lt_Some in Hl. lia.
Qed.

Lemma flag_at_lt l i : 0 ≤ i < py_len l → ∃ v, flag_at l i = Some v.
Proof.
  unfold flag_at, py_len. intros Hi. destruct (Z.ltb_spec i 0); [lia|].
  apply lookup_lt_is_Some_2. lia.
Qed.

Lemma flag_at_snoc_l l v i : i < py_len l → flag_at (l ++ [v]) i = flag_at l i.
Proof.
  unfold flag_at, py_len. intros Hi. destruct (Z.ltb_spec i 0); [done|].
  apply lookup_app_l. lia.
Qed.

Lemma flag_at_snoc_last l v : flag_at (l ++ [v]) (py_len l) = Some v.
Proof.
  unfold flag_at, py_len. destruct (Z.ltb_spec (Z.of_nat (length l)) 0); [lia|].
  rewrite Nat2Z.id. by rewrite lookup_app_r, Nat.sub_diag by lia.
Qed.

Lemma py_len_snoc {A} (l : list A) v : py_len (l ++ [v]) = py_len l + 1.
Proof. unfold py_len. rewrite length_app. simpl. lia. Qed.

Lemma seg_scan_snoc min_len l v :
  seg_scan min_len (l ++ [v])
  = seg_step min_len (seg_scan min_len l) (py_len l, v).
Proof.
  unfold seg_scan, enumerate. rewrite imap_app, foldl_app. simpl.
  by rewrite Nat.add_0_r.
Qed.

(** A run of [l] that is closed by a cleared flag of [l]. *)
Definition closed_run (l : list bool) (a b : Z) : Prop :=
  0 ≤ a ∧ a ≤ b
  ∧ (∀ i, a ≤ i ≤ b → flag_at l i = Some true)
  ∧ flag_at l (a - 1) ≠ Some true
  ∧ flag_at l (b + 1) = Some false.

(** What the loop of [find_segments_1d] keeps true of the flags read so
    far. *)
Record SegInv (min_len : Z) (l : list bool) (st : seg_state) : Prop := {
  seg_closed : ∀ a b,
    (a, b) ∈ seg_segs st ↔ closed_run l a b ∧ min_len ≤ b - a + 1;
  seg_open : seg_inside st = true →
    0 ≤ seg_start st < py_len l
    ∧ (∀ i, seg_start st ≤ i < py_len l → flag_at l i = Some true)
    ∧ flag_at l (seg_start st - 1) ≠ Some true;
  seg_shut : seg_inside st = false → flag_at l (py_len l - 1) ≠ Some true;
  seg_sorted : StronglySorted seg_apart (seg_segs st)
}.

Lemma closed_run_snoc_true l a b :
  closed_run (l ++ [true]) a b ↔ closed_run l a b.
Proof.
  unfold closed_run. split.
  - intros (Ha & Hab & Hrun & Hpre & Hpost).
    assert (Hb : b + 1 < py_len l).
    { pose proof (flag_at_Some _ _ _ Hpost) as Hlt. rewrite py_len_snoc in Hlt.
      destruct (decide (b + 1 = py_len l)) as [Heq|]; [|lia].
      rewrite Heq, flag_at_snoc_last in Hpost. done. }
    repeat split; try done.
    + intros i Hi. rewrite <- (flag_at_snoc_l l true) by lia. by apply Hrun.
    + rewrite <- (flag_at_snoc_l l true) by lia. done.
    + rewrite <- (flag_at_snoc_l l true) by lia. done.
  - intros (Ha & Hab & Hrun & Hpre & Hpost).
    pose proof (flag_at_Some _ _ _ Hpost) as Hlt.
    repeat split; try done.
    + intros i Hi. rewrite flag_at_snoc_l by lia. by apply Hrun.
    + rewrite flag_at_snoc_l by lia. done.
    + rewrite flag_at_snoc_l by lia. done.
Qed.

Lemma closed_run_snoc_false l a b :
  closed_run (l ++ [false]) a b
  ↔ closed_run l a b
    ∨ (b = py_len l - 1 ∧ 0 ≤ a ∧ a ≤ b
       ∧ (∀ i, a ≤ i ≤ b → flag_at l i = Some true)
       ∧ flag_at l (a - 1) ≠ Some true).
Proof.
  unfold closed_run. split.
  - intros (Ha & Hab & Hrun & Hpre & Hpost).
    pose proof (flag_at_Some _ _ _ Hpost) as Hlt. rewrite py_len_snoc in Hlt.
    destruct (decide (b + 1 = py_len l)) as [Heq|Hne].
    + right. split; [lia|]. repeat split; try done.
      * intros i Hi. rewrite <- (flag_at_snoc_l l false) by lia. by apply Hrun.
      * rewrite <- (flag_at_snoc_l l false) by lia. done.
    + left. repeat split; try done.
      * intros i Hi. rewrite <- (flag_at_snoc_l l false) by lia. by apply Hrun.
      * rewrite <- (flag_at_snoc_l l false) by lia. done.
      * rewrite <- (flag_at_snoc_l l false) by lia. done.
  - intros [(Ha & Hab & Hrun & Hpre & Hpost)|(Hb & Ha & Hab & Hrun & Hpre)].
    + pose proof (flag_at_Some _ _ _ Hpost) as Hlt.
      repeat split; try done.
      * intros i Hi. rewrite flag_at_snoc_l by lia. by apply Hrun.
      * rewrite flag_at_snoc_l by lia. done.
      * rewrite flag_at_snoc_l by lia. done.
    + repeat split; try done.
      * intros i Hi. rewrite flag_at_snoc_l by lia. by apply Hrun.
      * rewrite flag_at_snoc_l by lia. done.
      * replace (b + 1) with (py_len l) by lia. apply flag_at_snoc_last.
Qed.

(** A run that reaches the last flag read starts where the scan says. *)
Lemma open_run_start l s a :
  0 ≤ s < py_len l →
  (∀ i, s ≤ i < py_len l → flag_at l i = Some true) →
  flag_at l (s - 1) ≠ Some true →
  0 ≤ a → a ≤ py_len l - 1 →
  (∀ i, a ≤ i ≤ py_len l - 1 → flag_at l i = Some true) →
  flag_at l (a - 1) ≠ Some true →
  a = s.
Proof.
  intros Hs Hsrun Hspre Ha Hab Harun Hapre.
  destruct (Z.lt_trichotomy a s) as [Hlt|[->|Hgt]]; [|done|].
  - exfalso. apply Hspre, Harun. lia.
  - exfalso. apply Hapre, Hsrun. lia.
Qed.

Lemma SegInv_init min_len :
  SegInv min_len [] (seg_scan min_len []).
Proof.
  split; simpl.
  - intros a b. split; [by intros ?%elem_of_nil|].
    intros [(_ & _ & _ & _ & Hpost) _].
    apply flag_at_Some in Hpost. unfold py_len in Hpost. simpl in Hpost. lia.
  - done.
  - intros _ Hf. apply flag_at_Some in Hf. unfold py_len in Hf. simpl in Hf. lia.
  - constructor.
Qed.

Lemma SegInv_step min_len l st v :
  SegInv min_len l st →
  SegInv min_len (l ++ [v]) (seg_step min_len st (py_len l, v)).
Proof.
  intros [Hclosed Hopen Hshut Hsorted]. unfold seg_step. cbn [fst snd].
  destruct v, (seg_inside st) eqn:Hin; cbn [andb negb].
  - (* a set flag inside a run *)
    destruct (Hopen eq_refl) as (Hs & Hrun & Hpre).
    split.
    + intros a b. by rewrite closed_run_snoc_true.
    + intros _. rewrite py_len_snoc. split; [lia|]. split.
      * intros i Hi. destruct (decide (i = py_len l)) as [->|].
        -- apply flag_at_snoc_last.
        -- rewrite flag_at_snoc_l by lia. apply Hrun. lia.
      * rewrite flag_at_snoc_l by lia. done.
    + congruence.
    + done.
  - (* a set flag opens a run *)
    specialize (Hshut eq_refl).
    split; cbn [seg_segs seg_inside seg_start].
    + intros a b. by rewrite closed_run_snoc_true.
    + intros _. rewrite py_len_snoc. split; [unfold py_len; lia|]. split.
      * intros i Hi. replace i with (py_len l) by lia. apply flag_at_snoc_last.
      * destruct (decide (py_len l - 1 < py_len l)); [|lia].
        rewrite flag_at_snoc_l by lia. done.
    + done.
    + done.
  - (* a cleared flag closes the run *)
    destruct (Hopen eq_refl) as (Hs & Hrun & Hpre).
    assert (Hlast : ∀ a b,
      closed_run (l ++ [false]) a b
      ↔ closed_run l a b ∨ (a, b) = (seg_start st, py_len l - 1)).
    { intros a b. rewrite closed_run_snoc_false. split.
      - intros [?|(-> & Ha & Hab & Harun & Hapre)]; [by left|right].
        f_equal. by eapply open_run_start.
      - intros [?|[= -> ->]]; [by left|right].
        split; [done|]. split; [lia|]. split; [lia|]. split; [|done].
        intros i Hi. apply Hrun. lia. }
    assert (Hbefore : ∀ a b, (a, b) ∈ seg_segs st → b + 1 < seg_start st).
    { intros a b [(Ha & Hab & _ & _ & Hpost) _]%Hclosed.
      pose proof (flag_at_Some _ _ _ Hpost) as Hlt.
      destruct (decide (b + 1 < seg_start st)) as [|Hge]; [done|].
      rewrite Hrun in Hpost by lia. done. }
    split; cbn [seg_segs seg_inside seg_start].
    + intros a b. rewrite Hlast.
      destruct (Z.leb_spec min_len (py_len l - 1 - seg_start st + 1)) as [Hm|Hm].
      * rewrite elem_of_app, list_elem_of_singleton, Hclosed. split.
        -- intros [[? ?]|[= -> ->]]; [by split; [left|]|]. split; [by right|lia].
        -- intros [[?|?] ?]; [by left|by right].
      * rewrite Hclosed. split.
        -- intros [? ?]. split; [by left|done].
        -- intros [[?|[= -> ->]] ?]; [done|lia].
    + done.
    + intros _. rewrite py_len_snoc.
      replace (py_len l + 1 - 1) with (py_len l) by lia.
      rewrite flag_at_snoc_last. done.
    + destruct (_ <=? _); [|done]. apply StronglySorted_app. split; [|split].
      * intros [a b] [a' b'] Hx Hy. apply list_elem_of_singleton in Hy.
        injection Hy as -> ->. unfold seg_apart. simpl. by eapply Hbefore.
      * done.
      * repeat constructor.
  - (* a cleared flag outside a run *)
    specialize (Hshut eq_refl).
    split.
    + intros a b. rewrite closed_run_snoc_false, Hclosed. split.
      * intros [? ?]. split; [by left|done].
      * intros [[?|(-> & Ha & Hab & Harun & _)] ?]; [done|].
        exfalso. apply Hshut, Harun. lia.
    + congruence.
    + intros _. rewrite py_len_snoc.
      replace (py_len l + 1 - 1) with (py_len l) by lia.
      rewrite flag_at_snoc_last. done.
    + done.
Qed.

Lemma SegInv_scan min_len l : SegInv min_len l (seg_scan min_len l).
Proof.
  induction l as [|v l IH] using rev_ind; [apply SegInv_init|].
  rewrite seg_scan_snoc. by apply SegInv_step.
Qed.

(** The final [if inside:] acts as one more cleared flag would. *)
Lemma find_segments_1d_sentinel l min_len :
  find_segments_1d l min_len = seg_segs (seg_scan min_len (l ++ [false])).
Proof.
  rewrite seg_scan_snoc. unfold find_segments_1d, seg_step. cbn [fst snd negb andb].
  by destruct (seg_inside _).
Qed.

Lemma run_at_sentinel l a b : run_at l a b ↔ closed_run (l ++ [false]) a b.
Proof.
  rewrite closed_run_snoc_false. unfold run_at, closed_run. split.
  - intros (Ha & Hab & Hb & Hrun & Hpre & Hpost).
    destruct (decide (b = py_len l - 1)) as [Heq|Hne]; [by right|left].
    repeat split; try done.
    destruct (flag_at_lt l (b + 1)) as [[] Hv]; [lia|done|done].
  - intros [(Ha & Hab & Hrun & Hpre & Hpost)|(Hb & Ha & Hab & Hrun & Hpre)].
    + pose proof (flag_at_Some _ _ _ Hpost). repeat split; try done; try lia.
      congruence.
    + repeat split; try done; try lia.
      intros Hf%flag_at_Some. lia.
Qed.

Lemma run_left l i :
  flag_at l i = Some true →
  ∃ a, 0 ≤ a ≤ i ∧ (∀ j, a ≤ j ≤ i → flag_at l j = Some true)
       ∧ flag_at l (a - 1) ≠ Some true.
Proof.
  remember (Z.to_nat i) as n eqn:Hn. revert i Hn.
  induction n as [|n IH]; intros i Hn Hi;
    pose proof (flag_at_Some _ _ _ Hi) as Hlt.
  - exists i. split; [lia|]. split.
    + intros j Hj. by replace j with i by lia.
    + intros Hf%flag_at_Some. lia.
  - destruct (decide (flag_at l (i - 1) = Some true)) as [Hp|Hp].
    + destruct (IH (i - 1)) as (a & Ha & Hrun & Hpre); [lia|done|].
      exists a. split; [lia|]. split; [|done].
      intros j Hj. destruct (decide (j = i)) as [->|]; [done|].
      apply Hrun. lia.
    + exists i. split; [lia|]. split; [|done].
      intros j Hj. by replace j with i by lia.
Qed.

Lemma run_right l i :
  flag_at l i = Some true →
  ∃ b, i ≤ b < py_len l ∧ (∀ j, i ≤ j ≤ b → flag_at l j = Some true)
       ∧ flag_at l (b + 1) ≠ Some true.
Proof.
  remember (Z.to_nat (py_len l - i)) as n eqn:Hn. revert i Hn.
  induction n as [|n IH]; intros i Hn Hi;
    pose proof (flag_at_Some _ _ _ Hi) as Hlt; [lia|].
  destruct (decide (flag_at l (i + 1) = Some true)) as [Hp|Hp].
  - destruct (IH (i + 1)) as (b & Hb & Hrun & Hpost); [lia|done|].
    exists b. split; [lia|]. split; [|done].
    intros j Hj. destruct (decide (j = i)) as [->|]; [done|].
    apply Hrun. lia.
  - exists i. split; [lia|]. split; [|done].
    intros j Hj. by replace j with i by lia.
Qed.

(** Every set flag lies in a maximal run. *)
Lemma run_at_exists l i :
  flag_at l i = Some true → ∃ a b, run_at l a b ∧ a ≤ i ≤ b.
Proof.
  intros Hi.
  destruct (run_left l i Hi) as (a & Ha & Hleft & Hpre).
  destruct (run_right l i Hi) as (b & Hb & Hright & Hpost).
  exists a, b. split; [|lia]. unfold run_at. repeat split; try done; try lia.
  intros j Hj. destruct (decide (j ≤ i)); [apply Hleft|apply Hright]; lia.
Qed.

(** X14: [find_segments_1d] returns exactly the maximal runs of set flags that
    have at least [min_len] flags, each as [(first, last)], in
    increasing order and with an index between any two of them. *)
Theorem find_segments_1d_runs (bool_arr : list bool) (min_len : Z) :
  (∀ a b, (a, b) ∈ find_segments_1d bool_arr min_len
          ↔ run_at bool_arr a b ∧ min_len ≤ b - a + 1)
  ∧ StronglySorted seg_apart (find_segments_1d bool_arr min_len).
Proof.
  rewrite find_segments_1d_sentinel.
  destruct (SegInv_scan min_len (bool_arr ++ [false]))
    as [Hclosed _ _ Hsorted].
  split; [|done]. intros a b. by rewrite Hclosed, run_at_sentinel.
Qed.

(** X15: with [min_len] at most one (the default is [1]) nothing is dropped:
    a flag is set exactly when its index lies in one of the segments
    returned, and then in only one. *)
Theorem find_segments_1d_cover (bool_arr : list bool) (min_len : Z) (i : Z) :
  min_len ≤ 1 →
  (flag_at bool_arr i = Some true
   ↔ ∃ a b, (a, b) ∈ find_segments_1d bool_arr min_len ∧ a ≤ i ≤ b)
  ∧ (∀ a b a' b',
       (a, b) ∈ find_segments_1d bool_arr min_len →
       (a', b') ∈ find_segments_1d bool_arr min_len →
       a ≤ i ≤ b → a' ≤ i ≤ b' → (a, b) = (a', b')).
Proof.
  intros Hm.
  assert (Hruns : ∀ a b, (a, b) ∈ find_segments_1d bool_arr min_len
                         ↔ run_at bool_arr a b ∧ min_len ≤ b - a + 1).
  { rewrite find_segments_1d_sentinel.
    destruct (SegInv_scan min_len (bool_arr ++ [false])) as [Hclosed _ _ _].
    intros a b. by rewrite Hclosed, run_at_sentinel. }
  split.
  - split.
    + intros (a & b & Hrun & Hi)%run_at_exists. exists a, b. split; [|done].
      apply Hruns. split; [done|]. destruct Hrun as (_ & ? & _). lia.
    + intros (a & b & [Hrun _]%Hruns & Hi).
      destruct Hrun as (_ & _ & _ & Hall & _). by apply Hall.
  - intros a b a' b' [Hr _]%Hruns [Hr' _]%Hruns Hi Hi'.
    destruct Hr as (Ha & Hab & Hb & Hrun & Hpre & Hpost).
    destruct Hr' as (Ha' & Hab' & Hb' & Hrun' & Hpre' & Hpost').
    assert (a = a').
    { destruct (Z.lt_trichotomy a a') as [?|[?|?]]; [|done|].
      - exfalso. apply Hpre', Hrun. lia.
      - exfalso. apply Hpre, Hrun'. lia. }
    assert (b = b').
    { destruct (Z.lt_trichotomy b b') as [?|[?|?]]; [|done|].
      - exfalso. apply Hpost, Hrun'. lia.
      - exfalso. apply Hpost', Hrun. lia. }
    congruence.
Qed.

Lemma find_segments_1d_cover_witness :
  (flag_at [false; true; true; false; true] 2 = Some true
   ↔ ∃ a b, (a, b) ∈ find_segments_1d [false; true; true; false; true] 1
            ∧ a ≤ 2 ≤ b)
  ∧ (∀ a b a' b',
       (a, b) ∈ find_segments_1d [false; true; true; false; true] 1 →
       (a', b') ∈ find_segments_1d [false; true; true; false; true] 1 →
       a ≤ 2 ≤ b → a' ≤ 2 ≤ b' → (a, b) = (a', b')).
Proof.
  apply (find_segments_1d_cover [false; true; true; false; true] 1 2). lia.
Defined.

(** ** The terminal picture ([render] of [terminal_poke_astar.py]) *)

Definition TILE_POKEBALL : tile := "P"%char.
Definition TILE_ASH : tile := "A"%char.
Definition TILE_PATH : tile := "*"%char.

(** [s and pos in s] for an argument that is [None] or a set. *)
Definition given_has (s : option (gset cell)) (pos : cell) : bool :=
  match s with
  | Some x => bool_decide (x ≠ ∅) && bool_decide (pos ∈ x)
  | None => false
  end.

(** One of the two overlay statements of [render]: the cell takes [mark]
    when it is in the set and shows neither an entity nor the path nor a
    wall. *)
Definition overlay (mark : ascii) (s : option (gset cell)) (pos : cell)
    (ch : ascii) : ascii :=
  if given_has s pos
     && negb (bool_decide (ch ∈ [TILE_ASH; TILE_POKEBALL; TILE_PATH]))
  then (if decide (ch ≠ TILE_WALL) then mark else ch)
  else ch.

(** The character [render] appends for the cell [(r, c)]. *)
Definition render_cell (gr : grid) (start goal : option cell)
    (path_set : gset cell) (open_set closed_set : option (gset cell))
    (r c : Z) : outcome ascii :=
  let pos := (r, c) in
  let! ch :=
    if decide (Some pos = start) then Ret TILE_ASH
    else if decide (Some pos = goal) then Ret TILE_POKEBALL
    else if decide (pos ∈ path_set ∧ Some pos ≠ start ∧ Some pos ≠ goal)
    then Ret TILE_PATH
    else grid_at gr r c in
  let ch := overlay "o"%char open_set pos ch in
  let ch := overlay "x"%char closed_set pos ch in
  Ret ch.

(** The body of [for r in range(rows)]: one more line. *)
Definition render_row (gr : grid) (cols : Z) (start goal : option cell)
    (path_set : gset cell) (open_set closed_set : option (gset cell))
    (out_lines : list string) (r : Z) : outcome (list string) :=
  let! row_chars :=
    for_each (λ row_chars c,
                let! ch := render_cell gr start goal path_set open_set
                             closed_set r c in
                Ret (row_chars ++ [ch]))
      (py_range cols) [] in
  Ret (out_lines ++ [String.string_of_list_ascii row_chars]).

Definition newline : string := String "010"%char EmptyString.

Definition render (gr : grid) (start goal : option cell)
    (path : option (list cell)) (open_set closed_set : option (gset cell))
  : outcome string :=
  let rows := py_len gr in
  let! row0 := py_getitem gr 0 in
  let cols := py_len row0 in
  let path_set : gset cell :=
    match path with
    | Some p => list_to_set p
    | None => ∅
    end in
  let! out_lines :=
    for_each (render_row gr cols start goal path_set open_set closed_set)
      (py_range rows) [] in
  Ret (String.concat newline out_lines).

(** The character of a picture at a cell. *)
Definition picture_at (lines : list string) (pos : cell) : option ascii :=
  if (pos.1 <? 0) || (pos.2 <? 0) then None
  else lines !! Z.to_nat pos.1 ≫= String.get (Z.to_nat pos.2).

(** The tile of a cell, for cells of the grid. *)
Definition tile_at (gr : grid) (pos : cell) : tile :=
  match grid_at gr pos.1 pos.2 with
  | Ret t => t
  | _ => TILE_NORMAL
  end.

(** The character of a cell as [render] chooses it. *)
Definition shown (gr : grid) (start goal : option cell) (path_set : gset cell)
    (open_set closed_set : option (gset cell)) (pos : cell) : ascii :=
  overlay "x"%char closed_set pos
    (overlay "o"%char open_set pos
       (if decide (Some pos = start) then TILE_ASH
        else if decide (Some pos = goal) then TILE_POKEBALL
        else if decide (pos ∈ path_set ∧ Some pos ≠ start ∧ Some pos ≠ goal)
        then TILE_PATH
        else tile_at gr pos)).

Lemma for_each_collect {A B C} (f : A → outcome B) (g : A → B) (h : B → C)
    (l : list A) (acc : list C) :
  (∀ x, x ∈ l → f x = Ret (g x)) →
  for_each (λ acc x, let! y := f x in Ret (acc ++ [h y])) l acc
  = Ret (acc ++ ((λ x, h (g x)) <$> l)).
Proof.
  revert acc. induction l as [|x l IH]; intros acc Hf; simpl.
  - by rewrite app_nil_r.
  - rewrite Hf by (by left). simpl. rewrite IH.
    + by rewrite <- app_assoc.
    + intros y Hy. apply Hf. by right.
Qed.

Lemma string_get_of_list (l : list ascii) (n : nat) :
  String.get n (String.string_of_list_ascii l) = l !! n.
Proof.
  revert n. induction l as [|a l IH]; intros n; [done|].
  destruct n as [|n]; simpl; [done|]. apply IH.
Qed.

Lemma string_length_of_list (l : list ascii) :
  String.length (String.string_of_list_ascii l) = length l.
Proof. induction l as [|a l IH]; simpl; [done|]. by rewrite IH. Qed.

Lemma render_cell_shown gr start goal path_set open_set closed_set r c :
  rectangular gr → in_bounds (grid_rows gr) (grid_cols gr) (r, c) →
  render_cell gr start goal path_set open_set closed_set r c
  = Ret (shown gr start goal path_set open_set closed_set (r, c)).
Proof.
  intros Hrect Hin. unfold render_cell, shown, tile_at. cbv zeta. simpl.
  destruct (grid_at_in_bounds gr r c Hrect Hin) as [t ->].
  repeat (destruct (decide _); simpl; try done).
Qed.

(** The lines of the picture. *)
Definition picture (gr : grid) (start goal : option cell)
    (path_set : gset cell) (open_set closed_set : option (gset cell))
  : list string :=
  (λ r, String.string_of_list_ascii
          ((λ c, shown gr start goal path_set open_set closed_set (r, c))
             <$> py_range (grid_cols gr)))
    <$> py_range (grid_rows gr).

Lemma render_picture gr start goal path open_set closed_set :
  rectangular gr → gr ≠ [] →
  render gr start goal path open_set closed_set
  = Ret (String.concat newline
           (picture gr start goal
              (match path with Some p => list_to_set p | None => ∅ end)
              open_set closed_set)).
Proof.
  intros Hrect Hne. unfold render. rewrite py_getitem_first.
  destruct gr as [|row0 gr0] eqn:Hgr; [done|]. rewrite <- Hgr in *.
  cbn [obind]. change (py_len gr) with (grid_rows gr).
  replace (py_len row0) with (grid_cols gr) by (by rewrite Hgr).
  set (ps := match path with Some p => list_to_set p | None => ∅ end).
  unfold render_row.
  rewrite (for_each_collect
             (λ r, for_each
                     (λ row_chars c,
                        let! ch := render_cell gr start goal ps open_set
                                     closed_set r c in
                        Ret (row_chars ++ [ch]))
                     (py_range (grid_cols gr)) [])
             (λ r, (λ c, shown gr start goal ps open_set closed_set (r, c))
                     <$> py_range (grid_cols gr))
             String.string_of_list_ascii).
  { reflexivity. }
  intros r Hr. apply elem_of_seqZ in Hr.
  rewrite (for_each_collect
             (render_cell gr start goal ps open_set closed_set r)
             (λ c, shown gr start goal ps open_set closed_set (r, c))
             id).
  { reflexivity. }
  intros c Hc. apply elem_of_seqZ in Hc.
  apply render_cell_shown; [done|]. split; simpl; lia.
Qed.

Lemma picture_shape gr start goal ps open_set closed_set :
  py_len (picture gr start goal ps open_set closed_set) = grid_rows gr
  ∧ Forall (λ s, Z.of_nat (String.length s) = grid_cols gr)
      (picture gr start goal ps open_set closed_set).
Proof.
  destruct (grid_dims_nonneg gr) as [Hr Hc].
  unfold picture, py_len, py_range. split.
  - rewrite length_fmap, length_seqZ. lia.
  - apply Forall_fmap, Forall_forall. intros r _. simpl.
    rewrite string_length_of_list, length_fmap, length_seqZ. lia.
Qed.

Lemma picture_at_shown gr start goal ps open_set closed_set pos :
  in_bounds (grid_rows gr) (grid_cols gr) pos →
  picture_at (picture gr start goal ps open_set closed_set) pos
  = Some (shown gr start goal ps open_set closed_set pos).
Proof.
  destruct pos as [r c]. intros [Hr Hc]. simpl in *.
  unfold picture_at, picture, py_range. simpl.
  destruct (Z.ltb_spec r 0); [lia|]. destruct (Z.ltb_spec c 0); [lia|]. simpl.
  rewrite list_lookup_fmap, lookup_seqZ_lt by lia. simpl.
  rewrite string_get_of_list, list_lookup_fmap, lookup_seqZ_lt by lia. simpl.
  do 3 f_equal; lia.
Qed.

Lemma seqZ_fmap_lookup {A} (l : list A) (f : Z → A) :
  (∀ i x, l !! i = Some x → f (Z.of_nat i) = x) →
  f <$> seqZ 0 (py_len l) = l.
Proof.
  intros Hf. apply list_eq. intros i. rewrite list_lookup_fmap.
  unfold py_len.
  destruct (l !! i) as [x|] eqn:Hi.
  - pose proof (lookup_lt_Some _ _ _ Hi).
    rewrite lookup_seqZ_lt by lia. simpl. f_equal. by apply Hf.
  - apply lookup_ge_None in Hi. rewrite lookup_seqZ_ge by lia. done.
Qed.

Lemma picture_plain gr :
  rectangular gr →
  picture gr None None ∅ None None = String.string_of_list_ascii <$> gr.
Proof.
  intros Hrect. unfold picture, py_range, grid_rows.
  etrans;
    [exact (list_fmap_compose
              (λ r, (λ c, shown gr None None ∅ None None (r, c))
                      <$> seqZ 0 (grid_cols gr))
              String.string_of_list_ascii _)|].
  f_equal. apply seqZ_fmap_lookup. intros i row Hi.
  assert (Hlen : py_len row = grid_cols gr).
  { unfold rectangular in Hrect. rewrite Forall_forall in Hrect.
    apply Hrect. by eapply list_elem_of_lookup_2. }
  rewrite <- Hlen. apply seqZ_fmap_lookup. intros j t Hj.
  unfold shown, overlay, tile_at, grid_at. simpl.
  rewrite py_getitem_nonneg by lia. rewrite Nat2Z.id, Hi. simpl.
  rewrite py_getitem_nonneg by lia. rewrite Nat2Z.id, Hj.
  destruct (decide _) as [[Hx _]|_]; [|done].
  by apply not_elem_of_empty in Hx.
Qed.

(** X16: with nothing to draw over it, [render] gives the grid back: the rows
    of a rectangular grid, one per line.  Empty values of [path],
    [open_set] and [closed_set] count as ungiven.  An empty grid raises
    [IndexError]. *)
Theorem render_plain gr path open_set closed_set :
  path ∈ [None; Some []] →
  open_set ∈ [None; Some ∅] → closed_set ∈ [None; Some ∅] →
  (gr = [] →
   render gr None None path open_set closed_set = Exc IndexError)
  ∧ (gr ≠ [] → rectangular gr →
     render gr None None path open_set closed_set
     = Ret (String.concat newline (String.string_of_list_ascii <$> gr))).
Proof.
  intros Hp Ho Hc. split; [by intros ->|]. intros Hne Hrect.
  rewrite render_picture by done. do 2 f_equal.
  rewrite <- picture_plain by done.
  assert (Hps : match path with Some p => list_to_set p | None => ∅ end
                = (∅ : gset cell)).
  { apply elem_of_cons in Hp as [->|Hp]; [done|].
    apply list_elem_of_singleton in Hp as ->. done. }
  rewrite Hps. unfold picture. apply list_fmap_ext. intros _ r _.
  f_equal. apply list_fmap_ext. intros _ c _.
  unfold shown, overlay.
  assert (Hg : ∀ s pos, s ∈ [None; Some (∅ : gset cell)] →
                        given_has s pos = false).
  { intros s pos Hs. apply elem_of_cons in Hs as [->|Hs]; [done|].
    apply list_elem_of_singleton in Hs as ->. simpl.
    rewrite bool_decide_false; [done|]. by intros []. }
  rewrite (Hg open_set) by done. rewrite (Hg closed_set) by done. done.
Qed.

Lemma render_plain_witness :
  render world_mud None None (Some []) None (Some ∅)
  = Ret (String.concat newline (String.string_of_list_ascii <$> world_mud)).
Proof.
  apply (render_plain world_mud (Some []) None (Some ∅)).
  - apply elem_of_cons. right. by apply list_elem_of_singleton.
  - apply elem_of_cons. by left.
  - apply elem_of_cons. right. by apply list_elem_of_singleton.
  - done.
  - repeat constructor.
Defined.

Lemma overlay_entity mark s pos ch :
  ch ∈ [TILE_ASH; TILE_POKEBALL; TILE_PATH] → overlay mark s pos ch = ch.
Proof.
  intros Hch. unfold overlay. rewrite (bool_decide_true _ Hch).
  by rewrite andb_false_r.
Qed.

Lemma overlay_ash mark s pos : overlay mark s pos TILE_ASH = TILE_ASH.
Proof. apply overlay_entity, elem_of_cons. by left. Qed.

Lemma overlay_pokeball mark s pos :
  overlay mark s pos TILE_POKEBALL = TILE_POKEBALL.
Proof.
  apply overlay_entity, elem_of_cons. right. apply elem_of_cons. by left.
Qed.

Lemma overlay_skip mark s pos ch :
  given_has s pos = false → overlay mark s pos ch = ch.
Proof. intros Hs. unfold overlay. by rewrite Hs. Qed.

Lemma overlay_mark mark s pos ch :
  given_has s pos = true →
  (ch ∉ [TILE_ASH; TILE_POKEBALL; TILE_PATH]) → ch ≠ TILE_WALL →
  overlay mark s pos ch = mark.
Proof.
  intros Hs Hch Hw. unfold overlay. rewrite Hs, (bool_decide_false _ Hch).
  simpl. by destruct (decide _).
Qed.

Lemma given_has_Some (x : gset cell) pos :
  given_has (Some x) pos = bool_decide (pos ∈ x).
Proof.
  simpl. destruct (decide (pos ∈ x)) as [Hin|Hout].
  - rewrite !bool_decide_true; [done|done|]. intros ->.
    by apply not_elem_of_empty in Hin.
  - rewrite (bool_decide_false _ Hout). apply andb_false_r.
Qed.

Lemma walk_end gr rows cols start l u k :
  walk gr rows cols start l u k →
  u = start ∨ (in_bounds rows cols u ∧ open_tile gr u).
Proof. destruct 1 as [|l u v k _ He]; [by left|right]. apply He. Qed.

Lemma walk_cells gr rows cols start l u k c :
  walk gr rows cols start l u k → c ∈ l →
  c = start ∨ (in_bounds rows cols c ∧ open_tile gr c).
Proof.
  intros Hw Hc. pose proof (walk_head _ _ _ _ _ _ _ Hw) as Hh.
  pose proof (walk_tail _ _ _ _ _ _ _ Hw) as Ht.
  destruct l as [|x l]; [done|]. injection Hh as ->. simpl in Ht.
  apply elem_of_cons in Hc as [->|Hc]; [by left|right].
  rewrite Forall_forall in Ht. by apply Ht.
Qed.

Lemma tile_at_Ret gr pos t :
  grid_at gr pos.1 pos.2 = Ret t → tile_at gr pos = t.
Proof. unfold tile_at. by intros ->. Qed.

(** X17: the final picture of [main]: rendering a grid with the endpoints and
    the path [astar] returned shows a picture of the grid's size with [A]
    on the start, [P] on the goal, [*] on every other cell of the path,
    and its own tile on every cell off the path. *)
Theorem render_astar_path gr start goal record_steps r :
  rectangular gr → in_bounds (grid_rows gr) (grid_cols gr) start →
  astar gr start goal record_steps = Ret (Some r) →
  ∃ lines,
    render gr (Some start) (Some goal) (Some (path r)) None None
    = Ret (String.concat newline lines)
    ∧ py_len lines = grid_rows gr
    ∧ Forall (λ s, Z.of_nat (String.length s) = grid_cols gr) lines
    ∧ picture_at lines start = Some TILE_ASH
    ∧ (goal ≠ start → picture_at lines goal = Some TILE_POKEBALL)
    ∧ (∀ pos, pos ∈ path r → pos ≠ start → pos ≠ goal →
              picture_at lines pos = Some TILE_PATH)
    ∧ (∀ pos, in_bounds (grid_rows gr) (grid_cols gr) pos →
              pos ∉ path r →
              ∃ t, grid_at gr pos.1 pos.2 = Ret t
                   ∧ picture_at lines pos = Some t).
Proof.
  intros Hrect Hsb Ha.
  pose proof (in_bounds_nonempty _ _ Hsb) as Hne.
  destruct (astar_found_walk _ _ _ _ _ Ha) as [k Hw].
  pose proof (walk_head _ _ _ _ _ _ _ Hw) as Hh.
  pose proof (walk_last _ _ _ _ _ _ _ Hw) as Hl.
  assert (Hs : start ∈ path r).
  { destruct (path r) as [|x l]; [done|]. injection Hh as ->. by left. }
  assert (Hg : goal ∈ path r).
  { apply last_Some in Hl as [l' ->]. apply elem_of_app. right. by left. }
  assert (Hin : ∀ pos, pos ∈ path r →
                       in_bounds (grid_rows gr) (grid_cols gr) pos).
  { intros pos Hpos.
    destruct (walk_cells _ _ _ _ _ _ _ _ Hw Hpos) as [->|[? _]]; done. }
  exists (picture gr (Some start) (Some goal) (list_to_set (path r)) None None).
  split; [by apply render_picture|].
  destruct (picture_shape gr (Some start) (Some goal)
              (list_to_set (path r)) None None) as [Hlen Hrow].
  split; [done|]. split; [done|].
  split; [|split; [|split]].
  - rewrite picture_at_shown by done. f_equal. unfold shown.
    rewrite decide_True by done. by rewrite !overlay_skip.
  - intros Hne'. rewrite picture_at_shown by auto. f_equal. unfold shown.
    rewrite decide_False by congruence. rewrite decide_True by done.
    by rewrite !overlay_skip.
  - intros pos Hpos Hps Hpg. rewrite picture_at_shown by auto. f_equal.
    unfold shown. rewrite decide_False by congruence.
    rewrite decide_False by congruence. rewrite decide_True.
    + by rewrite !overlay_skip.
    + split; [by apply elem_of_list_to_set|]. split; congruence.
  - intros pos Hpos Hout.
    destruct (grid_at_in_bounds gr pos.1 pos.2 Hrect) as [t Ht].
    { by destruct pos. }
    exists t. split; [done|]. rewrite picture_at_shown by done. f_equal.
    unfold shown. rewrite decide_False by (intros [= ->]; done).
    rewrite decide_False by (intros [= ->]; done).
    rewrite decide_False.
    + rewrite !overlay_skip by done. by apply tile_at_Ret.
    + intros [Hx _]. by apply elem_of_list_to_set in Hx.
Qed.

Lemma render_astar_path_witness :
  ∃ r lines,
    astar world_mud (0, 0) (0, 2) false = Ret (Some r)
    ∧ render world_mud (Some (0, 0)) (Some (0, 2)) (Some (path r)) None None
      = Ret (String.concat newline lines)
    ∧ picture_at lines (0, 0) = Some TILE_ASH.
Proof.
  destruct (astar world_mud (0, 0) (0, 2) false) as [[r|]| |] eqn:Ha;
    try (vm_compute in Ha; discriminate Ha).
  destruct (render_astar_path world_mud (0, 0) (0, 2) false r)
    as (lines & Hr & _ & _ & Hs & _).
  - repeat constructor.
  - vm_compute. repeat split; discriminate.
  - exact Ha.
  - exists r, lines. split; [reflexivity|]. split; [exact Hr|exact Hs].
Defined.

(** Every tile is one the generator writes. *)
Definition plain_tiles (gr : grid) : Prop :=
  Forall (Forall (λ t, t ∈ [TILE_NORMAL; TILE_WALL; TILE_MUD])) gr.

Lemma py_getitem_elem {A} (l : list A) (i : Z) (x : A) :
  py_getitem l i = Ret x → x ∈ l.
Proof.
  unfold py_getitem. cbv zeta. destruct (_ <? 0); [done|].
  destruct (l !! _) as [y|] eqn:Hy; [|done].
  intros [= <-]. by eapply list_elem_of_lookup_2.
Qed.

Lemma plain_tiles_at gr r c t :
  plain_tiles gr → grid_at gr r c = Ret t →
  t ∈ [TILE_NORMAL; TILE_WALL; TILE_MUD].
Proof.
  intros Hpl Ht. unfold grid_at in Ht.
  apply obind_Ret in Ht as (row & Hrow & Ht).
  apply py_getitem_elem in Hrow, Ht.
  unfold plain_tiles in Hpl. rewrite Forall_forall in Hpl.
  specialize (Hpl row Hrow). rewrite Forall_forall in Hpl. by apply Hpl.
Qed.

Lemma plain_tile_no_entity t :
  t ∈ [TILE_NORMAL; TILE_WALL; TILE_MUD] →
  t ∉ [TILE_ASH; TILE_POKEBALL; TILE_PATH].
Proof.
  intros Ht Hx. repeat (apply elem_of_cons in Ht as [->|Ht]);
    [| | |by apply elem_of_nil in Ht];
    repeat (apply elem_of_cons in Hx as [Hx|Hx]; [discriminate Hx|]);
    by apply elem_of_nil in Hx.
Qed.

(** X18: the frames of the animation of [main]: rendering a grid of generated
    tiles with the endpoints and the open and closed sets of a snapshot
    [astar] recorded shows [A] on the start, [P] on the goal, [x] on
    every other closed cell, [o] on every other open cell, and its own
    tile on every cell in neither set. *)
Theorem render_astar_frame gr start goal record_steps r :
  rectangular gr → plain_tiles gr →
  in_bounds (grid_rows gr) (grid_cols gr) start →
  astar gr start goal record_steps = Ret (Some r) →
  Forall (λ sn,
    ∃ lines,
      render gr (Some start) (Some goal) None
        (Some (snap_open sn)) (Some (snap_closed sn))
      = Ret (String.concat newline lines)
      ∧ picture_at lines start = Some TILE_ASH
      ∧ (goal ≠ start → picture_at lines goal = Some TILE_POKEBALL)
      ∧ (∀ pos, pos ∈ snap_closed sn → pos ≠ start → pos ≠ goal →
                picture_at lines pos = Some "x"%char)
      ∧ (∀ pos, pos ∈ snap_open sn → pos ≠ start → pos ≠ goal →
                picture_at lines pos = Some "o"%char)
      ∧ (∀ pos, in_bounds (grid_rows gr) (grid_cols gr) pos →
                pos ∉ snap_closed sn → pos ∉ snap_open sn →
                pos ≠ start → pos ≠ goal →
                ∃ t, grid_at gr pos.1 pos.2 = Ret t
                     ∧ picture_at lines pos = Some t))
    (steps r).
Proof.
  intros Hrect Hpl Hsb Ha.
  pose proof (in_bounds_nonempty _ _ Hsb) as Hne.
  destruct (astar_found_walk _ _ _ _ _ Ha) as [k Hw].
  assert (Hgb : in_bounds (grid_rows gr) (grid_cols gr) goal).
  { destruct (walk_end _ _ _ _ _ _ _ Hw) as [->|[? _]]; done. }
  apply astar_snapshots in Ha.
  eapply Forall_impl; [exact Ha|].
  intros sn [(Hdisj & Hdom & Hreal) _].
  assert (Hcell : ∀ pos, pos ∈ snap_open sn ∪ snap_closed sn → pos ≠ start →
            in_bounds (grid_rows gr) (grid_cols gr) pos
            ∧ ∃ t, grid_at gr pos.1 pos.2 = Ret t ∧ t ≠ TILE_WALL
                   ∧ (t ∉ [TILE_ASH; TILE_POKEBALL; TILE_PATH])).
  { intros pos Hpos Hps. rewrite <- Hdom in Hpos.
    apply elem_of_dom in Hpos as [x Hx].
    destruct (Hreal _ _ Hx) as [l Hl].
    destruct (walk_end _ _ _ _ _ _ _ Hl) as [->|[Hin (t & Ht & Hnw)]]; [done|].
    split; [done|]. exists t. split; [done|]. split; [done|].
    eapply plain_tile_no_entity, plain_tiles_at; done. }
  exists (picture gr (Some start) (Some goal) ∅
            (Some (snap_open sn)) (Some (snap_closed sn))).
  split; [by apply (render_picture gr (Some start) (Some goal) None)|].
  split; [|split; [|split; [|split]]].
  - rewrite picture_at_shown by done. f_equal. unfold shown.
    rewrite decide_True by done. by rewrite !overlay_ash.
  - intros Hne'. rewrite picture_at_shown by done. f_equal. unfold shown.
    rewrite decide_False by congruence. rewrite decide_True by done.
    by rewrite !overlay_pokeball.
  - intros pos Hpos Hps Hpg.
    destruct (Hcell pos) as (Hin & t & Ht & Hnw & Hne');
      [apply elem_of_union; by right|done|].
    rewrite picture_at_shown by done. f_equal. unfold shown.
    rewrite decide_False by congruence. rewrite decide_False by congruence.
    rewrite decide_False by (by intros [?%not_elem_of_empty _]).
    rewrite (tile_at_Ret _ _ _ Ht).
    rewrite (overlay_skip _ (Some (snap_open sn))).
    + apply overlay_mark; [|done|done].
      rewrite given_has_Some. by apply bool_decide_eq_true.
    + rewrite given_has_Some. apply bool_decide_eq_false.
      intros Ho. by apply (Hdisj pos).
  - intros pos Hpos Hps Hpg.
    destruct (Hcell pos) as (Hin & t & Ht & Hnw & Hne');
      [apply elem_of_union; by left|done|].
    rewrite picture_at_shown by done. f_equal. unfold shown.
    rewrite decide_False by congruence. rewrite decide_False by congruence.
    rewrite decide_False by (by intros [?%not_elem_of_empty _]).
    rewrite (tile_at_Ret _ _ _ Ht).
    rewrite (overlay_mark _ (Some (snap_open sn))); [|by rewrite given_has_Some; apply bool_decide_eq_true|done|done].
    apply overlay_skip. rewrite given_has_Some. apply bool_decide_eq_false.
    intros Hc. by apply (Hdisj pos).
  - intros pos Hin Hnc Hno Hps Hpg.
    destruct (grid_at_in_bounds gr pos.1 pos.2 Hrect) as [t Ht].
    { by destruct pos. }
    exists t. split; [done|]. rewrite picture_at_shown by done. f_equal.
    unfold shown.
    rewrite decide_False by congruence. rewrite decide_False by congruence.
    rewrite decide_False by (by intros [?%not_elem_of_empty _]).
    rewrite (tile_at_Ret _ _ _ Ht).
    rewrite !overlay_skip; [done| |];
      rewrite given_has_Some; by apply bool_decide_eq_false.
Qed.

Lemma render_astar_frame_witness :
  ∃ r, astar world_mud (0, 0) (0, 2) true = Ret (Some r)
       ∧ length (steps r) = 4%nat
       ∧ Forall (λ sn,
           ∃ lines,
             render world_mud (Some (0, 0)) (Some (0, 2)) None
               (Some (snap_open sn)) (Some (snap_closed sn))
             = Ret (String.concat newline lines)
             ∧ picture_at lines (0, 0) = Some TILE_ASH
             ∧ ((0, 2) ≠ (0, 0) → picture_at lines (0, 2) = Some TILE_POKEBALL))
           (steps r).
Proof.
  destruct (astar world_mud (0, 0) (0, 2) true) as [[r|]| |] eqn:Ha;
    try (vm_compute in Ha; discriminate Ha).
  exists r. split; [reflexivity|]. split.
  { vm_compute in Ha. injection Ha as <-. reflexivity. }
  eapply Forall_impl.
  - apply (render_astar_frame world_mud (0, 0) (0, 2) true r).
    + repeat constructor.
    + unfold plain_tiles, world_mud. repeat constructor.
    + vm_compute. repeat split; discriminate.
    + exact Ha.
  - intros sn (lines & Hr & Hs & Hg & _). exists lines.
    exact (conj Hr (conj Hs Hg)).
Defined.
